(** * vue-next: a shallow embedding of selected runtime and compiler code

    The development follows the package layout of the repository:
    - [Js]             strings and objects as the TypeScript code uses them;
    - [Shared]         the helpers imported from [@vue/shared];
    - [VFor]           compiler-core/src/directives/vFor.ts, errors.ts, utils;
    - [VNode]          runtime-core/src/vnode.ts;
    - [ComponentProps] runtime-core/src/componentProps.ts;
    - [Ssr]            server-renderer (createBuffer, unrollBuffer, renderAttr ...);
    - [Reactivity]     reactivity/src/ref.ts;
    - [CompileScript]  compiler-sfc/src/compileScript.ts;
    - [CompilerUtils]  compiler-core/src/utils.ts (identifiers, asset ids);
    - [VNodeBlocks]    runtime-core/src/vnode.ts (blocks, normalizeStyle);
    - [SsrCodegen]     compiler-ssr/src/ssrCodegenTransform.ts;
    - [RuntimeTypes]   compiler-sfc/src/compileScript.ts (runtime prop types);
    - [ComponentProxy] runtime-core/src/componentProxy.ts.

    Definitions come first; the theorems about them follow, one module of
    facts for each module of definitions.  A call that can throw returns
    an [option] (or a [result]), [None] standing for the exception. *)

From Stdlib Require Import List String Ascii Bool Arith ZArith Lia.
Import ListNotations.

Set Warnings "-register-all".

Open Scope string_scope.
Open Scope Z_scope.

(* ===================================================================== *)
(** * Definitions                                                          *)
(* ===================================================================== *)

(** ** JavaScript strings and plain objects *)

Module Js.

(** A string is a sequence of code units; the model covers the code units
    0..255 (the Latin-1 range), which is what [Ascii.ascii] holds. *)

Definition code (c : ascii) : nat := nat_of_ascii c.

Definition between (lo hi : nat) (c : ascii) : bool :=
  (Nat.leb lo (code c) && Nat.leb (code c) hi)%bool.

(** [\s] of a regular expression and the set stripped by [trim]:
    TAB, LF, VT, FF, CR, SPACE and NBSP below code unit 256. *)
Definition isWhitespace (c : ascii) : bool :=
  (between 9 13 c || Nat.eqb (code c) 32 || Nat.eqb (code c) 160)%bool.

(** [\w] : [A-Za-z0-9_]. *)
Definition isWordChar (c : ascii) : bool :=
  (between 65 90 c || between 97 122 c || between 48 57 c
   || Nat.eqb (code c) 95)%bool.

Definition isUpperAZ (c : ascii) : bool := between 65 90 c.
Definition isLowerAZ (c : ascii) : bool := between 97 122 c.

(** [c.toUpperCase()] for a single [\w] character: only a-z change. *)
Definition toUpperCaseChar (c : ascii) : ascii :=
  if isLowerAZ c then ascii_of_nat (code c - 32) else c.

(** [c.toLowerCase()] on the Latin-1 range: A-Z and the accented capitals
    U+00C0..U+00DE, the multiplication sign U+00D7 apart. *)
Definition toLowerCaseChar (c : ascii) : ascii :=
  if (isUpperAZ c || (between 192 222 c && negb (Nat.eqb (code c) 215)))%bool
  then ascii_of_nat (code c + 32) else c.

Fixpoint trimStart (s : string) : string :=
  match s with
  | EmptyString => EmptyString
  | String c s' => if isWhitespace c then trimStart s' else s
  end.

Fixpoint trimEnd (s : string) : string :=
  match s with
  | EmptyString => EmptyString
  | String c s' =>
      match trimEnd s' with
      | EmptyString => if isWhitespace c then EmptyString else String c EmptyString
      | t => String c t
      end
  end.

Definition trim (s : string) : string := trimEnd (trimStart s).

Definition len (s : string) : Z := Z.of_nat (String.length s).

Fixpoint drop (n : nat) (s : string) : string :=
  match n, s with
  | O, _ => s
  | S n', String _ s' => drop n' s'
  | S _, EmptyString => EmptyString
  end.

Fixpoint take (n : nat) (s : string) : string :=
  match n, s with
  | O, _ => EmptyString
  | S n', String c s' => String c (take n' s')
  | S _, EmptyString => EmptyString
  end.

(** First position [>= 0] at which [search] occurs in [s], counted from the
    start of [s]. *)
Fixpoint find (search s : string) : option nat :=
  if String.prefix search s then Some O
  else match s with
       | EmptyString => None
       | String _ s' => option_map S (find search s')
       end.

(** [s.indexOf(search, from)]: [from] is clamped to [0 .. s.length]; the
    result is [-1] when there is no occurrence. *)
Definition indexOf (s search : string) (from : Z) : Z :=
  let k := Z.to_nat (Z.min (Z.max from 0) (len s)) in
  match find search (drop k s) with
  | Some i => Z.of_nat (k + i)
  | None => -1
  end.

(** [s.substr(start, length)]: a negative [start] counts from the end, a
    negative [length] selects nothing, an absent one reaches the end. *)
Definition substr (s : string) (start : Z) (length : option Z) : string :=
  let st := if start <? 0 then Z.max (len s + start) 0 else Z.min start (len s) in
  match length with
  | Some l => take (Z.to_nat l) (drop (Z.to_nat st) s)
  | None => drop (Z.to_nat st) s
  end.

(** A plain object with string keys, in property order: assignment to an
    existing key keeps its place, a new key goes last.  (Keys that look
    like array indices, which JavaScript enumerates first, are not given
    a special place.) *)
Definition obj (V : Type) : Type := list (string * V).

Fixpoint get {V} (o : obj V) (k : string) : option V :=
  match o with
  | [] => None
  | (k', v) :: o' => if String.eqb k' k then Some v else get o' k
  end.

Definition hasOwn {V} (o : obj V) (k : string) : bool :=
  match get o k with Some _ => true | None => false end.

Fixpoint set {V} (o : obj V) (k : string) (v : V) : obj V :=
  match o with
  | [] => [(k, v)]
  | (k', v') :: o' =>
      if String.eqb k' k then (k, v) :: o' else (k', v') :: set o' k v
  end.

Fixpoint delete {V} (o : obj V) (k : string) : obj V :=
  match o with
  | [] => []
  | (k', v') :: o' =>
      if String.eqb k' k then o' else (k', v') :: delete o' k
  end.

Definition keys {V} (o : obj V) : list string := map fst o.

(** [o[k] = v] on an object that inherits from [Object.prototype]: under
    the name [__proto__] the assignment reaches the inherited accessor
    and creates no property (the accessor sets the prototype when [v] is
    an object or [null] and does nothing otherwise; the prototype is not
    part of the model). *)
Definition assign {V} (o : obj V) (k : string) (v : V) : obj V :=
  if String.eqb k "__proto__" then o else set o k v.

(** Runtime values, as far as the modelled functions look into them.  A
    function value carries what a call without arguments returns (the
    only way the modelled code calls one: a default-value factory). *)
Inductive value : Type :=
| VUndefined
| VNull
| VBool (b : bool)
| VNumber (n : Z)
| VString (s : string)
| VFunction (id : nat) (ret : value)
| VObject (id : nat).

Definition isFunction (v : value) : bool :=
  match v with VFunction _ _ => true | _ => false end.

(** [v === ''] and the like: strict equality with a string. *)
Definition strictEqString (v : value) (s : string) : bool :=
  match v with VString t => String.eqb t s | _ => false end.

Definition isUndefined (v : value) : bool :=
  match v with VUndefined => true | _ => false end.

End Js.

(** ** @vue/shared *)

Module Shared.
Import Js.

(** Modelled from the spec: [camelize] of @vue/shared, the hyphen-case to
    camel-case converter: every hyphen followed by a word character is
    dropped and that character upper-cased. *)
Fixpoint camelize (s : string) : string :=
  match s with
  | EmptyString => EmptyString
  | String a s' =>
      match s' with
      | String c rest =>
          if (Ascii.eqb a "-" && isWordChar c)%bool
          then String (toUpperCaseChar c) (camelize rest)
          else String a (camelize s')
      | EmptyString => String a EmptyString
      end
  end.

(** Modelled from the spec: [hyphenate] of @vue/shared, the camel-case to
    hyphen-case converter: a hyphen goes before every capital A-Z that
    follows a word character, and the result is lower-cased. *)
Fixpoint hyphenate_from (prev : option ascii) (s : string) : string :=
  match s with
  | EmptyString => EmptyString
  | String c s' =>
      let boundary :=
        match prev with
        | Some p => (isWordChar p && isUpperAZ c)%bool
        | None => false
        end in
      if boundary
      then String "-" (String (toLowerCaseChar c) (hyphenate_from (Some c) s'))
      else String (toLowerCaseChar c) (hyphenate_from (Some c) s')
  end.

Definition hyphenate (s : string) : string := hyphenate_from None s.

(** Modelled from the spec: [isReservedProp] of @vue/shared; the reserved
    properties are [key] and [ref]. *)
Definition isReservedProp (k : string) : bool :=
  (String.eqb k "key" || String.eqb k "ref")%bool.

(** Modelled from the spec: [isOn] of @vue/shared, the listener naming
    convention [on] + EventName: [on] followed by a character that is not
    a lower-case letter. *)
Definition isOn (k : string) : bool :=
  (String.prefix "on" k
   && match drop 2 k with
      | String c _ => negb (isLowerAZ c)
      | EmptyString => false
      end)%bool.

(** Modelled from the spec: [escapeHtml] of @vue/shared, which escapes the
    five characters ampersand, less-than, greater-than, double quote and
    single quote, each by its HTML entity. *)
Definition dquote : ascii := ascii_of_nat 34.

Definition escapeChar (c : ascii) : string :=
  if Ascii.eqb c "&" then "&amp;"
  else if Ascii.eqb c "<" then "&lt;"
  else if Ascii.eqb c ">" then "&gt;"
  else if Ascii.eqb c dquote then "&quot;"
  else if Ascii.eqb c "'" then "&#39;"
  else String c EmptyString.

Fixpoint escapeHtml (s : string) : string :=
  match s with
  | EmptyString => EmptyString
  | String c s' => escapeChar c ++ escapeHtml s'
  end.

End Shared.

(** ** compiler-core: the [v-for] directive transform *)

Module VFor.
Import Js.

(** errors.ts: [const enum ErrorCodes], in declaration order. *)
Inductive ErrorCodes : Type :=
| ABRUPT_CLOSING_OF_EMPTY_COMMENT
| ABSENCE_OF_DIGITS_IN_NUMERIC_CHARACTER_REFERENCE
| CDATA_IN_HTML_CONTENT
| CHARACTER_REFERENCE_OUTSIDE_UNICODE_RANGE
| CONTROL_CHARACTER_REFERENCE
| DUPLICATE_ATTRIBUTE
| END_TAG_WITH_ATTRIBUTES
| END_TAG_WITH_TRAILING_SOLIDUS
| EOF_BEFORE_TAG_NAME
| EOF_IN_CDATA
| EOF_IN_COMMENT
| EOF_IN_SCRIPT_HTML_COMMENT_LIKE_TEXT
| EOF_IN_TAG
| INCORRECTLY_CLOSED_COMMENT
| INCORRECTLY_OPENED_COMMENT
| INVALID_FIRST_CHARACTER_OF_TAG_NAME
| MISSING_ATTRIBUTE_VALUE
| MISSING_END_TAG_NAME
| MISSING_SEMICOLON_AFTER_CHARACTER_REFERENCE
| MISSING_WHITESPACE_BETWEEN_ATTRIBUTES
| NESTED_COMMENT
| NONCHARACTER_CHARACTER_REFERENCE
| NULL_CHARACTER_REFERENCE
| SURROGATE_CHARACTER_REFERENCE
| UNEXPECTED_CHARACTER_IN_ATTRIBUTE_NAME
| UNEXPECTED_CHARACTER_IN_UNQUOTED_ATTRIBUTE_VALUE
| UNEXPECTED_EQUALS_SIGN_BEFORE_ATTRIBUTE_NAME
| UNEXPECTED_NULL_CHARACTER
| UNEXPECTED_QUESTION_MARK_INSTEAD_OF_TAG_NAME
| UNEXPECTED_SOLIDUS_IN_TAG
| UNKNOWN_NAMED_CHARACTER_REFERENCE
| X_INVALID_END_TAG
| X_MISSING_END_TAG
| X_MISSING_INTERPOLATION_END
| X_MISSING_DYNAMIC_DIRECTIVE_ARGUMENT_END
| X_ELSE_IF_NO_ADJACENT_IF
| X_ELSE_NO_ADJACENT_IF
| X_FOR_NO_EXPRESSION
| X_FOR_MALFORMED_EXPRESSION.

(** The number a [const enum] member stands for. *)
Definition errorCodeNumber (c : ErrorCodes) : Z :=
  match c with
  | ABRUPT_CLOSING_OF_EMPTY_COMMENT => 0
  | ABSENCE_OF_DIGITS_IN_NUMERIC_CHARACTER_REFERENCE => 1
  | CDATA_IN_HTML_CONTENT => 2
  | CHARACTER_REFERENCE_OUTSIDE_UNICODE_RANGE => 3
  | CONTROL_CHARACTER_REFERENCE => 4
  | DUPLICATE_ATTRIBUTE => 5
  | END_TAG_WITH_ATTRIBUTES => 6
  | END_TAG_WITH_TRAILING_SOLIDUS => 7
  | EOF_BEFORE_TAG_NAME => 8
  | EOF_IN_CDATA => 9
  | EOF_IN_COMMENT => 10
  | EOF_IN_SCRIPT_HTML_COMMENT_LIKE_TEXT => 11
  | EOF_IN_TAG => 12
  | INCORRECTLY_CLOSED_COMMENT => 13
  | INCORRECTLY_OPENED_COMMENT => 14
  | INVALID_FIRST_CHARACTER_OF_TAG_NAME => 15
  | MISSING_ATTRIBUTE_VALUE => 16
  | MISSING_END_TAG_NAME => 17
  | MISSING_SEMICOLON_AFTER_CHARACTER_REFERENCE => 18
  | MISSING_WHITESPACE_BETWEEN_ATTRIBUTES => 19
  | NESTED_COMMENT => 20
  | NONCHARACTER_CHARACTER_REFERENCE => 21
  | NULL_CHARACTER_REFERENCE => 22
  | SURROGATE_CHARACTER_REFERENCE => 23
  | UNEXPECTED_CHARACTER_IN_ATTRIBUTE_NAME => 24
  | UNEXPECTED_CHARACTER_IN_UNQUOTED_ATTRIBUTE_VALUE => 25
  | UNEXPECTED_EQUALS_SIGN_BEFORE_ATTRIBUTE_NAME => 26
  | UNEXPECTED_NULL_CHARACTER => 27
  | UNEXPECTED_QUESTION_MARK_INSTEAD_OF_TAG_NAME => 28
  | UNEXPECTED_SOLIDUS_IN_TAG => 29
  | UNKNOWN_NAMED_CHARACTER_REFERENCE => 30
  | X_INVALID_END_TAG => 31
  | X_MISSING_END_TAG => 32
  | X_MISSING_INTERPOLATION_END => 33
  | X_MISSING_DYNAMIC_DIRECTIVE_ARGUMENT_END => 34
  | X_ELSE_IF_NO_ADJACENT_IF => 35
  | X_ELSE_NO_ADJACENT_IF => 36
  | X_FOR_NO_EXPRESSION => 37
  | X_FOR_MALFORMED_EXPRESSION => 38
  end.

(** ast.ts: a position and a source range. *)
Record Position : Type := mkPosition {
  offset : Z;
  line : Z;
  column : Z
}.

Record SourceLocation : Type := mkLoc {
  loc_start : Position;
  loc_end : Position;
  loc_source : string
}.

(** errors.ts: [CompilerError]; the message text of the [SyntaxError] is
    left out, [code] and [loc] are the fields the function sets. *)
Record CompilerError : Type := mkCompilerError {
  err_code : ErrorCodes;
  err_loc : Position
}.

Definition createCompilerError (code : ErrorCodes) (loc : Position)
  : CompilerError :=
  mkCompilerError code loc.

(** The two node types of ast.ts that vFor.ts names. *)
Inductive NodeTypes : Type := FOR | EXPRESSION.

Record ExpressionNode : Type := mkExpression {
  exp_type : NodeTypes;
  exp_loc : SourceLocation;
  exp_content : string;
  exp_isStatic : bool
}.

(** The element carrying the directive; only its [loc] is read. *)
Record ElementNode : Type := mkElement {
  el_tag : string;
  el_loc : SourceLocation
}.

Record DirectiveNode : Type := mkDirective {
  dir_name : string;
  dir_exp : option ExpressionNode;
  dir_loc : SourceLocation
}.

Record ForNode : Type := mkFor {
  for_type : NodeTypes;
  for_loc : SourceLocation;
  for_source : ExpressionNode;
  for_valueAlias : option ExpressionNode;
  for_keyAlias : option ExpressionNode;
  for_objectIndexAlias : option ExpressionNode;
  for_children : list ElementNode
}.

(** *** The regular expressions *)

Fixpoint skipWhitespace (s : string) : string :=
  match s with
  | EmptyString => EmptyString
  | String c s' => if isWhitespace c then skipWhitespace s' else s
  end.

(** The tail [(?:in|of)\s+( [\s\S]* )] of [forAliasRE], anchored at the
    start of [s]; the result is the second group. *)
Definition forAliasKeyword (s : string) : option string :=
  match s with
  | String a (String b rest) =>
      if ((Ascii.eqb a "i" && Ascii.eqb b "n")
          || (Ascii.eqb a "o" && Ascii.eqb b "f"))%bool
      then match rest with
           | String c _ => if isWhitespace c then Some (skipWhitespace rest)
                           else None
           | EmptyString => None
           end
      else None
  | _ => None
  end.

(** [(?:(?<=\))|\s+)] followed by the tail, with [prev] the character
    before the current position: the look-behind alternative comes first. *)
Definition forAliasSeparator (prev : option ascii) (s : string)
  : option string :=
  let lookbehind :=
    match prev with
    | Some p => if Ascii.eqb p ")" then forAliasKeyword s else None
    | None => None
    end in
  match lookbehind with
  | Some rhs => Some rhs
  | None =>
      match s with
      | String c _ =>
          if isWhitespace c then forAliasKeyword (skipWhitespace s) else None
      | EmptyString => None
      end
  end.

(** [forAliasRE = /( [\s\S]*? )(?:(?<=\))|\s+)(?:in|of)\s+( [\s\S]* )/]
    (written here with blanks inside the two groups):
    the lazy first group grows one character at a time until the rest
    matches.  The result is the pair of the two groups. *)
Fixpoint forAliasRE_from (prev : option ascii) (s : string)
  : option (string * string) :=
  match forAliasSeparator prev s with
  | Some rhs => Some (EmptyString, rhs)
  | None =>
      match s with
      | EmptyString => None
      | String c s' =>
          match forAliasRE_from (Some c) s' with
          | Some (lhs, rhs) => Some (String c lhs, rhs)
          | None => None
          end
      end
  end.

Definition forAliasRE (s : string) : option (string * string) :=
  forAliasRE_from None s.

(** [[^,\}\]]]: any character but a comma, a closing brace or bracket. *)
Definition isIteratorChar (c : ascii) : bool :=
  negb (Ascii.eqb c "," || Ascii.eqb c "}" || Ascii.eqb c "]")%bool.

Fixpoint spanIterator (s : string) : string * string :=
  match s with
  | EmptyString => (EmptyString, EmptyString)
  | String c s' =>
      if isIteratorChar c
      then let (run, rest) := spanIterator s' in (String c run, rest)
      else (EmptyString, s)
  end.

(** The rest of [forIteratorRE] right after its comma: a run of
    characters other than comma, closing brace and closing bracket,
    optionally a second comma and run, then the end of the string. *)
Definition forIteratorTail (s : string) : option (string * option string) :=
  let (g1, rest) := spanIterator s in
  match rest with
  | EmptyString => Some (g1, None)
  | String c rest' =>
      if Ascii.eqb c ","
      then let (g2, rest2) := spanIterator rest' in
           match rest2 with
           | EmptyString => Some (g1, Some g2)
           | _ => None
           end
      else None
  end.

(** [forIteratorRE]: a comma, a run of [[^,\}\]]], optionally a second
    comma and run, anchored at the end of the string: the leftmost
    comma from which the tail reaches the end of the string.  The result
    is the text before the match and the two groups. *)
Fixpoint forIteratorRE (s : string)
  : option (string * string * option string) :=
  match s with
  | EmptyString => None
  | String c s' =>
      let here := if Ascii.eqb c "," then forIteratorTail s' else None in
      match here with
      | Some (g1, g2) => Some (EmptyString, g1, g2)
      | None =>
          match forIteratorRE s' with
          | Some (before, g1, g2) => Some (String c before, g1, g2)
          | None => None
          end
      end
  end.

(** [s.replace(stripParensRE, '')] with [stripParensRE = /^\(|\)$/g]:
    an opening parenthesis at the start and a closing one at the end go. *)
Fixpoint stripClosingParen (s : string) : string :=
  match s with
  | EmptyString => EmptyString
  | String c EmptyString =>
      if Ascii.eqb c ")" then EmptyString else s
  | String c s' => String c (stripClosingParen s')
  end.

Definition stripParens (s : string) : string :=
  match s with
  | String c s' => if Ascii.eqb c "(" then stripClosingParen s'
                   else stripClosingParen s
  | EmptyString => EmptyString
  end.

(** *** parseAliasExpressions *)

Record AliasExpression : Type := mkAlias {
  alias_offset : Z;
  alias_content : string
}.

Record AliasExpressions : Type := mkAliases {
  source : AliasExpression;
  value : option AliasExpression;
  key : option AliasExpression;
  index : option AliasExpression
}.

Definition nonEmpty (s : string) : bool :=
  match s with EmptyString => false | _ => true end.

Definition parseAliasExpressions (src : string) : option AliasExpressions :=
  match forAliasRE src with
  | None => None
  | Some (LHS, RHS) =>
      let result_source := mkAlias (indexOf src RHS (len LHS)) (trim RHS) in
      let valueContent0 := trim (stripParens (trim LHS)) in
      let trimmedOffset := indexOf LHS valueContent0 0 in
      match forIteratorRE valueContent0 with
      | Some (before, g1, g2) =>
          let valueContent := trim before in
          let keyContent := trim g1 in
          let result_key :=
            if nonEmpty keyContent
            then Some (mkAlias
                         (indexOf src keyContent
                            (trimmedOffset + len valueContent))
                         keyContent)
            else None in
          let result_index :=
            match g2 with
            | Some m2 =>
                if nonEmpty m2
                then let indexContent := trim m2 in
                     if nonEmpty indexContent
                     then Some (mkAlias
                                  (indexOf src indexContent
                                     match result_key with
                                     | Some k => alias_offset k
                                                 + len (alias_content k)
                                     | None => trimmedOffset
                                               + len valueContent
                                     end)
                                  indexContent)
                     else None
                else None
            | None => None
            end in
          let result_value :=
            if nonEmpty valueContent
            then Some (mkAlias trimmedOffset valueContent) else None in
          Some (mkAliases result_source result_value result_key result_index)
      | None =>
          let result_value :=
            if nonEmpty valueContent0
            then Some (mkAlias trimmedOffset valueContent0) else None in
          Some (mkAliases result_source result_value None None)
      end
  end.

(** *** utils: source ranges *)

(** The loop of [advancePositionWithMutation] over the first [n]
    characters of [src], from index [i]: the number of newlines seen and
    the index of the last one. *)
Fixpoint countNewlines (src : string) (n : nat) (i linesCount lastNewLinePos : Z)
  : Z * Z :=
  match n with
  | O => (linesCount, lastNewLinePos)
  | S n' =>
      match src with
      | EmptyString => (linesCount, lastNewLinePos)
      | String c src' =>
          if Nat.eqb (code c) 10
          then countNewlines src' n' (i + 1) (linesCount + 1) i
          else countNewlines src' n' (i + 1) linesCount lastNewLinePos
      end
  end.

Definition advancePositionWithMutation (pos : Position) (src : string)
    (numberOfCharacters : Z) : Position :=
  let (linesCount, lastNewLinePos) :=
    countNewlines src (Z.to_nat numberOfCharacters) 0 0 (-1) in
  mkPosition
    (offset pos + numberOfCharacters)
    (line pos + linesCount)
    (if lastNewLinePos =? -1
     then column pos + numberOfCharacters
     else Z.max 1 (numberOfCharacters - lastNewLinePos)).

Definition advancePositionWithClone (pos : Position) (src : string)
    (numberOfCharacters : Z) : Position :=
  advancePositionWithMutation pos src numberOfCharacters.

(** [assert]: [None] stands for the thrown error. *)
Definition assert (condition : bool) : option unit :=
  if condition then Some tt else None.

Section Transform.

(** The build flag [__DEV__]. *)
Variable DEV : bool.

Definition getInnerRange (loc : SourceLocation) (off : Z) (length : option Z)
  : option SourceLocation :=
  match (if DEV then assert (off <=? len (loc_source loc)) else Some tt) with
  | None => None
  | Some _ =>
      match length with
      | None =>
          Some (mkLoc
                  (advancePositionWithClone (loc_start loc) (loc_source loc) off)
                  (loc_end loc)
                  (substr (loc_source loc) off None))
      | Some l =>
          match (if DEV then assert (off + l <=? len (loc_source loc))
                 else Some tt) with
          | None => None
          | Some _ =>
              Some (mkLoc
                      (advancePositionWithClone (loc_start loc) (loc_source loc)
                                                off)
                      (advancePositionWithClone (loc_start loc) (loc_source loc)
                                                (off + l))
                      (substr (loc_source loc) off (Some l)))
          end
      end
  end.

(** [maybeCreateExpression]: the outer [option] is the thrown assertion,
    the inner one the [undefined] result for an absent alias. *)
Definition maybeCreateExpression (alias : option AliasExpression)
    (node : ExpressionNode) : option (option ExpressionNode) :=
  match alias with
  | None => Some None
  | Some a =>
      match getInnerRange (exp_loc node) (alias_offset a)
                          (Some (len (alias_content a))) with
      | None => None
      | Some l => Some (Some (mkExpression EXPRESSION l (alias_content a) false))
      end
  end.

(** The transform context (transform.ts): its state is a parameter, and
    so are the two methods the directive transform calls; a method may
    throw ([None]), as a handler given by the caller can. *)
Variable Context : Type.
Variable replaceNode : ForNode -> Context -> option Context.
Variable onError : CompilerError -> Context -> option Context.

(** The callback given to [createDirectiveTransform('for', ...)]: what it
    does to the context; [None] when an assertion or a method of the
    context throws. *)
Definition transformFor (node : ElementNode) (dir : DirectiveNode)
    (context : Context) : option Context :=
  match dir_exp dir with
  | Some exp =>
      match parseAliasExpressions (exp_content exp) with
      | Some aliases =>
          match maybeCreateExpression (Some (source aliases)) exp with
          | Some (Some src) =>
              match maybeCreateExpression (value aliases) exp with
              | Some valueAlias =>
                  match maybeCreateExpression (key aliases) exp with
                  | Some keyAlias =>
                      match maybeCreateExpression (index aliases) exp with
                      | Some objectIndexAlias =>
                          replaceNode
                            (mkFor FOR (el_loc node) src valueAlias
                                   keyAlias objectIndexAlias [node])
                            context
                      | None => None
                      end
                  | None => None
                  end
              | None => None
              end
          | _ => None
          end
      | None =>
          onError
            (createCompilerError X_FOR_MALFORMED_EXPRESSION
                                 (loc_start (dir_loc dir)))
            context
      end
  | None =>
      onError
        (createCompilerError X_FOR_NO_EXPRESSION (loc_start (dir_loc dir)))
        context
  end.

End Transform.

End VFor.

(** ** runtime-core: render descriptors (vnode.ts) *)

Module VNode.
Import Js.

(** Objects live in a store and are named by their address, so that
    "the same object" and "a fresh object" can be told apart. *)
Definition vref : Type := nat.
Definition host : Type := nat.

Inductive VNodeTypes : Type :=
| TElement (tag : string)
| TStatefulComponent (id : nat)
| TFunctionalComponent (id : nat)
| Fragment
| Text
| Comment
| Portal
| Suspense.

(** [VNodeChild]: a descriptor object, a primitive (given by what
    [child + ''] yields), null or undefined, or an array of children. *)
Inductive VNodeChild : Type :=
| ChildNull
| ChildArray (items : list VNodeChild)
| ChildVNode (r : vref)
| ChildPrimitive (text : string).

Inductive NormalizedChildren : Type :=
| NoChildren
| TextChildren (s : string)
| ArrayChildren (items : list VNodeChild)
| SlotsChildren (id : nat).

(** What [createVNode] may receive as children. *)
Inductive RawChildren : Type :=
| RawNull
| RawArray (items : list VNodeChild)
| RawObject (id : nat)
| RawFunction (id : nat)
| RawString (s : string)
| RawOther (text : string).

Record VNode : Type := mkVNode {
  type : VNodeTypes;
  props : option (obj value);
  key : value;
  ref : value;
  children : NormalizedChildren;
  component : option nat;
  suspense : option nat;
  el : option host;
  anchor : option host;
  target : option host;
  shapeFlag : Z;
  patchFlag : Z;
  dynamicProps : option (list string);
  dynamicChildren : option (list vref);
  appContext : option nat
}.

(** The module state: the object store, [blockStack] and [shouldTrack]. *)
Record State : Type := mkState {
  heap : list VNode;
  blockStack : list (option (list vref));
  shouldTrack : bool
}.

Definition alloc (v : VNode) (st : State) : State * vref :=
  (mkState (heap st ++ [v])%list (blockStack st) (shouldTrack st),
   List.length (heap st)).

Definition deref (st : State) (r : vref) : option VNode :=
  nth_error (heap st) r.

Fixpoint updateLast {A} (f : A -> A) (l : list A) : list A :=
  match l with
  | [] => []
  | [x] => [f x]
  | x :: l' => x :: updateLast f l'
  end.

(** [trackDynamicNode]: push onto the innermost open block, if it tracks. *)
Definition trackDynamicNode (r : vref) (st : State) : State :=
  mkState (heap st)
          (updateLast (fun b => match b with
                                | Some nodes => Some (nodes ++ [r])%list
                                | None => None
                                end) (blockStack st))
          (shouldTrack st).

Section ShapeFlags.

(** shapeFlags.ts is a [const enum] of bit masks. *)
Variables ELEMENT FUNCTIONAL_COMPONENT STATEFUL_COMPONENT : Z.
Variables TEXT_CHILDREN ARRAY_CHILDREN SLOTS_CHILDREN : Z.

(** [normalizeChildren]: the normalized children and the bits to add to
    the shape flag. *)
Definition normalizeChildren (children : RawChildren)
  : NormalizedChildren * Z :=
  match children with
  | RawNull => (NoChildren, 0)
  | RawArray items => (ArrayChildren items, ARRAY_CHILDREN)
  | RawObject id => (SlotsChildren id, SLOTS_CHILDREN)
  | RawFunction id => (SlotsChildren id, SLOTS_CHILDREN)
  | RawString s => (TextChildren s, TEXT_CHILDREN)
  | RawOther text => (TextChildren text, TEXT_CHILDREN)
  end.

(** [createVNode(type, null, children, patchFlag, dynamicProps)]: every
    call made by [normalizeVNode] passes [null] for the props, so the
    normalization of [class] and [style] is not reached. *)
Definition createVNode (ty : VNodeTypes) (children : RawChildren)
    (patch : Z) (dynProps : option (list string)) (st : State)
  : State * vref :=
  let shape :=
    match ty with
    | TElement _ => ELEMENT
    | TStatefulComponent _ => STATEFUL_COMPONENT
    | TFunctionalComponent _ => FUNCTIONAL_COMPONENT
    | _ => 0
    end in
  let (ch, bits) := normalizeChildren children in
  let vnode :=
    mkVNode ty None VNull VNull ch None None None None None
            (Z.lor shape bits) patch dynProps None None in
  let (st1, r) := alloc vnode st in
  if (shouldTrack st1
      && (negb (patch =? 0)
          || negb (Z.land shape STATEFUL_COMPONENT =? 0)
          || negb (Z.land shape FUNCTIONAL_COMPONENT =? 0)))%bool
  then (trackDynamicNode r st1, r)
  else (st1, r).

Definition cloneVNode (vnode : VNode) : VNode :=
  mkVNode (type vnode) (props vnode) (key vnode) (ref vnode)
          (children vnode)
          None (* component *)
          None (* suspense *)
          None (* el *)
          None (* anchor *)
          (target vnode) (shapeFlag vnode) (patchFlag vnode)
          (dynamicProps vnode) (dynamicChildren vnode) (appContext vnode).

(** [normalizeVNode]: [None] only for a reference to no object. *)
Definition normalizeVNode (child : VNodeChild) (st : State)
  : option (State * vref) :=
  match child with
  | ChildNull => Some (createVNode Comment RawNull 0 None st)
  | ChildArray items => Some (createVNode Fragment (RawArray items) 0 None st)
  | ChildVNode r =>
      match deref st r with
      | Some v =>
          match el v with
          | None => Some (st, r)
          | Some _ => Some (alloc (cloneVNode v) st)
          end
      | None => None
      end
  | ChildPrimitive text => Some (createVNode Text (RawString text) 0 None st)
  end.

End ShapeFlags.

(** [normalizeClass]: what a [class] binding may hold. *)
Inductive ClassValue : Type :=
| ClassString (s : string)
| ClassArray (items : list ClassValue)
| ClassObject (entries : obj bool)
| ClassOther.

Fixpoint normalizeClass (v : ClassValue) : string :=
  trim
    match v with
    | ClassString s => s
    | ClassArray items =>
        (fix each (l : list ClassValue) : string :=
           match l with
           | [] => EmptyString
           | x :: l' => normalizeClass x ++ " " ++ each l'
           end) items
    | ClassObject entries =>
        (fix each (l : obj bool) : string :=
           match l with
           | [] => EmptyString
           | (name, truthy) :: l' =>
               if truthy then name ++ " " ++ each l' else each l'
           end) entries
    | ClassOther => EmptyString
    end.

End VNode.

(** ** runtime-core: props resolution (componentProps.ts) *)

Module ComponentProps.
Import Js Shared.

Definition Data : Type := obj value.

(** A type constructor is known by the name [getType] reads off its
    source text ([Boolean], [String], ...; empty when there is none). *)
Definition PropConstructor : Type := string.

Definition getType (ctor : PropConstructor) : string := ctor.

Definition isSameType (a b : PropConstructor) : bool :=
  String.eqb (getType a) (getType b).

(** The [type] field of a prop declaration. *)
Inductive PropType : Type :=
| TypeAbsent
| TypeNull
| TypeTrue
| TypeCtor (c : PropConstructor)
| TypeArray (cs : list PropConstructor).

Record PropOptions : Type := mkPropOptions {
  opt_type : PropType;
  opt_required : bool;
  opt_default : option value;   (* [None]: no own property [default] *)
  opt_validator : option nat
}.

(** [Prop<T> | null]: one entry of the object syntax. *)
Inductive RawProp : Type :=
| RawNull
| RawCtor (c : PropConstructor)
| RawCtorArray (cs : list PropConstructor)
| RawOptions (o : PropOptions).

Inductive ComponentPropsOptions : Type :=
| PropsArray (names : list string)
| PropsObject (decls : obj RawProp).

(** A normalized declaration: the options and the two [BooleanFlags]
    entries (an absent flag reads as false). *)
Record NormalizedProp : Type := mkNormalizedProp {
  np_options : PropOptions;
  shouldCast : bool;
  shouldCastTrue : bool
}.

Definition EMPTY_PROP : NormalizedProp :=
  mkNormalizedProp (mkPropOptions TypeAbsent false None None) false false.

(** [NormalizedPropsOptions]: in the record of declarations [None] is
    the [null] declaration. *)
Definition NormalizedPropsOptions : Type :=
  (obj (option NormalizedProp) * list string)%type.

Definition validatePropName (k : string) : bool :=
  match k with
  | String c _ => negb (Ascii.eqb c "$")
  | EmptyString => true
  end.

Fixpoint getTypeIndexIn (ty : PropConstructor) (cs : list PropConstructor)
    (i : Z) : Z :=
  match cs with
  | [] => -1
  | c :: cs' => if isSameType c ty then i else getTypeIndexIn ty cs' (i + 1)
  end.

Definition getTypeIndex (ty : PropConstructor) (expectedTypes : PropType) : Z :=
  match expectedTypes with
  | TypeArray cs => getTypeIndexIn ty cs 0
  | TypeCtor c => if isSameType c ty then 0 else -1
  | _ => -1
  end.

Definition Boolean : PropConstructor := "Boolean".
Definition String_ : PropConstructor := "String".

(** One step of the loop over the object syntax.  The assignment
    [normalized[normalizedKey] = prop] creates no property under the
    name [__proto__]: it sets the prototype of [normalized], to the
    declaration or to [null].  (Left out: once the prototype is [null],
    a further declaration under that name would be kept as a property.) *)
Definition normalizeDecl (acc : NormalizedPropsOptions)
    (entry : string * RawProp) : NormalizedPropsOptions :=
  let (normalized, needCastKeys) := acc in
  let (k, opt) := entry in
  let normalizedKey := camelize k in
  if validatePropName normalizedKey then
    let prop :=
      match opt with
      | RawNull => None
      | RawCtor c => Some (mkPropOptions (TypeCtor c) false None None)
      | RawCtorArray cs => Some (mkPropOptions (TypeArray cs) false None None)
      | RawOptions o => Some o
      end in
    match prop with
    | Some o =>
        let booleanIndex := getTypeIndex Boolean (opt_type o) in
        let stringIndex := getTypeIndex String_ (opt_type o) in
        let np := mkNormalizedProp o (-1 <? booleanIndex)
                    ((stringIndex <? 0) || (booleanIndex <? stringIndex))%bool in
        (assign normalized normalizedKey (Some np),
         if ((-1 <? booleanIndex)
             || match opt_default o with Some _ => true | None => false end)%bool
         then (needCastKeys ++ [normalizedKey])%list
         else needCastKeys)
    | None => (assign normalized normalizedKey None, needCastKeys)
    end
  else acc.

(** A declaration read as a condition: [null] is falsy; a constructor,
    an array (also the empty one) and an options object are truthy. *)
Definition truthy (rp : RawProp) : bool :=
  match rp with RawNull => false | _ => true end.

(** [raw._n], when it is truthy. *)
Definition memoOf (decls : obj RawProp) : option RawProp :=
  match get decls "_n" with
  | Some memo => if truthy memo then Some memo else None
  | None => None
  end.

(** What [normalizePropsOptions] returns: the normalized entry, or what
    the memo read at its head found. *)
Inductive NormalizedEntry : Type :=
| Entry (normalized : obj (option NormalizedProp)) (needCastKeys : list string)
| Found (memo : RawProp).

(** [normalizePropsOptions], as computed the first time an options object
    is seen (the entry is then kept in its property [_n], which takes
    the object to be extensible).  The function starts with
    [if (raw._n) return raw._n]: declarations in the object syntax that
    declare a prop named [_n], not as [null], have that declaration
    returned as it is.  For an absent declaration the result is
    [EMPTY_ARR], whose two components are never read by [resolveProps].
    In the array syntax every name is assigned [EMPTY_OBJ]; under the
    name [__proto__] that sets the prototype and creates no property. *)
Definition normalizePropsOptions (raw : option ComponentPropsOptions)
  : NormalizedEntry :=
  match raw with
  | None => Entry [] []
  | Some (PropsArray names) =>
      Entry
        (fold_left
           (fun normalized name =>
              let normalizedKey := camelize name in
              if validatePropName normalizedKey
              then assign normalized normalizedKey (Some EMPTY_PROP)
              else normalized)
           names [])
        []
  | Some (PropsObject decls) =>
      match memoOf decls with
      | Some memo => Found memo
      | None =>
          let (normalized, needCastKeys) :=
            fold_left normalizeDecl decls ([], []) in
          Entry normalized needCastKeys
      end
  end.

(** The own properties of a constructor function, as far as the model
    knows them: those every such function has.  (A constructor is known
    by its name only; static members of its own are left out.) *)
Definition functionRecord : obj (option NormalizedProp) :=
  [("length", None); ("name", None); ("prototype", None)].

(** [const { 0: options, 1: needCastKeys } = normalizePropsOptions(...)]:
    the two components that [resolveProps] goes on with.  When the memo
    read found a declaration, they are its properties [0] and [1]:
    [undefined] for a constructor, for an options object and for an array
    of fewer than two constructors ([None]: [resolveProps], which reads
    both when props are declared, then throws a [TypeError]); for a
    longer array, its first two constructors: the declared props are then
    the own properties of the first, and the second loop, which runs over
    the indices of a function, finds no declaration to cast. *)
Definition entryOf (entry : NormalizedEntry) : option NormalizedPropsOptions :=
  match entry with
  | Entry normalized needCastKeys => Some (normalized, needCastKeys)
  | Found (RawCtorArray (_ :: _ :: _)) => Some (functionRecord, [])
  | Found _ => None
  end.

Inductive EmitsOptions : Type :=
| EmitsArray (names : list string)
| EmitsObject (o : obj value).

(** [normalized[key] = null], with whether the prototype of [normalized]
    is [null] by now: the first assignment under the name [__proto__]
    makes it so and creates no property; after that the name is a
    property like any other. *)
Definition emitName (acc : obj value * bool) (k : string) : obj value * bool :=
  let (normalized, bare) := acc in
  if (String.eqb k "__proto__" && negb bare)%bool then (normalized, true)
  else (set normalized k VNull, bare).

(** [normalizeEmitsOptions]: the outer [None] is a thrown [TypeError].
    For the array syntax the function ends with
    [Object.defineProperty(options, '_n', normalized)], which takes
    [normalized] itself as the property descriptor: the call throws when
    [normalized] has a property [get] or [set] (its value, [null], is not
    callable), and otherwise defines [_n] without a value, so that the
    memo read at the start is never found. *)
Definition normalizeEmitsOptions (options : option EmitsOptions)
  : option (option (obj value)) :=
  match options with
  | None => Some None
  | Some (EmitsArray names) =>
      let normalized := fst (fold_left emitName names ([], false)) in
      if (hasOwn normalized "get" || hasOwn normalized "set")%bool
      then None
      else Some (Some normalized)
  | Some (EmitsObject o) => Some (Some o)
  end.

(** [isListener]: [None] is the [TypeError] of reading [toLowerCase] of
    the first character of an empty event name. *)
Definition isListener (emits : obj value) (k : string) : option bool :=
  if negb (isOn k) then Some false
  else
    let eventName := drop 2 k in
    if hasOwn emits eventName then Some true
    else match eventName with
         | EmptyString => None
         | String c rest => Some (hasOwn emits (String (toLowerCaseChar c) rest))
         end.

Record Component : Type := mkComponent {
  c_props : option ComponentPropsOptions;
  c_emits : option EmitsOptions
}.

Record ComponentInternalInstance : Type := mkInstance {
  type : Component;
  propsProxy : option Data;
  patchFlag : Z;        (* [instance.vnode.patchFlag] *)
  shapeFlag : Z;        (* [instance.vnode.shapeFlag] *)
  props : Data;
  attrs : Data
}.

Definition EMPTY_OBJ : Data := [].

(** The locals of [resolveProps] that its loops write. *)
Record Locals : Type := mkLocals {
  l_props : Data;
  l_attrs : option Data;
  l_proxy : option Data
}.

Definition setProp (k : string) (val : value) (l : Locals) : Locals :=
  mkLocals (set (l_props l) k val) (l_attrs l)
           (option_map (fun p => set p k val) (l_proxy l)).

Definition setAttr (k : string) (val : value) (l : Locals) : Locals :=
  mkLocals (l_props l)
           (Some (set match l_attrs l with Some a => a | None => [] end k val))
           (l_proxy l).

(** The members every object inherits from [Object.prototype]. *)
Definition objectPrototypeKeys : list string :=
  ["constructor"; "__defineGetter__"; "__defineSetter__"; "hasOwnProperty";
   "__lookupGetter__"; "__lookupSetter__"; "isPrototypeOf";
   "propertyIsEnumerable"; "toString"; "valueOf"; "__proto__";
   "toLocaleString"].

Definition isInherited (k : string) : bool :=
  existsb (String.eqb k) objectPrototypeKeys.

(** What a property read gives: a value held by the object, or a member
    inherited from [Object.prototype] (a function, or for [__proto__]
    the prototype: neither [undefined] nor a string). *)
Inductive PropertyRead : Type :=
| Held (v : value)
| InheritedMember (k : string).

(** [props[key]], [props] being the object [resolveProps] creates by
    [{}]. *)
Definition readProp (p : Data) (k : string) : PropertyRead :=
  match get p k with
  | Some v => Held v
  | None => if isInherited k then InheritedMember k else Held VUndefined
  end.

(** [currentValue === undefined]. *)
Definition readsUndefined (r : PropertyRead) : bool :=
  match r with Held v => isUndefined v | InheritedMember _ => false end.

(** [currentValue === s], [s] a string. *)
Definition readsString (r : PropertyRead) (s : string) : bool :=
  match r with Held v => strictEqString v s | InheritedMember _ => false end.

Section ResolveProps.

(** [PatchFlags.FULL_PROPS] and [ShapeFlags.FUNCTIONAL_COMPONENT]. *)
Variables FULL_PROPS FUNCTIONAL_COMPONENT : Z.

(** The body of [for (const key in rawProps)]. *)
Definition routeProp (hasDeclaredProps : bool)
    (options : obj (option NormalizedProp)) (emits : option (obj value))
    (l : option Locals) (entry : string * value) : option Locals :=
  match l with
  | None => None
  | Some l =>
      let (k, val) := entry in
      if isReservedProp k then Some l
      else if (hasDeclaredProps && hasOwn options (camelize k))%bool
      then Some (setProp (camelize k) val l)
      else match emits with
           | None => Some (setAttr k val l)
           | Some e =>
               match isListener e k with
               | None => None
               | Some false => Some (setAttr k val l)
               | Some true => Some l
               end
           end
  end.

(** The body of [for (let i = 0; i < needCastKeys.length; i++)].  Under
    the key [__proto__], never a property of [options], the code reads
    the prototype of [options], a declaration, and goes on; what it may
    then do, assign [false] under [__proto__], changes no object: the
    round is as good as skipped. *)
Definition castProp (options : obj (option NormalizedProp))
    (l : Locals) (k : string) : Locals :=
  match get options k with
  | Some (Some opt) =>
      let hasDefault :=
        match opt_default (np_options opt) with
        | Some _ => true | None => false
        end in
      let currentValue := readProp (l_props l) k in
      let l1 :=
        match opt_default (np_options opt) with
        | Some defaultValue =>
            if readsUndefined currentValue
            then setProp k match defaultValue with
                           | VFunction _ ret => ret
                           | d => d
                           end l
            else l
        | None => l
        end in
      if shouldCast opt then
        if (negb (hasOwn (l_props l1) k) && negb hasDefault)%bool
        then setProp k (VBool false) l1
        else if (shouldCastTrue opt
                 && (readsString currentValue EmptyString
                     || readsString currentValue (hyphenate k)))%bool
        then setProp k (VBool true) l1
        else l1
      else l1
  | _ => l
  end.

(** [resolveProps]: the instance after the call; [None] when it throws.
    The development-only validation only warns and is left out, and so
    are [unlock] and [lock], which toggle the read-only mode of reactive
    proxies around the writes. *)
Definition resolveProps (instance : ComponentInternalInstance)
    (rawProps : option Data) : option ComponentInternalInstance :=
  let _options := c_props (type instance) in
  let hasDeclaredProps := match _options with Some _ => true | None => false end in
  match rawProps, hasDeclaredProps with
  | None, false =>
      Some (mkInstance (type instance) (propsProxy instance)
                       (patchFlag instance) (shapeFlag instance)
                       EMPTY_OBJ EMPTY_OBJ)
  | _, _ =>
      match entryOf (normalizePropsOptions _options) with
      | None => None
      | Some (options, needCastKeys) =>
      match normalizeEmitsOptions (c_emits (type instance)) with
      | None => None
      | Some emits =>
      let l0 := mkLocals [] None (propsProxy instance) in
      let l1 :=
        match rawProps with
        | Some raw =>
            fold_left (routeProp hasDeclaredProps options emits) raw (Some l0)
        | None => Some l0
        end in
      match l1 with
      | None => None
      | Some l1 =>
          let l2 :=
            if hasDeclaredProps
            then fold_left (castProp options) needCastKeys l1
            else l1 in
          let proxy :=
            match l_proxy l2 with
            | Some p =>
                if (hasDeclaredProps
                    && ((patchFlag instance =? 0)
                        || negb (Z.land (patchFlag instance) FULL_PROPS =? 0)))%bool
                then Some (fold_left
                             (fun q k => if hasOwn (l_props l2) k then q
                                         else delete q k)
                             (keys p) p)
                else Some p
            | None => None
            end in
          let attrs' := match l_attrs l2 with Some a => a | None => EMPTY_OBJ end in
          Some (mkInstance (type instance) proxy
                           (patchFlag instance) (shapeFlag instance)
                           (if (negb (Z.land (shapeFlag instance)
                                             FUNCTIONAL_COMPONENT =? 0)
                                && negb hasDeclaredProps)%bool
                            then attrs' else l_props l2)
                           attrs')
      end
      end
      end
  end.

End ResolveProps.

End ComponentProps.

(** ** server-renderer *)

Module Ssr.
Import Js Shared.

(** *** The output buffer (index.ts) *)

(** [ResolvedSSRBuffer = (string | ResolvedSSRBuffer)[]]. *)
Inductive ResolvedItem : Type :=
| RString (s : string)
| RBuffer (items : list ResolvedItem).

(** [SSRBufferItem = string | ResolvedSSRBuffer | Promise<SSRBuffer>]; a
    promise is given with the buffer it resolves to. *)
Inductive SSRBufferItem : Type :=
| ItemString (s : string)
| ItemBuffer (items : list ResolvedItem)
| ItemPromise (id : nat) (resolved : list ResolvedItem).

(** What [createBuffer] closes over. *)
Record Buffer : Type := mkBuffer {
  buffer : list SSRBufferItem;
  appendable : bool;
  hasAsync : bool
}.

Definition createBuffer : Buffer := mkBuffer [] false false.

Definition isString (item : SSRBufferItem) : bool :=
  match item with ItemString _ => true | _ => false end.

Definition isArray (item : SSRBufferItem) : bool :=
  match item with ItemBuffer _ => true | _ => false end.

(** The string conversion of an item; for a nested array, its items
    joined by commas. *)
Fixpoint itemToString (x : ResolvedItem) : string :=
  match x with
  | RString s => s
  | RBuffer b =>
      (fix join (l : list ResolvedItem) : string :=
         match l with
         | [] => EmptyString
         | y :: l' =>
             match l' with
             | [] => itemToString y
             | _ => itemToString y ++ "," ++ join l'
             end
         end) b
  end.

Definition arrayToString (items : list ResolvedItem) : string :=
  itemToString (RBuffer items).

(** [entry += text]. *)
Definition appendTo (text : string) (entry : SSRBufferItem) : SSRBufferItem :=
  match entry with
  | ItemString s => ItemString (s ++ text)
  | ItemBuffer b => ItemString (arrayToString b ++ text)
  | ItemPromise _ _ => ItemString ("[object Promise]" ++ text)
  end.

Fixpoint updateLast {A} (f : A -> A) (l : list A) : list A :=
  match l with
  | [] => []
  | [x] => [f x]
  | x :: l' => x :: updateLast f l'
  end.

Definition push (item : SSRBufferItem) (b : Buffer) : Buffer :=
  let isStringItem := isString item in
  let buffer' :=
    match item with
    | ItemString s =>
        if appendable b then updateLast (appendTo s) (buffer b)
        else (buffer b ++ [item])%list
    | _ => (buffer b ++ [item])%list
    end in
  mkBuffer buffer' isStringItem
           (if (negb isStringItem && negb (isArray item))%bool then true
            else hasAsync b).

(** [unrollBuffer], by the item: a string is itself, a nested buffer is
    unrolled in turn. *)
Fixpoint unrollItem (x : ResolvedItem) : string :=
  match x with
  | RString s => s
  | RBuffer b =>
      (fix each (l : list ResolvedItem) : string :=
         match l with
         | [] => EmptyString
         | y :: l' => unrollItem y ++ each l'
         end) b
  end.

Definition unrollBuffer (items : list ResolvedItem) : string :=
  unrollItem (RBuffer items).

(** The cast [buffer as ResolvedSSRBuffer] of [innerRenderComponent]:
    there is a resolved buffer to speak of when no entry is a promise. *)
Fixpoint asResolved (items : list SSRBufferItem) : option (list ResolvedItem) :=
  match items with
  | [] => Some []
  | ItemString s :: rest => option_map (cons (RString s)) (asResolved rest)
  | ItemBuffer b :: rest => option_map (cons (RBuffer b)) (asResolved rest)
  | ItemPromise _ _ :: _ => None
  end.

(** What [Promise.all(buffer)] resolves to: every promise gives way to
    its value, the other entries stay. *)
Definition promiseAll (items : list SSRBufferItem) : list ResolvedItem :=
  map (fun item =>
         match item with
         | ItemString s => RString s
         | ItemBuffer b => RBuffer b
         | ItemPromise _ resolved => RBuffer resolved
         end) items.

(** The resolved buffer that [renderToString] awaits from
    [innerRenderComponent]: [hasAsync() ? Promise.all(buffer) : buffer]. *)
Definition awaitBuffer (b : Buffer) : option (list ResolvedItem) :=
  if hasAsync b then Some (promiseAll (buffer b)) else asResolved (buffer b).

(** *** The attribute helpers *)

(** The value of an attribute binding; a number is given by its string
    conversion. *)
Inductive AttrValue : Type :=
| AttrNullish
| AttrString (s : string)
| AttrNumber (text : string)
| AttrBoolean (b : bool)
| AttrOther.

Definition isRenderableValue (v : AttrValue) : bool :=
  match v with
  | AttrString _ | AttrNumber _ | AttrBoolean _ => true
  | _ => false
  end.

(** ['' + value], for a renderable value. *)
Definition toStr (v : AttrValue) : string :=
  match v with
  | AttrString s => s
  | AttrNumber text => text
  | AttrBoolean true => "true"
  | AttrBoolean false => "false"
  | _ => EmptyString
  end.

Definition quoted (s : string) : string :=
  String dquote (s ++ String dquote EmptyString).

Definition renderAttr (k : string) (v : AttrValue) : string :=
  if negb (isRenderableValue v) then EmptyString
  else " " ++ k ++ "=" ++ quoted (escapeHtml (toStr v)).

(** [normalizeClass] is the normalization of the descriptor builder. *)
Definition renderClass (raw : VNode.ClassValue) : string :=
  escapeHtml (VNode.normalizeClass raw).

End Ssr.

(** ** reactivity: refs (ref.ts) *)

Module Reactivity.
Import Js.

(** A value that [ref] may be given, or hold: a ref object, by address;
    a reactive wrapper of a plain object or an array, by the address of
    what it wraps, with whether that is a ref (has a property [_isRef]
    that is [true]); or any other value. *)
Inductive Val : Type :=
| Plain (v : value)
| RefObject (r : nat)
| Wrapper (target : nat) (ofRef : bool).

Inductive TrackOpTypes : Type := GET | HAS | ITERATE.
Inductive TriggerOpTypes : Type := SET | ADD | DELETE | CLEAR.

(** The calls made to [track] and [trigger] of effect.ts, in order; the
    target is a ref of the store or, for [TrackObject], the object behind
    a reactive wrapper. *)
Inductive Event : Type :=
| Track (target : nat) (op : TrackOpTypes) (k : string)
| Trigger (target : nat) (op : TriggerOpTypes) (k : string)
          (extraInfo : option Val)
| TrackObject (target : nat) (op : TrackOpTypes) (k : string).

(** The store: for each ref object, the [raw] variable its accessors
    close over; and the calls seen so far. *)
Record State : Type := mkState {
  refs : list Val;
  log : list Event
}.

(** Modelled from the spec: the get-trap of a reactive wrapper, here for
    the key [_isRef]: it calls [track] with the wrapped object, the
    operation [GET] and the key, and gives the property of the wrapped
    object. *)
Definition wrapperGetIsRef (target : nat) (ofRef : bool) (st : State)
  : State * bool :=
  (mkState (refs st) (log st ++ [TrackObject target GET "_isRef"])%list, ofRef).

(** [isRef(r)]: [r ? r._isRef === true : false].  The property is read
    off a ref object and off any other value directly; off a reactive
    wrapper the read goes through the get-trap. *)
Definition isRef (r : Val) (st : State) : State * bool :=
  match r with
  | Plain _ => (st, false)
  | RefObject _ => (st, true)
  | Wrapper target ofRef => wrapperGetIsRef target ofRef st
  end.

Definition isObject (v : Val) : bool :=
  match v with
  | Plain (VObject _) => true
  | Plain (VFunction _ _) => false
  | RefObject _ => true
  | Wrapper _ _ => true
  | _ => false
  end.

Fixpoint replaceAt {A} (n : nat) (x : A) (l : list A) : list A :=
  match l, n with
  | [], _ => []
  | _ :: l', O => x :: l'
  | y :: l', S n' => y :: replaceAt n' x l'
  end.

Section Ref.

Variable DEV : bool.
(** [reactive] of reactive.ts. *)
Variable reactive : Val -> Val.

Definition convert (val : Val) : Val :=
  if isObject val then reactive val else val.

(** [ref(raw)]: the state after the call and the ref returned, which is
    [raw] itself when [isRef] holds of it, and a new ref otherwise. *)
Definition ref (raw : Val) (st : State) : State * Val :=
  let (st1, rawIsRef) := isRef raw st in
  if rawIsRef then (st1, raw)
  else (mkState (refs st1 ++ [convert raw])%list (log st1),
        RefObject (List.length (refs st1))).

(** [r.value]: [None] when [r] names no ref. *)
Definition getValue (r : nat) (st : State) : option (State * Val) :=
  match nth_error (refs st) r with
  | Some raw =>
      Some (mkState (refs st) (log st ++ [Track r GET "value"])%list, raw)
  | None => None
  end.

(** [r.value = newVal]. *)
Definition setValue (r : nat) (newVal : Val) (st : State) : option State :=
  match nth_error (refs st) r with
  | Some _ =>
      Some (mkState (replaceAt r (convert newVal) (refs st))
                    (log st ++ [Trigger r SET "value"
                                        (if DEV then Some newVal else None)])%list)
  | None => None
  end.

End Ref.

End Reactivity.

(** ** compiler-sfc: script compilation (compileScript.ts) *)

Module CompileScript.
Import Js.

(** [BindingTypes] of @vue/compiler-core. *)
Inductive BindingTypes : Type := DATA | PROPS | SETUP | CONST | OPTIONS.

Definition BindingMetadata : Type := obj BindingTypes.

(** *** The Babel syntax tree, as far as the analysis looks into it *)

Inductive Expression : Type :=
| Identifier (name : string)
| CallExpression (callee : Expression) (arguments : list Expression)
| MemberExpression (object property : Expression)
| StringLiteral (val : string)
| NumericLiteral (raw : string)
| ObjectExpression (properties : list ObjectMember)
| ArrayExpression (elements : list (option Expression))
| OtherExpression (type : string)
with ObjectMember : Type :=
| ObjectProperty (computed : bool) (key value : Expression)
| ObjectMethod (computed : bool) (key : Expression) (body : list BodyStatement)
| SpreadElement (argument : Expression)
with BodyStatement : Type :=
| ReturnStatement (argument : option Expression)
| OtherBodyStatement (type : string).

Inductive Pattern : Type :=
| PIdentifier (name : string)
| ObjectPattern (properties : list PatternProperty)
| ArrayPattern (elements : list (option Pattern))
| RestElement (argument : Pattern)
| AssignmentPattern (left : Pattern) (right : Expression)
| OtherPattern (type : string)
with PatternProperty : Type :=
| PatternObjectProperty (key : Expression) (value : Pattern) (sameNode : bool)
    (* [sameNode]: whether [p.key === p.value] *)
| PatternRest (argument : Pattern).

Inductive Kind : Type := KVar | KLet | KConst.

Record VariableDeclarator : Type := mkDeclarator {
  id : Pattern;
  init : option Expression
}.

Inductive Declaration : Type :=
| VariableDeclaration (kind : Kind) (declarations : list VariableDeclarator)
| FunctionDeclaration (name : option string)
| ClassDeclaration (name : option string)
| OtherDeclaration (type : string).

Inductive Statement : Type :=
| DeclarationStatement (d : Declaration)
| ExportDefaultDeclaration (declaration : Expression)
| ExportDefaultOther (type : string)
| OtherStatement (type : string).

Definition DEFINE_OPTIONS : string := "defineOptions".

(** *** walkDeclaration and the pattern walkers *)

(** [(p.argument as Identifier).name]: [undefined], as a property key,
    when the argument is no identifier. *)
Definition nameOf (p : Pattern) : string :=
  match p with PIdentifier n => n | _ => "undefined" end.

Definition constIf (b : bool) : BindingTypes := if b then CONST else SETUP.

Fixpoint walkPattern (node : Pattern) (bindings : BindingMetadata)
    (isConst isUseOptionsCall : bool) {struct node} : BindingMetadata :=
  match node with
  | PIdentifier name => set bindings name (constIf isUseOptionsCall)
  | RestElement argument => set bindings (nameOf argument) (constIf isConst)
  | ObjectPattern properties =>
      (* walkObjectPattern(node, bindings, isConst) *)
      (fix each (ps : list PatternProperty) (b : BindingMetadata)
         : BindingMetadata :=
         match ps with
         | [] => b
         | PatternObjectProperty k v sameNode :: ps' =>
             match k with
             | Identifier kname =>
                 if sameNode then each ps' (set b kname (constIf false))
                 else each ps' (walkPattern v b isConst false)
             | _ => each ps' b
             end
         | PatternRest argument :: ps' =>
             each ps' (set b (nameOf argument) (constIf isConst))
         end) properties bindings
  | ArrayPattern elements =>
      (* walkArrayPattern(node, bindings, isConst) *)
      (fix each (es : list (option Pattern)) (b : BindingMetadata)
         : BindingMetadata :=
         match es with
         | [] => b
         | Some e :: es' => each es' (walkPattern e b isConst false)
         | None :: es' => each es' b
         end) elements bindings
  | AssignmentPattern lhs _ =>
      match lhs with
      | PIdentifier name => set bindings name (constIf isUseOptionsCall)
      | _ => walkPattern lhs bindings isConst false
      end
  | OtherPattern _ => bindings
  end.

Fixpoint walkObjectPattern (properties : list PatternProperty)
    (bindings : BindingMetadata) (isConst isUseOptionsCall : bool)
  : BindingMetadata :=
  match properties with
  | [] => bindings
  | PatternObjectProperty k v sameNode :: ps' =>
      match k with
      | Identifier kname =>
          if sameNode
          then walkObjectPattern ps' (set bindings kname (constIf isUseOptionsCall))
                                 isConst isUseOptionsCall
          else walkObjectPattern ps' (walkPattern v bindings isConst isUseOptionsCall)
                                 isConst isUseOptionsCall
      | _ => walkObjectPattern ps' bindings isConst isUseOptionsCall
      end
  | PatternRest argument :: ps' =>
      walkObjectPattern ps' (set bindings (nameOf argument) (constIf isConst))
                        isConst isUseOptionsCall
  end.

Fixpoint walkArrayPattern (elements : list (option Pattern))
    (bindings : BindingMetadata) (isConst isUseOptionsCall : bool)
  : BindingMetadata :=
  match elements with
  | [] => bindings
  | Some e :: es' =>
      walkArrayPattern es' (walkPattern e bindings isConst isUseOptionsCall)
                       isConst isUseOptionsCall
  | None :: es' => walkArrayPattern es' bindings isConst isUseOptionsCall
  end.

Definition isCallOf (name : string) (e : Expression) : bool :=
  match e with
  | CallExpression (Identifier n) _ => String.eqb n name
  | _ => false
  end.

(** [init.type] is none of [Identifier], [CallExpression],
    [MemberExpression]. *)
Definition isLiteralShape (e : Expression) : bool :=
  match e with
  | Identifier _ | CallExpression _ _ | MemberExpression _ _ => false
  | _ => true
  end.

(** One round of the loop over [node.declarations]; [None] is the
    [TypeError] of reading [type] of an absent initializer. *)
Definition walkDeclarator (isConst : bool) (bindings : option BindingMetadata)
    (d : VariableDeclarator) : option BindingMetadata :=
  match bindings with
  | None => None
  | Some b =>
      let isUseOptionsCall :=
        (isConst && match init d with
                    | Some e => isCallOf DEFINE_OPTIONS e
                    | None => false
                    end)%bool in
      match id d with
      | PIdentifier name =>
          if isUseOptionsCall then Some (set b name CONST)
          else if isConst then
            match init d with
            | Some e => Some (set b name (constIf (isLiteralShape e)))
            | None => None
            end
          else Some (set b name SETUP)
      | ObjectPattern properties =>
          Some (walkObjectPattern properties b isConst isUseOptionsCall)
      | ArrayPattern elements =>
          Some (walkArrayPattern elements b isConst isUseOptionsCall)
      | _ => Some b
      end
  end.

Definition walkDeclaration (node : Declaration) (bindings : BindingMetadata)
  : option BindingMetadata :=
  match node with
  | VariableDeclaration kind declarations =>
      let isConst := match kind with KConst => true | _ => false end in
      fold_left (walkDeclarator isConst) declarations (Some bindings)
  | FunctionDeclaration name | ClassDeclaration name =>
      match name with
      | Some n => Some (set bindings n CONST)
      | None => None
      end
  | OtherDeclaration _ => Some bindings
  end.

(** *** Bindings of a plain script block *)

Definition getObjectExpressionKeys (properties : list ObjectMember)
  : list string :=
  flat_map
    (fun prop =>
       match prop with
       | ObjectProperty false (Identifier name) _
       | ObjectMethod false (Identifier name) _ => [name]
       | ObjectProperty false (StringLiteral v) _
       | ObjectMethod false (StringLiteral v) _ => [v]
       | _ => []
       end) properties.

Definition getArrayExpressionKeys (elements : list (option Expression))
  : list string :=
  flat_map
    (fun element =>
       match element with
       | Some (StringLiteral v) => [v]
       | _ => []
       end) elements.

Definition getObjectOrArrayExpressionKeys (value : Expression) : list string :=
  match value with
  | ArrayExpression elements => getArrayExpressionKeys elements
  | ObjectExpression properties => getObjectExpressionKeys properties
  | _ => []
  end.

(** [for (const key of names) bindings[key] = ty]; a binding type is a
    string, so that the assignment under the name [__proto__] does
    nothing. *)
Definition setAll (ty : BindingTypes) (names : list string)
    (bindings : BindingMetadata) : BindingMetadata :=
  fold_left (fun b k => assign b k ty) names bindings.

Definition analyzeProperty (bindings : BindingMetadata) (property : ObjectMember)
  : BindingMetadata :=
  match property with
  | ObjectProperty false (Identifier name) value =>
      if String.eqb name "props"
      then setAll PROPS (getObjectOrArrayExpressionKeys value) bindings
      else if String.eqb name "inject"
      then setAll OPTIONS (getObjectOrArrayExpressionKeys value) bindings
      else match value with
           | ObjectExpression properties =>
               if (String.eqb name "computed" || String.eqb name "methods")%bool
               then setAll OPTIONS (getObjectExpressionKeys properties) bindings
               else bindings
           | _ => bindings
           end
  | ObjectMethod _ (Identifier name) body =>
      if (String.eqb name "setup" || String.eqb name "data")%bool
      then fold_left
             (fun b bodyItem =>
                match bodyItem with
                | ReturnStatement (Some (ObjectExpression properties)) =>
                    setAll (if String.eqb name "setup" then SETUP else DATA)
                           (getObjectExpressionKeys properties) b
                | _ => b
                end) body bindings
      else bindings
  | _ => bindings
  end.

Definition analyzeBindingsFromOptions (properties : list ObjectMember)
  : BindingMetadata :=
  fold_left analyzeProperty properties [].

Fixpoint analyzeScriptBindings (ast : list Statement) : BindingMetadata :=
  match ast with
  | [] => []
  | ExportDefaultDeclaration (ObjectExpression properties) :: _ =>
      analyzeBindingsFromOptions properties
  | _ :: rest => analyzeScriptBindings rest
  end.

(** *** compileScript *)

Inductive AttrValue : Type := AttrTrue | AttrText (s : string).

Record SFCStyleBlock : Type := mkStyle {
  style_content : string;
  style_attrs : obj AttrValue
}.

Record SFCScriptBlock : Type := mkScript {
  content : string;
  lang : option string;
  attrs : obj AttrValue;
  bindings : option BindingMetadata;
  scriptAst : option (list Statement)
}.

Record SFCDescriptor : Type := mkDescriptor {
  filename : string;
  source : string;
  script : option SFCScriptBlock;
  scriptSetup : option SFCScriptBlock;
  styles : list SFCStyleBlock
}.

Record SFCScriptCompileOptions : Type := mkOptions {
  babelParserPlugins : option (list string);
  refSugar : option bool;
  inlineTemplate : option bool
}.

(** A call returns or throws. *)
Inductive result (A : Type) : Type :=
| Return (a : A)
| Throw (message : string).
Arguments Return {A} a.
Arguments Throw {A} message.

(** [lang && lang !== 'ts']. *)
Definition isForeignLang (l : option string) : bool :=
  match l with
  | Some s => (negb (String.eqb s EmptyString) && negb (String.eqb s "ts"))%bool
  | None => false
  end.

Definition isLang (l : option string) (s : string) : bool :=
  match l with Some t => String.eqb t s | None => false end.

Section Compile.

(** [babelParserDefaultPlugins] of @vue/shared. *)
Variable babelParserDefaultPlugins : list string.
(** [parse] of @babel/parser, reduced to [.program.body]; [None] when it
    throws. *)
Variable _parse : string -> list string -> option (list Statement).
(** [injectCssVarsCalls] of ./genCssVars; [None] when it throws. *)
Variable injectCssVarsCalls : SFCDescriptor -> list string -> option string.
(** The rest of [compileScript], which handles a [<script setup>] block. *)
Variable compileSetup :
  SFCDescriptor -> SFCScriptCompileOptions -> result SFCScriptBlock.

Definition parserPlugins (sfc : SFCDescriptor)
    (options : SFCScriptCompileOptions) : list string :=
  let scriptLang := match script sfc with Some s => lang s | None => None end in
  let scriptSetupLang :=
    match scriptSetup sfc with Some s => lang s | None => None end in
  let isTS := (isLang scriptLang "ts" || isLang scriptSetupLang "ts")%bool in
  ((babelParserDefaultPlugins ++ ["jsx"])
   ++ match babelParserPlugins options with Some ps => ps | None => [] end
   ++ (if isTS then ["typescript"; "decorators-legacy"] else []))%list.

Definition hasCssVars (sfc : SFCDescriptor) : bool :=
  existsb (fun s => match get (style_attrs s) "vars" with
                    | Some (AttrText _) => true
                    | _ => false
                    end) (styles sfc).

Definition compileScript (sfc : SFCDescriptor)
    (options : SFCScriptCompileOptions) : result SFCScriptBlock :=
  let plugins := parserPlugins sfc options in
  match scriptSetup sfc with
  | None =>
      match script sfc with
      | None => Throw "[@vue/compiler-sfc] SFC contains no <script> tags."
      | Some s =>
          if isForeignLang (lang s) then Return s
          else
            (* try { ... } catch (e) { return script } *)
            match _parse (content s) plugins with
            | Some ast =>
                match (if hasCssVars sfc then injectCssVarsCalls sfc plugins
                       else Some (content s)) with
                | Some text =>
                    Return (mkScript text (lang s) (attrs s)
                                     (Some (analyzeScriptBindings ast))
                                     (Some ast))
                | None => Return s
                end
            | None => Return s
            end
      end
  | Some _ => compileSetup sfc options
  end.

End Compile.

End CompileScript.

(** ** compiler-core: utilities (utils.ts) *)

Module CompilerUtils.
Import Js.

(** [[$\w]]. *)
Definition isIdentifierChar (c : ascii) : bool :=
  (isWordChar c || Ascii.eqb c "$")%bool.

Definition isDigit (c : ascii) : bool := between 48 57 c.

(** [[A-Za-z_$]]. *)
Definition isIdentifierStart (c : ascii) : bool :=
  (isUpperAZ c || isLowerAZ c || Ascii.eqb c "_" || Ascii.eqb c "$")%bool.

Fixpoint hasNonIdentifierChar (s : string) : bool :=
  match s with
  | EmptyString => false
  | String c s' => (negb (isIdentifierChar c) || hasNonIdentifierChar s')%bool
  end.

(** [nonIdentifierRE.test(name)] with [nonIdentifierRE = /^\d|[^\$\w]/]:
    a digit at the start, or anywhere a character that is neither a word
    character nor a dollar sign. *)
Definition nonIdentifierRE (name : string) : bool :=
  (match name with
   | String c _ => isDigit c
   | EmptyString => false
   end
   || hasNonIdentifierChar name)%bool.

Definition isSimpleIdentifier (name : string) : bool :=
  negb (nonIdentifierRE name).

(** [memberExpRE], anchored at both ends: an identifier, then any number
    of [.identifier] or [[...]] with a non-empty content free of closing
    brackets.  No repetition of the expression can give back characters
    to the next one, so the match is that of the automaton with the
    states below. *)
Inductive MemberState : Type :=
| AtStart        (* nothing read *)
| InIdentifier   (* inside an identifier: accepting *)
| AfterDot       (* a dot read: an identifier must start *)
| AfterOpen      (* an opening bracket read: one character is due *)
| InBrackets     (* inside brackets, one character or more read *)
| AfterClose.    (* a closing bracket read: accepting *)

Definition memberStep (st : MemberState) (c : ascii) : option MemberState :=
  match st with
  | AtStart | AfterDot =>
      if isIdentifierStart c then Some InIdentifier else None
  | InIdentifier =>
      if isIdentifierChar c then Some InIdentifier
      else if Ascii.eqb c "." then Some AfterDot
      else if Ascii.eqb c "[" then Some AfterOpen
      else None
  | AfterOpen =>
      if Ascii.eqb c "]" then None else Some InBrackets
  | InBrackets =>
      if Ascii.eqb c "]" then Some AfterClose else Some InBrackets
  | AfterClose =>
      if Ascii.eqb c "." then Some AfterDot
      else if Ascii.eqb c "[" then Some AfterOpen
      else None
  end.

Fixpoint memberRun (st : MemberState) (s : string) : bool :=
  match s with
  | EmptyString =>
      match st with
      | InIdentifier | AfterClose => true
      | _ => false
      end
  | String c s' =>
      match memberStep st c with
      | Some st' => memberRun st' s'
      | None => false
      end
  end.

Definition isMemberExpression (path : string) : bool := memberRun AtStart path.

(** [name.replace(/[^\w]/g, '_')]. *)
Fixpoint replaceNonWord (s : string) : string :=
  match s with
  | EmptyString => EmptyString
  | String c s' => String (if isWordChar c then c else "_"%char) (replaceNonWord s')
  end.

Inductive AssetType : Type := component | directive.

Definition assetTypeName (ty : AssetType) : string :=
  match ty with component => "component" | directive => "directive" end.

Definition toValidAssetId (name : string) (ty : AssetType) : string :=
  "_" ++ assetTypeName ty ++ "_" ++ replaceNonWord name.

End CompilerUtils.

(** ** runtime-core: blocks and styles (vnode.ts) *)

Module VNodeBlocks.
Import Js VNode.

(** [openBlock(disableTracking)]. *)
Definition openBlock (disableTracking : bool) (st : State) : State :=
  mkState (heap st)
          (blockStack st ++ [if disableTracking then None else Some []])%list
          (shouldTrack st).

Definition setShouldTrack (b : bool) (st : State) : State :=
  mkState (heap st) (blockStack st) b.

Fixpoint replaceAt {A} (n : nat) (x : A) (l : list A) : list A :=
  match l, n with
  | [], _ => []
  | _ :: l', O => x :: l'
  | y :: l', S n' => y :: replaceAt n' x l'
  end.

(** [vnode.dynamicChildren = nodes], on the object at [r]. *)
Definition setDynamicChildren (r : vref) (nodes : list vref) (st : State)
  : State :=
  match deref st r with
  | Some v =>
      mkState
        (replaceAt r
           (mkVNode (type v) (props v) (key v) (ref v) (children v)
                    (component v) (suspense v) (el v) (anchor v) (target v)
                    (shapeFlag v) (patchFlag v) (dynamicProps v)
                    (Some nodes) (appContext v))
           (heap st))
        (blockStack st) (shouldTrack st)
  | None => st
  end.

Section Blocks.

Variables ELEMENT FUNCTIONAL_COMPONENT STATEFUL_COMPONENT : Z.
Variables TEXT_CHILDREN ARRAY_CHILDREN SLOTS_CHILDREN : Z.

(** [createBlock(type, null, children, patchFlag, dynamicProps)]: as for
    [createVNode], the props are [null].  An empty or absent list of
    tracked nodes gives [EMPTY_ARR]. *)
Definition createBlock (ty : VNodeTypes) (children : RawChildren)
    (patch : Z) (dynProps : option (list string)) (st : State)
  : State * vref :=
  let (st1, r) :=
    createVNode ELEMENT FUNCTIONAL_COMPONENT STATEFUL_COMPONENT
                TEXT_CHILDREN ARRAY_CHILDREN SLOTS_CHILDREN
                ty children patch dynProps (setShouldTrack false st) in
  let st2 := setShouldTrack true st1 in
  let trackedNodes := List.last (map Some (blockStack st2)) None in
  let st3 := mkState (heap st2) (removelast (blockStack st2)) (shouldTrack st2) in
  let st4 :=
    setDynamicChildren r
      match trackedNodes with
      | Some (Some nodes) => nodes
      | _ => []
      end st3 in
  (trackDynamicNode r st4, r).

End Blocks.

(** [normalizeStyle]: what a [style] binding may hold. *)
Inductive StyleValue : Type :=
| StyleArray (items : list StyleValue)
| StyleObject (entries : obj value)
| StyleOther.

(** [for (const key in normalized) res[key] = normalized[key]]. *)
Definition assignAll (res normalized : obj value) : obj value :=
  fold_left
    (fun r key =>
       match get normalized key with
       | Some v => set r key v
       | None => r
       end)
    (keys normalized) res.

(** [None] is the [undefined] returned for what is neither an array nor
    an object. *)
Fixpoint normalizeStyle (v : StyleValue) : option (obj value) :=
  match v with
  | StyleArray items =>
      Some ((fix each (l : list StyleValue) (res : obj value) : obj value :=
               match l with
               | [] => res
               | x :: l' =>
                   match normalizeStyle x with
                   | Some normalized => each l' (assignAll res normalized)
                   | None => each l' res
                   end
               end) items [])
  | StyleObject entries => Some entries
  | StyleOther => None
  end.

End VNodeBlocks.

(** ** compiler-ssr: the codegen transform (ssrCodegenTransform.ts) *)

Module SsrCodegen.
Import Js.

(** A JavaScript expression node of the template AST, and the callee of
    a call (a string or a helper symbol): both are only passed on. *)
Definition JSChildNode : Type := nat.

Inductive Callee : Type :=
| CalleeName (name : string)
| CalleeHelper (helper : nat).

(** [TemplateLiteral['elements'][0]]: a string or an expression; the
    only expression the transform builds itself is a call. *)
Inductive Part : Type :=
| PString (s : string)
| PCall (callee : Callee) (args : list JSChildNode)
| PNode (e : JSChildNode).

(** A template literal and a call expression, as far as the transform
    reads and writes them: the elements of the one, the callee and the
    arguments of the other (here template literals only). *)
Record TemplateLiteral : Type := mkTemplateLiteral {
  elements : list Part
}.

Record CallExpression : Type := mkCallExpression {
  callee : Callee;
  arguments : list TemplateLiteral
}.

Definition createCallExpression (c : Callee) : CallExpression :=
  mkCallExpression c [].

Definition createTemplateLiteral (l : list Part) : TemplateLiteral :=
  mkTemplateLiteral l.

(** What [createSSRTransformContext] closes over: [body], and the two
    variables [currentCall] and [currentString], which name an entry of
    [body] and an argument of that call: they are kept as the index of
    the entry and the index of the argument. *)
Record SSRTransformContext : Type := mkContext {
  body : list CallExpression;
  currentCall : option nat;
  currentString : option nat
}.

Definition createSSRTransformContext : SSRTransformContext :=
  mkContext [] None None.

Fixpoint updateAt {A} (n : nat) (f : A -> A) (l : list A) : list A :=
  match l, n with
  | [], _ => []
  | x :: l', O => f x :: l'
  | x :: l', S n' => x :: updateAt n' f l'
  end.

Definition isString (p : Part) : bool :=
  match p with PString _ => true | _ => false end.

(** The last statements of [pushStringPart], on the elements of the
    current string. *)
Definition bufferPart (part : Part) (bufferedElements : list Part)
  : list Part :=
  match part, List.last (map Some bufferedElements) None with
  | PString s, Some (PString lastItem) =>
      (removelast bufferedElements ++ [PString (lastItem ++ s)])%list
  | _, _ => (bufferedElements ++ [part])%list
  end.

Definition pushStringPart (part : Part) (ctx : SSRTransformContext)
  : SSRTransformContext :=
  let ctx1 :=
    match currentCall ctx with
    | Some _ => ctx
    | None =>
        mkContext (body ctx ++ [createCallExpression (CalleeName "_push")])
                  (Some (List.length (body ctx))) (currentString ctx)
    end in
  let call := match currentCall ctx1 with Some i => i | None => O end in
  let ctx2 :=
    match currentString ctx1 with
    | Some _ => ctx1
    | None =>
        mkContext
          (updateAt call
             (fun c => mkCallExpression (callee c)
                         (arguments c ++ [createTemplateLiteral []]))
             (body ctx1))
          (currentCall ctx1)
          (Some (match nth_error (body ctx1) call with
                 | Some c => List.length (arguments c)
                 | None => O
                 end))
    end in
  let str := match currentString ctx2 with Some j => j | None => O end in
  mkContext
    (updateAt call
       (fun c => mkCallExpression (callee c)
                   (updateAt str
                      (fun t => mkTemplateLiteral (bufferPart part (elements t)))
                      (arguments c)))
       (body ctx2))
    (currentCall ctx2) (currentString ctx2).

Inductive ElementTypes : Type := ELEMENT | COMPONENT | SLOT | TEMPLATE.

(** The children of the template AST; of the node types that
    [processChildren] does nothing for, only that they are such. *)
Inductive TemplateChildNode : Type :=
| ElementNode (tagType : ElementTypes) (tag : string)
              (ssrCodegenNode : option TemplateLiteral)
              (children : list TemplateChildNode)
| TextNode (content : string)
| InterpolationNode (content : JSChildNode)
| IfNode
| ForNode
| CommentNode.

Section Transform.

(** [escapeHtml] of @vue/shared, the helper name [INTERPOLATE] of
    runtimeHelpers.ts, [isText] of the compiler and the option
    [isVoidTag] (absent: [NO], which is false of every tag). *)
Variable escapeHtml : string -> string.
Variable INTERPOLATE : Callee.
Variable isText : TemplateChildNode -> bool.
Variable options_isVoidTag : option (string -> bool).

Definition isVoidTag (tag : string) : bool :=
  match options_isVoidTag with
  | Some f => f tag
  | None => false
  end.

(** [processChildren]; [None] is the [TypeError] of reading [elements]
    of an absent [ssrCodegenNode]. *)
Fixpoint processChild (child : TemplateChildNode)
    (context : SSRTransformContext) : option SSRTransformContext :=
  match child with
  | ElementNode ELEMENT tag node children =>
      match node with
      | None => None
      | Some literal =>
          let context1 :=
            fold_left (fun c part => pushStringPart part c)
                      (elements literal) context in
          match
            (fix each (l : list TemplateChildNode)
                 (c : option SSRTransformContext)
               : option SSRTransformContext :=
               match l with
               | [] => c
               | x :: l' =>
                   match c with
                   | Some c' => each l' (processChild x c')
                   | None => None
                   end
               end) children (Some context1)
          with
          | Some context2 =>
              if negb (isVoidTag tag)
              then Some (pushStringPart (PString ("</" ++ tag ++ ">"))
                                        context2)
              else Some context2
          | None => None
          end
      end
  | ElementNode _ _ _ _ => Some context
  | TextNode content =>
      Some (pushStringPart (PString (escapeHtml content)) context)
  | InterpolationNode content =>
      Some (pushStringPart (PCall INTERPOLATE [content]) context)
  | IfNode | ForNode | CommentNode => Some context
  end.

Fixpoint processChildren (children : list TemplateChildNode)
    (context : option SSRTransformContext) : option SSRTransformContext :=
  match children with
  | [] => context
  | child :: rest =>
      match context with
      | Some c => processChildren rest (processChild child c)
      | None => None
      end
  end.

(** [ssrCodegenTransform]: the statements of the block statement that
    becomes [ast.codegenNode]. *)
Definition ssrCodegenTransform (ast_children : list TemplateChildNode)
  : option (list CallExpression) :=
  let context := createSSRTransformContext in
  let isFragment :=
    ((1 <? Z.of_nat (List.length ast_children))
     && negb (forallb isText ast_children))%bool in
  let context1 :=
    if isFragment then pushStringPart (PString "<!---->") context
    else context in
  match processChildren ast_children (Some context1) with
  | Some context2 =>
      Some (body (if isFragment
                  then pushStringPart (PString "<!---->") context2
                  else context2))
  | None => None
  end.

End Transform.

End SsrCodegen.

(** ** compiler-sfc: runtime types of props (compileScript.ts) *)

Module RuntimeTypes.
Import Js.

Inductive LiteralType : Type :=
| StringLiteral | BooleanLiteral | NumericLiteral | BigIntLiteral
| OtherLiteral.

(** [node.typeName] of a type reference: an identifier, or a qualified
    name. *)
Inductive TypeName : Type :=
| TNIdentifier (name : string)
| TNQualified.

Inductive TSType : Type :=
| TSStringKeyword | TSNumberKeyword | TSBooleanKeyword | TSObjectKeyword
| TSTypeLiteral | TSFunctionType | TSArrayType | TSTupleType
| TSLiteralType (literal : LiteralType)
| TSTypeReference (typeName : TypeName)
| TSUnionType (types : list TSType)
| TSIntersectionType
| TSOtherType.

(** What the inference hands around: a string, an array made by the
    call at hand, or an object that was there before (what
    [declaredTypes] holds under a name), known by its address. *)
Inductive Item : Type :=
| IString (s : string)
| IArray (items : list Item)
| IRef (addr : nat).

(** [[...new Set(items)]]: an entry stays unless the same value came
    before; two strings are the same when equal, two objects when they
    are one object, which an array made by the call at hand never is
    with another entry. *)
Definition sameValue (x y : Item) : bool :=
  match x, y with
  | IString s, IString t => String.eqb s t
  | IRef a, IRef b => Nat.eqb a b
  | _, _ => false
  end.

Fixpoint uniqueFrom (seen items : list Item) : list Item :=
  match items with
  | [] => []
  | x :: items' =>
      if existsb (sameValue x) seen then uniqueFrom seen items'
      else x :: uniqueFrom (x :: seen) items'
  end.

Definition unique (items : list Item) : list Item := uniqueFrom [] items.

Definition builtinReference (name : string) : option string :=
  if existsb (String.eqb name)
       ["Array"; "Function"; "Object"; "Set"; "Map"; "WeakSet"; "WeakMap"]
  then Some name
  else if existsb (String.eqb name)
            ["Record"; "Partial"; "Readonly"; "Pick"; "Omit"; "Exclude";
             "Extract"; "Required"; "InstanceType"]
  then Some "Object"
  else None.

Section Infer.

(** [declaredTypes[name]], when it is truthy: the object found under
    the name, by its address. *)
Variable declaredTypes : string -> option nat.

(** [inferRuntimeType].  For a union the arrays inferred for the
    members are the entries of the result: [[].concat] spreads the
    array of the results, not the results. *)
Fixpoint inferRuntimeType (node : TSType) : Item :=
  match node with
  | TSStringKeyword => IArray [IString "String"]
  | TSNumberKeyword => IArray [IString "Number"]
  | TSBooleanKeyword => IArray [IString "Boolean"]
  | TSObjectKeyword => IArray [IString "Object"]
  | TSTypeLiteral => IArray [IString "Object"]
  | TSFunctionType => IArray [IString "Function"]
  | TSArrayType | TSTupleType => IArray [IString "Array"]
  | TSLiteralType literal =>
      match literal with
      | StringLiteral => IArray [IString "String"]
      | BooleanLiteral => IArray [IString "Boolean"]
      | NumericLiteral | BigIntLiteral => IArray [IString "Number"]
      | OtherLiteral => IArray [IString "null"]
      end
  | TSTypeReference typeName =>
      match typeName with
      | TNIdentifier name =>
          match declaredTypes name with
          | Some addr => IRef addr
          | None =>
              match builtinReference name with
              | Some ty => IArray [IString ty]
              | None => IArray [IString "null"]
              end
          end
      | TNQualified => IArray [IString "null"]
      end
  | TSUnionType types =>
      IArray (unique (map inferRuntimeType types))
  | TSIntersectionType => IArray [IString "Object"]
  | TSOtherType => IArray [IString "null"]
  end.

(** The elements of an object that was there before, when it is an
    array, and the string it converts to. *)
Variable elementsAt : nat -> option (list Item).
Variable textAt : nat -> string.

Fixpoint join (separator : string) (texts : list string) : string :=
  match texts with
  | [] => EmptyString
  | [t] => t
  | t :: texts' => t ++ separator ++ join separator texts'
  end.

(** The string an entry converts to: an array, to its entries joined
    by commas. *)
Fixpoint toString (x : Item) : string :=
  match x with
  | IString s => s
  | IArray items => join "," (map toString items)
  | IRef addr => textAt addr
  end.

Definition isNullName (x : Item) : bool :=
  match x with IString s => String.eqb s "null" | _ => false end.

(** [toRuntimeTypeString(types)]: the outer [None] is the [TypeError] of
    calling [some] on what is no array, the inner one the [undefined]
    that [types[0]] is for an empty array. *)
Definition toRuntimeTypeString (types : Item) : option (option Item) :=
  let elements :=
    match types with
    | IArray items => Some items
    | IRef addr => elementsAt addr
    | IString _ => None
    end in
  match elements with
  | None => None
  | Some items =>
      Some (if existsb isNullName items then Some (IString "null")
            else if (1 <? Z.of_nat (List.length items))
            then Some (IString ("[" ++ join ", " (map toString items) ++ "]"))
            else match items with
                 | x :: _ => Some x
                 | [] => None
                 end)
  end.

(** The text [type: ${toRuntimeTypeString(type)}] of [genRuntimeProps]
    puts into the generated code, after [type: ]. *)
Definition runtimeTypeText (types : Item) : option string :=
  match toRuntimeTypeString types with
  | Some (Some x) => Some (toString x)
  | Some None => Some "undefined"
  | None => None
  end.

End Infer.

End RuntimeTypes.

(** ** runtime-core: the render proxy (componentProxy.ts) *)

Module ComponentProxy.
Import Js.

(** The instance, as far as the two traps read and write it.  Its
    objects are taken as plain objects, which give back under a key
    what was written under it.  [data] is [None] when it is the shared
    [EMPTY_OBJ]; [propsProxy] may be [null], and is known by what
    reading a key from it gives (it is a proxy of its own, which
    unwraps refs). *)
Record ComponentInstance : Type := mkInstance {
  renderContext : obj value;
  data : option (obj value);
  props : obj value;
  propsProxy : option (string -> value);
  user : obj value
}.

(** The members of the instance that [get] hands out as they are. *)
Inductive Member : Type :=
| MData | MPropsProxy | MAttrs | MSlots | MRefs | MParent | MRoot | MEmit
| MEl | MType | MUpdate | MNextTick | MWatch.

(** What [get] returns: the value of a property, a member of the
    instance, or what a plain object inherits under the key. *)
Inductive Got : Type :=
| GotValue (v : value)
| GotMember (m : Member)
| GotInherited (key : string).

(** The names every plain object inherits from [Object.prototype]. *)
Definition objectPrototypeKeys : list string :=
  ["constructor"; "__defineGetter__"; "__defineSetter__"; "hasOwnProperty";
   "__lookupGetter__"; "__lookupSetter__"; "isPrototypeOf";
   "propertyIsEnumerable"; "toString"; "valueOf"; "__proto__";
   "toLocaleString"].

Definition isInherited (key : string) : bool :=
  existsb (String.eqb key) objectPrototypeKeys.

(** [key in o], for a plain object. *)
Definition inObject (o : obj value) (key : string) : bool :=
  (hasOwn o key || isInherited key)%bool.

(** [o[key]], for a plain object. *)
Definition read (o : obj value) (key : string) : Got :=
  match get o key with
  | Some v => GotValue v
  | None => if isInherited key then GotInherited key else GotValue VUndefined
  end.

Definition publicMember (key : string) : option Member :=
  if String.eqb key "$data" then Some MData
  else if String.eqb key "$props" then Some MPropsProxy
  else if String.eqb key "$attrs" then Some MAttrs
  else if String.eqb key "$slots" then Some MSlots
  else if String.eqb key "$refs" then Some MRefs
  else if String.eqb key "$parent" then Some MParent
  else if String.eqb key "$root" then Some MRoot
  else if String.eqb key "$emit" then Some MEmit
  else if String.eqb key "$el" then Some MEl
  else if String.eqb key "$options" then Some MType
  else None.

Definition optionsMember (key : string) : option Member :=
  if String.eqb key "$forceUpdate" then Some MUpdate
  else if String.eqb key "$nextTick" then Some MNextTick
  else if String.eqb key "$watch" then Some MWatch
  else None.

Section Handlers.

(** The build flag [__FEATURE_OPTIONS__], and [name in target] for the
    instance. *)
Variable FEATURE_OPTIONS : bool.
Variable inTarget : string -> bool.

(** [RenderProxyHandlers.get]: [None] is the [TypeError] of reading a
    key of a [propsProxy] that is [null]. *)
Definition proxyGet (target : ComponentInstance) (key : string)
  : option Got :=
  let otherwise :=
    if hasOwn (renderContext target) key then
      Some (read (renderContext target) key)
    else if hasOwn (props target) key then
      match propsProxy target with
      | Some proxy => Some (GotValue (proxy key))
      | None => None
      end
    else
      match publicMember key with
      | Some m => Some (GotMember m)
      | None =>
          match (if FEATURE_OPTIONS then optionsMember key else None) with
          | Some m => Some (GotMember m)
          | None => Some (read (user target) key)
          end
      end in
  match data target with
  | Some d => if hasOwn d key then Some (read d key) else otherwise
  | None => otherwise
  end.

(** [key[0] === '$' && key.slice(1) in target]. *)
Definition isPublicName (key : string) : bool :=
  match key with
  | String c rest => (Ascii.eqb c "$" && inTarget rest)%bool
  | EmptyString => false
  end.

(** [RenderProxyHandlers.set]: what the trap returns, and the instance
    after the call. *)
Definition proxySet (target : ComponentInstance) (key : string) (v : value)
  : bool * ComponentInstance :=
  let otherwise :=
    if hasOwn (renderContext target) key then
      (true,
       mkInstance (set (renderContext target) key v) (data target)
                  (props target) (propsProxy target) (user target))
    else if isPublicName key then (false, target)
    else if inObject (props target) key then (false, target)
    else
      (true,
       mkInstance (renderContext target) (data target) (props target)
                  (propsProxy target) (set (user target) key v)) in
  match data target with
  | Some d =>
      if hasOwn d key
      then (true,
            mkInstance (renderContext target) (Some (set d key v))
                       (props target) (propsProxy target) (user target))
      else otherwise
  | None => otherwise
  end.

End Handlers.

End ComponentProxy.

(* ===================================================================== *)
(** * Theorems                                                             *)
(* ===================================================================== *)

(** ** Plain objects: assignment *)

Module JsFacts.
Import Js.

Lemma get_assign_same {V} (o : obj V) (k : string) (v : V) :
  k <> "__proto__" -> get (assign o k v) k = Some v.
Proof.
  intros Hk. unfold assign. apply String.eqb_neq in Hk. rewrite Hk. clear Hk.
  induction o as [|[k' v'] o IH]; cbn.
  - rewrite String.eqb_refl. reflexivity.
  - destruct (String.eqb k' k) eqn:E; cbn.
    + rewrite String.eqb_refl. reflexivity.
    + rewrite E. exact IH.
Qed.

Lemma get_assign_other {V} (o : obj V) (k k' : string) (v : V) :
  k <> k' -> get (assign o k v) k' = get o k'.
Proof.
  intros Hne. unfold assign. destruct (String.eqb k "__proto__"); [reflexivity|].
  induction o as [|[k0 v0] o IH]; cbn.
  - apply String.eqb_neq in Hne. rewrite Hne. reflexivity.
  - destruct (String.eqb k0 k) eqn:E; cbn.
    + apply String.eqb_eq in E. subst k0.
      apply String.eqb_neq in Hne. rewrite Hne. reflexivity.
    + destruct (String.eqb k0 k'); [reflexivity | exact IH].
Qed.

End JsFacts.

(** ** The [v-for] directive transform *)

Module VForFacts.
Import Js VFor.

(** A context that keeps the calls made to it, newest last. *)
Definition Recorded : Type := list (ForNode + CompilerError).
Definition recordNode (n : ForNode) (c : Recorded) : option Recorded :=
  Some (c ++ [inl n])%list.
Definition recordError (e : CompilerError) (c : Recorded) : option Recorded :=
  Some (c ++ [inr e])%list.

Definition contentOf (a : option AliasExpression) : option string :=
  option_map alias_content a.

Definition expContent (e : option ExpressionNode) : option string :=
  option_map exp_content e.

Definition sampleLoc (src : string) : SourceLocation :=
  mkLoc (mkPosition 0 1 1) (mkPosition (len src) 1 (1 + len src)) src.

Definition sampleExp (src : string) : ExpressionNode :=
  mkExpression EXPRESSION (sampleLoc src) src false.

Lemma parseAliasExpressions_none (src : string) :
  forAliasRE src = None -> parseAliasExpressions src = None.
Proof.
  intros H. unfold parseAliasExpressions. rewrite H. reflexivity.
Qed.

(** The aliases of the sample expression, with their offsets. *)
Lemma parse_item_index :
  parseAliasExpressions "(item, index) in list"
  = Some (mkAliases (mkAlias 17 "list") (Some (mkAlias 1 "item"))
                    (Some (mkAlias 7 "index")) None).
Proof. vm_compute. reflexivity. Qed.

(** C3, as the specification words it, does not hold: the second name of
    the parenthesized pair is not the index alias, and the key alias is
    not absent. *)
Lemma second_alias_is_not_index :
  option_map
    (fun a => (contentOf (value a), contentOf (key a), contentOf (index a),
               alias_content (source a)))
    (parseAliasExpressions "(item, index) in list")
  <> Some (Some "item", None, Some "index", "list").
Proof. vm_compute. discriminate. Qed.

(** C3 (amended): for the alias expression [(item, index) in list] the
    transform replaces the element by a list node whose value alias is
    [item], whose key alias is [index], whose index alias is absent and
    whose source expression is [list]. *)
Theorem transformFor_item_index
    (DEV : bool) (Context : Type)
    (replaceNode : ForNode -> Context -> option Context)
    (onError : CompilerError -> Context -> option Context)
    (node : ElementNode) (dir : DirectiveNode) (exp : ExpressionNode)
    (context : Context) :
  dir_exp dir = Some exp ->
  exp_content exp = "(item, index) in list" ->
  loc_source (exp_loc exp) = exp_content exp ->
  exists n : ForNode,
    transformFor DEV Context replaceNode onError node dir context
    = replaceNode n context
    /\ for_type n = FOR
    /\ expContent (for_valueAlias n) = Some "item"
    /\ expContent (for_keyAlias n) = Some "index"
    /\ for_objectIndexAlias n = None
    /\ exp_content (for_source n) = "list"
    /\ for_children n = [node].
Proof.
  intros Hexp Hcontent Hsrc.
  unfold transformFor. rewrite Hexp, Hcontent, parse_item_index.
  unfold maybeCreateExpression, getInnerRange. cbn [source value key index
    alias_offset alias_content].
  rewrite Hsrc, Hcontent.
  destruct DEV; cbn; eexists; repeat split; reflexivity.
Qed.

Lemma transformFor_item_index_witness :
  exists n : ForNode,
    transformFor true Recorded recordNode recordError
      (mkElement "li" (sampleLoc "<li/>"))
      (mkDirective "for" (Some (sampleExp "(item, index) in list"))
                   (sampleLoc "v-for"))
      []
    = Some [inl n]
    /\ for_type n = FOR
    /\ expContent (for_valueAlias n) = Some "item"
    /\ expContent (for_keyAlias n) = Some "index"
    /\ for_objectIndexAlias n = None
    /\ exp_content (for_source n) = "list"
    /\ for_children n = [mkElement "li" (sampleLoc "<li/>")].
Proof.
  apply (transformFor_item_index true Recorded recordNode recordError
           (mkElement "li" (sampleLoc "<li/>"))
           (mkDirective "for" (Some (sampleExp "(item, index) in list"))
                        (sampleLoc "v-for"))
           (sampleExp "(item, index) in list") []);
    reflexivity.
Defined.

(** The error code a directive without a usable expression is reported
    with. *)
Definition forErrorCode (dir : DirectiveNode) : ErrorCodes :=
  match dir_exp dir with
  | None => X_FOR_NO_EXPRESSION
  | Some _ => X_FOR_MALFORMED_EXPRESSION
  end.

(** C6: a [v-for] directive without expression, or whose expression the
    in/of regular expression does not match, makes the transform call
    the context's [onError], and nothing else, with the error of the
    fixed code ([X_FOR_NO_EXPRESSION], resp. [X_FOR_MALFORMED_EXPRESSION])
    located at the start of the directive: the outcome of the transform
    is the outcome of that call, so the transform throws nothing of its
    own and returns whenever the collector does. *)
Theorem transformFor_reports_error
    (DEV : bool) (Context : Type)
    (replaceNode : ForNode -> Context -> option Context)
    (onError : CompilerError -> Context -> option Context)
    (node : ElementNode) (dir : DirectiveNode) (context : Context) :
  (dir_exp dir = None
   \/ exists exp, dir_exp dir = Some exp /\ forAliasRE (exp_content exp) = None) ->
  transformFor DEV Context replaceNode onError node dir context
  = onError (createCompilerError (forErrorCode dir) (loc_start (dir_loc dir)))
            context
  /\ (forall context',
        onError (createCompilerError (forErrorCode dir)
                                     (loc_start (dir_loc dir))) context
        = Some context' ->
        transformFor DEV Context replaceNode onError node dir context
        = Some context')
  /\ err_code (createCompilerError (forErrorCode dir) (loc_start (dir_loc dir)))
     = forErrorCode dir
  /\ err_loc (createCompilerError (forErrorCode dir) (loc_start (dir_loc dir)))
     = loc_start (dir_loc dir)
  /\ (dir_exp dir = None -> forErrorCode dir = X_FOR_NO_EXPRESSION)
  /\ (dir_exp dir <> None -> forErrorCode dir = X_FOR_MALFORMED_EXPRESSION).
Proof.
  intros H.
  assert (Hrun : transformFor DEV Context replaceNode onError node dir context
                 = onError (createCompilerError (forErrorCode dir)
                                                (loc_start (dir_loc dir)))
                           context).
  { destruct H as [Hnone | [exp [Hexp Hre]]];
      unfold transformFor, forErrorCode.
    - rewrite Hnone. reflexivity.
    - rewrite Hexp, (parseAliasExpressions_none _ Hre). reflexivity. }
  split; [exact Hrun|]. split; [intros c' Hc; rewrite Hrun; exact Hc|].
  unfold forErrorCode. repeat split.
  - intros ->. reflexivity.
  - destruct (dir_exp dir); [reflexivity | congruence].
Qed.

Lemma transformFor_reports_error_witness :
  transformFor true Recorded recordNode recordError
    (mkElement "li" (sampleLoc "<li/>"))
    (mkDirective "for" (Some (sampleExp "items")) (sampleLoc "v-for"))
    []
  = Some [inr (mkCompilerError X_FOR_MALFORMED_EXPRESSION (mkPosition 0 1 1))]
  /\ errorCodeNumber X_FOR_MALFORMED_EXPRESSION = 38
  /\ errorCodeNumber X_FOR_NO_EXPRESSION = 37.
Proof.
  split; [|split; reflexivity].
  assert (H : exists exp,
             Some (sampleExp "items") = Some exp
             /\ forAliasRE (exp_content exp) = None)
    by (exists (sampleExp "items"); split; reflexivity).
  destruct (transformFor_reports_error true Recorded recordNode recordError
              (mkElement "li" (sampleLoc "<li/>"))
              (mkDirective "for" (Some (sampleExp "items")) (sampleLoc "v-for"))
              [] (or_intror H)) as [Hrun _].
  exact Hrun.
Defined.

End VForFacts.

(** ** Render descriptors *)

Module VNodeFacts.
Import Js VNode.

(** The shape flags of shapeFlags.ts, for the concrete runs below. *)
Definition runNormalize : VNodeChild -> State -> option (State * vref) :=
  normalizeVNode 1 2 4 8 16 32.

Definition sampleVNode (e : option host) : VNode :=
  mkVNode (TElement "div") None VNull VNull NoChildren None None e None None
          1 0 None None None.

Lemma deref_alloc (v : VNode) (st : State) :
  deref (fst (alloc v st)) (snd (alloc v st)) = Some v.
Proof.
  unfold deref, alloc. cbn.
  rewrite nth_error_app2 by lia. rewrite Nat.sub_diag. reflexivity.
Qed.

Lemma deref_fresh (st : State) : deref st (List.length (heap st)) = None.
Proof. unfold deref. apply nth_error_None. lia. Qed.

(** C4, as the specification words it, does not hold: a mounted child
    ([el] set) does not come back as the same object, and an unmounted
    one is not cloned. *)
Lemma mounted_child_is_not_passed_through :
  let mounted := mkState [sampleVNode (Some 7%nat)] [] true in
  let fresh := mkState [sampleVNode None] [] true in
  option_map snd (runNormalize (ChildVNode 0%nat) mounted) <> Some 0%nat
  /\ runNormalize (ChildVNode 0%nat) fresh = Some (fresh, 0%nat).
Proof. vm_compute. split; [discriminate | reflexivity]. Qed.

(** C4 (amended): for a child that is a descriptor object of the store,
    [normalizeVNode] returns the very same object, and leaves the store
    alone, when its [el] is [null] (not mounted yet); when its [el] is
    set (already mounted) it returns a fresh object, the clone, whose
    [el], [anchor], [component] and [suspense] are [null] and whose other
    fields ([type], [props], [key], [ref], [children], [target],
    [shapeFlag], [patchFlag], [dynamicProps], [dynamicChildren],
    [appContext]) are those of the child; the child stays as it was, and
    the clone is not tracked by any open block. *)
Theorem normalizeVNode_object
    (ELEMENT FUNCTIONAL_COMPONENT STATEFUL_COMPONENT : Z)
    (TEXT_CHILDREN ARRAY_CHILDREN SLOTS_CHILDREN : Z)
    (st : State) (r : vref) (v : VNode) :
  deref st r = Some v ->
  (el v = None ->
   normalizeVNode ELEMENT FUNCTIONAL_COMPONENT STATEFUL_COMPONENT
                  TEXT_CHILDREN ARRAY_CHILDREN SLOTS_CHILDREN (ChildVNode r) st
   = Some (st, r))
  /\ (el v <> None ->
      exists st' r' clone,
        normalizeVNode ELEMENT FUNCTIONAL_COMPONENT STATEFUL_COMPONENT
                       TEXT_CHILDREN ARRAY_CHILDREN SLOTS_CHILDREN (ChildVNode r) st
        = Some (st', r')
        /\ r' <> r
        /\ deref st r' = None
        /\ deref st' r' = Some clone
        /\ deref st' r = Some v
        /\ heap st' = (heap st ++ [clone])%list
        /\ blockStack st' = blockStack st
        /\ shouldTrack st' = shouldTrack st
        /\ clone = cloneVNode v
        /\ el clone = None
        /\ anchor clone = None
        /\ component clone = None
        /\ suspense clone = None
        /\ type clone = type v
        /\ props clone = props v
        /\ key clone = key v
        /\ ref clone = ref v
        /\ children clone = children v
        /\ target clone = target v
        /\ shapeFlag clone = shapeFlag v
        /\ patchFlag clone = patchFlag v
        /\ dynamicProps clone = dynamicProps v
        /\ dynamicChildren clone = dynamicChildren v
        /\ appContext clone = appContext v).
Proof.
  intros Hv. split.
  - intros Hel. unfold normalizeVNode. rewrite Hv, Hel. reflexivity.
  - intros Hel. unfold normalizeVNode. rewrite Hv.
    destruct (el v) as [h|] eqn:E; [clear Hel | congruence].
    exists (fst (alloc (cloneVNode v) st)), (snd (alloc (cloneVNode v) st)),
           (cloneVNode v).
    assert (Hlt : (r < List.length (heap st))%nat).
    { apply nth_error_Some. unfold deref in Hv. congruence. }
    repeat split.
    + cbn. lia.
    + apply deref_fresh.
    + apply deref_alloc.
    + unfold deref, alloc. cbn. rewrite nth_error_app1 by exact Hlt. exact Hv.
Qed.

(** A mounted descriptor with every field set. *)
Definition mountedVNode : VNode :=
  mkVNode (TElement "div") (Some [("id", VString "app")]) (VString "k")
          (VObject 3) (TextChildren "hi") (Some 1%nat) (Some 2%nat)
          (Some 7%nat) (Some 8%nat) (Some 9%nat) 9 1 (Some ["id"])
          (Some [0%nat]) (Some 4%nat).

(** An unmounted child comes back as it is; a mounted one comes back as
    a second object of the store, with the four mount fields cleared and
    the eleven others copied. *)
Lemma normalizeVNode_object_witness :
  runNormalize (ChildVNode 0%nat) (mkState [sampleVNode None] [] true)
  = Some (mkState [sampleVNode None] [] true, 0%nat)
  /\ exists st' r',
       runNormalize (ChildVNode 0%nat) (mkState [mountedVNode] [Some []] true)
       = Some (st', r')
       /\ r' <> 0%nat
       /\ deref st' 0%nat = Some mountedVNode
       /\ deref st' r'
          = Some (mkVNode (TElement "div") (Some [("id", VString "app")])
                          (VString "k") (VObject 3) (TextChildren "hi")
                          None None None None (Some 9%nat) 9 1 (Some ["id"])
                          (Some [0%nat]) (Some 4%nat))
       /\ blockStack st' = [Some []].
Proof.
  split.
  - apply (normalizeVNode_object 1 2 4 8 16 32
             (mkState [sampleVNode None] [] true) 0%nat (sampleVNode None));
      reflexivity.
  - destruct (normalizeVNode_object 1 2 4 8 16 32
                (mkState [mountedVNode] [Some []] true) 0%nat mountedVNode
                eq_refl) as [_ Hclone].
    destruct Hclone as [st' [r' [clone [Hrun [Hne [_ [Hnew [Hold [_ [Hb [_ [Hc _]]]]]]]]]]]];
      [discriminate|].
    exists st', r'. split; [exact Hrun|]. split; [exact Hne|].
    split; [exact Hold|]. split; [rewrite Hnew, Hc; reflexivity | exact Hb].
Defined.

End VNodeFacts.

(** ** Refs *)

Module ReactivityFacts.
Import Js Reactivity.

Lemma nth_error_replaceAt {A} (l : list A) (n : nat) (x y : A) :
  nth_error l n = Some y -> nth_error (replaceAt n x l) n = Some x.
Proof.
  revert n. induction l as [|a l IH]; intros [|n] H; cbn in *;
    try discriminate; auto.
Qed.

Lemma replaceAt_same {A} (l : list A) (n : nat) (x : A) :
  nth_error l n = Some x -> replaceAt n x l = l.
Proof.
  revert n. induction l as [|a l IH]; intros [|n] H; cbn in *;
    try discriminate.
  - congruence.
  - f_equal. auto.
Qed.

(** C10: writing [value] of a ref always calls [trigger] with the ref,
    the operation [SET] and the key [value], once, whatever is written:
    also when the ref then holds what it held before.  The setter has
    no comparison of the old with the new value. *)
Theorem ref_set_always_triggers
    (DEV : bool) (reactive : Val -> Val)
    (st : State) (r : nat) (old newVal : Val) :
  nth_error (refs st) r = Some old ->
  exists st',
    setValue DEV reactive r newVal st = Some st'
    /\ log st' = (log st ++ [Trigger r SET "value"
                               (if DEV then Some newVal else None)])%list
    /\ nth_error (refs st') r = Some (convert reactive newVal)
    /\ (convert reactive newVal = old ->
        refs st' = refs st
        /\ List.length (log st') = S (List.length (log st))).
Proof.
  intros Hold. unfold setValue. rewrite Hold.
  eexists. split; [reflexivity|]. cbn. repeat split.
  - eapply nth_error_replaceAt; eauto.
  - apply replaceAt_same. congruence.
  - rewrite length_app. cbn. lia.
Qed.

(** A ref made from [1] and written [1] again: one [trigger]. *)
Lemma ref_set_always_triggers_witness :
  exists st',
    setValue true (fun v => v) 0%nat (Plain (VNumber 1))
             (fst (ref (fun v => v) (Plain (VNumber 1)) (mkState [] [])))
    = Some st'
    /\ log st' = [Trigger 0%nat SET "value" (Some (Plain (VNumber 1)))]
    /\ refs st' = [Plain (VNumber 1)].
Proof.
  destruct (ref_set_always_triggers true (fun v => v)
              (fst (ref (fun v => v) (Plain (VNumber 1)) (mkState [] [])))
              0%nat (Plain (VNumber 1)) (Plain (VNumber 1)) eq_refl)
    as [st' [H1 [H2 [H3 H4]]]].
  exists st'. split; [exact H1|]. split; [exact H2|].
  destruct (H4 eq_refl) as [H5 _]. exact H5.
Defined.

End ReactivityFacts.

(** ** Script compilation *)

Module CompileScriptFacts.
Import Js CompileScript JsFacts.

(** The classification the amended C7 gives a declarator with a plain
    identifier: constant for a [const] whose initializer is a call of
    [defineOptions], or is neither an identifier, nor a call, nor a
    member access; setup state otherwise. *)
Definition classify (kind : Kind) (init : option Expression) : BindingTypes :=
  match kind, init with
  | KConst, Some e => constIf (isCallOf DEFINE_OPTIONS e || isLiteralShape e)
  | _, _ => SETUP
  end.

Definition record (kind : Kind) (b : BindingMetadata) (d : VariableDeclarator)
  : BindingMetadata :=
  set b (nameOf (id d)) (classify kind (init d)).

Definition isIdentifier (p : Pattern) : Prop :=
  exists name, p = PIdentifier name.

Definition defineOptionsCall : Expression :=
  CallExpression (Identifier "defineOptions") [ObjectExpression []].

(** C7, as the specification words it, does not hold: a [const] whose
    initializer is a call expression, the call of [defineOptions], is
    recorded as a constant. *)
Lemma defineOptions_call_is_constant :
  isLiteralShape defineOptionsCall = false
  /\ walkDeclaration
       (VariableDeclaration KConst
          [mkDeclarator (PIdentifier "props") (Some defineOptionsCall)]) []
     = Some [("props", CONST)].
Proof. vm_compute. split; reflexivity. Qed.

Lemma walkDeclarator_identifier (kind : Kind) (b : BindingMetadata)
    (d : VariableDeclarator) :
  isIdentifier (id d) ->
  (kind = KConst -> init d <> None) ->
  walkDeclarator match kind with KConst => true | _ => false end (Some b) d
  = Some (record kind b d).
Proof.
  intros [name Hid] Hinit. unfold walkDeclarator, record, classify.
  rewrite Hid. cbn [nameOf].
  destruct kind; cbn; try reflexivity.
  destruct (init d) as [e|] eqn:E; [|exfalso; apply Hinit; auto].
  destruct (isCallOf DEFINE_OPTIONS e); cbn; reflexivity.
Qed.

Lemma walkDeclarators_identifier (kind : Kind) (ds : list VariableDeclarator) :
  forall b : BindingMetadata,
  Forall (fun d => isIdentifier (id d)) ds ->
  (kind = KConst -> Forall (fun d => init d <> None) ds) ->
  fold_left (walkDeclarator match kind with KConst => true | _ => false end)
            ds (Some b)
  = Some (fold_left (record kind) ds b).
Proof.
  induction ds as [|d ds IH]; intros b Hid Hinit; cbn [fold_left].
  - reflexivity.
  - inversion Hid as [|? ? Hd Hds]; subst.
    rewrite walkDeclarator_identifier; auto.
    + apply IH; auto. intros Hk. specialize (Hinit Hk).
      inversion Hinit; auto.
    + intros Hk. specialize (Hinit Hk). inversion Hinit; auto.
Qed.

Lemma classify_const_iff (kind : Kind) (init : option Expression) :
  classify kind init = CONST
  <-> kind = KConst
      /\ exists e, init = Some e
           /\ (isCallOf DEFINE_OPTIONS e = true \/ isLiteralShape e = true).
Proof.
  unfold classify. split.
  - destruct kind; try discriminate.
    destruct init as [e|]; try discriminate.
    intros H. split; [reflexivity|]. exists e. split; [reflexivity|].
    destruct (isCallOf DEFINE_OPTIONS e); [left; reflexivity|].
    destruct (isLiteralShape e); [right; reflexivity | discriminate].
  - intros [Hk [e [He H]]]. subst.
    destruct H as [H | H]; rewrite H; cbn; [reflexivity|].
    destruct (isCallOf DEFINE_OPTIONS e); reflexivity.
Qed.

(** C7 (amended): for a top-level variable declaration whose declarators
    bind plain identifiers, [walkDeclaration] records for every
    declarator, in order, the classification [classify]: local constant
    exactly when the declaration is a [const] whose initializer is a call
    of [defineOptions] or is neither an identifier, nor a call, nor a
    member access; setup state in every other case. *)
Theorem walkDeclaration_classification
    (kind : Kind) (ds : list VariableDeclarator) (b : BindingMetadata) :
  Forall (fun d => isIdentifier (id d)) ds ->
  (kind = KConst -> Forall (fun d => init d <> None) ds) ->
  walkDeclaration (VariableDeclaration kind ds) b
  = Some (fold_left (record kind) ds b)
  /\ forall d, In d ds ->
       (classify kind (init d) = CONST
        <-> kind = KConst
            /\ exists e, init d = Some e
                 /\ (isCallOf DEFINE_OPTIONS e = true
                     \/ isLiteralShape e = true))
       /\ (classify kind (init d) <> CONST -> classify kind (init d) = SETUP).
Proof.
  intros Hid Hinit. split.
  - unfold walkDeclaration. apply walkDeclarators_identifier; assumption.
  - intros d _. split; [apply classify_const_iff|].
    unfold classify. destruct kind, (init d) as [e|]; try reflexivity.
    unfold constIf. destruct (isCallOf DEFINE_OPTIONS e || isLiteralShape e)%bool;
      [congruence | reflexivity].
Qed.

(** [const x = 1, y = x, z = f(), w = a.b, o = defineOptions({})]. *)
Lemma walkDeclaration_classification_witness :
  walkDeclaration
    (VariableDeclaration KConst
       [mkDeclarator (PIdentifier "x") (Some (NumericLiteral "1"));
        mkDeclarator (PIdentifier "y") (Some (Identifier "x"));
        mkDeclarator (PIdentifier "z") (Some (CallExpression (Identifier "f") []));
        mkDeclarator (PIdentifier "w")
                     (Some (MemberExpression (Identifier "a") (Identifier "b")));
        mkDeclarator (PIdentifier "o") (Some defineOptionsCall)]) []
  = Some [("x", CONST); ("y", SETUP); ("z", SETUP); ("w", SETUP); ("o", CONST)].
Proof.
  apply (walkDeclaration_classification KConst
           [mkDeclarator (PIdentifier "x") (Some (NumericLiteral "1"));
            mkDeclarator (PIdentifier "y") (Some (Identifier "x"));
            mkDeclarator (PIdentifier "z")
                         (Some (CallExpression (Identifier "f") []));
            mkDeclarator (PIdentifier "w")
                         (Some (MemberExpression (Identifier "a") (Identifier "b")));
            mkDeclarator (PIdentifier "o") (Some defineOptionsCall)] []).
  - repeat constructor; eexists; reflexivity.
  - intros _. repeat constructor; discriminate.
Defined.

(** *** A plain script block *)

Lemma get_setAll_other (ty : BindingTypes) (names : list string) (n : string) :
  ~ In n names ->
  forall b, get (setAll ty names b) n = get b n.
Proof.
  unfold setAll. induction names as [|k names IH]; intros Hn b; [reflexivity|].
  cbn [fold_left]. rewrite IH by (intros H; apply Hn; right; exact H).
  apply get_assign_other. intros ->. apply Hn. left. reflexivity.
Qed.

Lemma get_setAll_in (ty : BindingTypes) (names : list string) (n : string) :
  n <> "__proto__" ->
  In n names ->
  forall b, get (setAll ty names b) n = Some ty.
Proof.
  intros Hproto. unfold setAll.
  induction names as [|k names IH]; intros Hn b; [contradiction|].
  cbn [fold_left].
  destruct (in_dec string_dec n names) as [Hin | Hout].
  - apply IH, Hin.
  - destruct Hn as [-> | Hn]; [|contradiction].
    fold (setAll ty names (assign b n ty)).
    rewrite get_setAll_other by exact Hout.
    apply get_assign_same, Hproto.
Qed.

(** The names an option of the component binds: the keys of [props] and
    [inject], those of the object literals [computed] and [methods],
    and those of the object literals returned by the methods [setup] and
    [data]. *)
Definition returnedKeys (bodyItem : BodyStatement) : list string :=
  match bodyItem with
  | ReturnStatement (Some (ObjectExpression properties)) =>
      getObjectExpressionKeys properties
  | _ => []
  end.

Definition boundNames (property : ObjectMember) : list string :=
  match property with
  | ObjectProperty false (Identifier name) value =>
      if (String.eqb name "props" || String.eqb name "inject")%bool
      then getObjectOrArrayExpressionKeys value
      else match value with
           | ObjectExpression properties =>
               if (String.eqb name "computed" || String.eqb name "methods")%bool
               then getObjectExpressionKeys properties
               else []
           | _ => []
           end
  | ObjectMethod _ (Identifier name) body =>
      if (String.eqb name "setup" || String.eqb name "data")%bool
      then flat_map returnedKeys body
      else []
  | _ => []
  end.

Lemma analyzeProperty_get_other (property : ObjectMember) (n : string)
    (b : BindingMetadata) :
  ~ In n (boundNames property) ->
  get (analyzeProperty b property) n = get b n.
Proof.
  unfold analyzeProperty, boundNames.
  destruct property as [computed key value|computed key body|argument];
    try reflexivity.
  - destruct computed; [reflexivity|].
    destruct key; try reflexivity.
    destruct (String.eqb name "props"); cbn [orb];
      [intros H; apply get_setAll_other, H|].
    destruct (String.eqb name "inject");
      [intros H; apply get_setAll_other, H|].
    destruct value; try reflexivity.
    destruct (_ || _)%bool; [intros H; apply get_setAll_other, H | reflexivity].
  - destruct key; try reflexivity.
    destruct (_ || _)%bool; [|reflexivity].
    revert b. induction body as [|item body IH]; intros b Hn; [reflexivity|].
    cbn [fold_left]. rewrite IH.
    + assert (Hitem : ~ In n (returnedKeys item)).
      { intros H. apply Hn. cbn [flat_map]. apply in_or_app. left. exact H. }
      destruct item as [[e|]|]; try reflexivity.
      destruct e; try reflexivity. apply get_setAll_other. exact Hitem.
    + intros H. apply Hn. cbn [flat_map]. apply in_or_app. right. exact H.
Qed.

Lemma analyzeProperties_get_other (properties : list ObjectMember) (n : string) :
  (forall property, In property properties -> ~ In n (boundNames property)) ->
  forall b, get (fold_left analyzeProperty properties b) n = get b n.
Proof.
  induction properties as [|p properties IH]; intros Hn b; [reflexivity|].
  cbn [fold_left]. rewrite IH by (intros q Hq; apply Hn; right; exact Hq).
  apply analyzeProperty_get_other. apply Hn. left. reflexivity.
Qed.

(** Whether a statement is the default export of an object literal. *)
Definition exportsOptions (statement : Statement) : bool :=
  match statement with
  | ExportDefaultDeclaration (ObjectExpression _) => true
  | _ => false
  end.

Lemma analyzeScriptBindings_none (ast : list Statement) :
  (forall statement, In statement ast -> exportsOptions statement = false) ->
  analyzeScriptBindings ast = [].
Proof.
  induction ast as [|s ast IH]; intros H; [reflexivity|].
  assert (Hs : exportsOptions s = false) by (apply H; left; reflexivity).
  assert (Hrest : analyzeScriptBindings ast = [])
    by (apply IH; intros s' Hs'; apply H; right; exact Hs').
  destruct s as [d|e|ty|ty]; cbn [analyzeScriptBindings]; try exact Hrest.
  destruct e; try exact Hrest. discriminate.
Qed.

Lemma analyzeScriptBindings_first (before after : list Statement)
    (properties : list ObjectMember) :
  (forall statement, In statement before -> exportsOptions statement = false) ->
  analyzeScriptBindings
    (before ++ ExportDefaultDeclaration (ObjectExpression properties) :: after)
  = analyzeBindingsFromOptions properties.
Proof.
  induction before as [|s before IH]; intros H; [reflexivity|].
  assert (Hs : exportsOptions s = false) by (apply H; left; reflexivity).
  assert (Hrest : analyzeScriptBindings
                    (before ++ ExportDefaultDeclaration
                                 (ObjectExpression properties) :: after)
                  = analyzeBindingsFromOptions properties)
    by (apply IH; intros s' Hs'; apply H; right; exact Hs').
  cbn [app]. destruct s as [d|e|ty|ty]; cbn [analyzeScriptBindings];
    try exact Hrest.
  destruct e; try exact Hrest. discriminate.
Qed.

(** A parser that accepts two programs: [export default {}] and a
    component with a prop and a data field. *)
Definition toyComponent : string :=
  "export default { props: ['msg'], data() { return { count: 0 } } }".

Definition toyProgram : list Statement :=
  [ExportDefaultDeclaration
     (ObjectExpression
        [ObjectProperty false (Identifier "props")
           (ArrayExpression [Some (StringLiteral "msg")]);
         ObjectMethod false (Identifier "data")
           [ReturnStatement
              (Some (ObjectExpression
                       [ObjectProperty false (Identifier "count")
                                       (NumericLiteral "0")]))]])].

Definition toyParse (src : string) (_ : list string) : option (list Statement) :=
  if String.eqb src "export default {}"
  then Some [ExportDefaultDeclaration (ObjectExpression [])]
  else if String.eqb src toyComponent then Some toyProgram
  else None.

Definition toyDescriptor (src : string) (language : option string)
  : SFCDescriptor :=
  mkDescriptor "a.vue" src (Some (mkScript src language [] None None)) None [].


Section CompileFacts.

Variable babelParserDefaultPlugins : list string.
Variable _parse : string -> list string -> option (list Statement).
Variable injectCssVarsCalls : SFCDescriptor -> list string -> option string.
Variable compileSetup :
  SFCDescriptor -> SFCScriptCompileOptions -> result SFCScriptBlock.

Let compile := compileScript babelParserDefaultPlugins _parse
                             injectCssVarsCalls compileSetup.
Let plugins := parserPlugins babelParserDefaultPlugins.


End CompileFacts.


End CompileScriptFacts.

(** ** Strings *)

Module StringFacts.

Lemma append_nil_r (s : string) : s ++ EmptyString = s.
Proof. induction s as [|c s IH]; cbn; [reflexivity | now rewrite IH]. Qed.

Lemma append_assoc (a b c : string) : (a ++ b) ++ c = a ++ (b ++ c).
Proof. induction a as [|x a IH]; cbn; [reflexivity | now rewrite IH]. Qed.

Lemma length_append (a b : string) :
  String.length (a ++ b) = (String.length a + String.length b)%nat.
Proof. induction a as [|x a IH]; cbn; [reflexivity | now rewrite IH]. Qed.

End StringFacts.

(** ** The server renderer's buffer *)

Module BufferFacts.
Import Js Ssr StringFacts.

Definition pushAll (items : list SSRBufferItem) (b : Buffer) : Buffer :=
  fold_left (fun b item => push item b) items b.

(** Neither a string nor an array: a pending result. *)
Definition isPromise (item : SSRBufferItem) : bool :=
  (negb (isString item) && negb (isArray item))%bool.

Fixpoint noAdjacentStrings (l : list SSRBufferItem) : bool :=
  match l with
  | [] => true
  | x :: l' =>
      match l' with
      | [] => true
      | y :: _ => (negb (isString x && isString y) && noAdjacentStrings l')%bool
      end
  end.

Fixpoint lastIsString (l : list SSRBufferItem) : bool :=
  match l with
  | [] => false
  | x :: l' => match l' with [] => isString x | _ => lastIsString l' end
  end.

(** The string content of a pushed item; for a promise, that of the
    buffer it resolves to. *)
Definition itemText (item : SSRBufferItem) : string :=
  match item with
  | ItemString s => s
  | ItemBuffer b => unrollBuffer b
  | ItemPromise _ resolved => unrollBuffer resolved
  end.

Fixpoint concatAll (l : list string) : string :=
  match l with
  | [] => EmptyString
  | s :: l' => s ++ concatAll l'
  end.

Definition bufferText (l : list SSRBufferItem) : string :=
  concatAll (map itemText l).

(** What the pushes keep true. *)
Definition invariant (b : Buffer) : Prop :=
  noAdjacentStrings (buffer b) = true
  /\ appendable b = lastIsString (buffer b).

Lemma updateLast_app {A} (f : A -> A) (l : list A) (x : A) :
  updateLast f (l ++ [x]) = (l ++ [f x])%list.
Proof.
  induction l as [|a l IH]; [reflexivity|].
  cbn [app]. destruct l as [|a' l]; [reflexivity|].
  cbn [app] in *. cbn [updateLast]. rewrite <- IH. reflexivity.
Qed.

Lemma lastIsString_cons2 (a b : SSRBufferItem) (l : list SSRBufferItem) :
  lastIsString (a :: b :: l) = lastIsString (b :: l).
Proof. reflexivity. Qed.

Lemma noAdjacentStrings_cons2 (a b : SSRBufferItem) (l : list SSRBufferItem) :
  noAdjacentStrings (a :: b :: l)
  = (negb (isString a && isString b) && noAdjacentStrings (b :: l))%bool.
Proof. reflexivity. Qed.

Lemma lastIsString_app (l : list SSRBufferItem) (x : SSRBufferItem) :
  lastIsString (l ++ [x]) = isString x.
Proof.
  induction l as [|a l IH]; [reflexivity|].
  destruct l as [|a' l]; [reflexivity|].
  change ((a :: a' :: l) ++ [x])%list with (a :: a' :: (l ++ [x]))%list.
  rewrite lastIsString_cons2. exact IH.
Qed.

Lemma noAdjacentStrings_app (l : list SSRBufferItem) (x : SSRBufferItem) :
  noAdjacentStrings (l ++ [x])
  = (noAdjacentStrings l && negb (lastIsString l && isString x))%bool.
Proof.
  induction l as [|a l IH]; [reflexivity|].
  destruct l as [|a' l].
  - cbn. destruct (isString a), (isString x); reflexivity.
  - change ((a :: a' :: l) ++ [x])%list with (a :: (a' :: l) ++ [x])%list.
    change ((a' :: l) ++ [x])%list with (a' :: (l ++ [x]))%list in *.
    rewrite (noAdjacentStrings_cons2 a a' (l ++ [x])).
    rewrite (noAdjacentStrings_cons2 a a' l), (lastIsString_cons2 a a' l).
    rewrite IH, andb_assoc. reflexivity.
Qed.

Lemma lastIsString_true (l : list SSRBufferItem) :
  lastIsString l = true -> exists l' s, l = (l' ++ [ItemString s])%list.
Proof.
  destruct l as [|a l] using rev_ind; [discriminate|].
  rewrite lastIsString_app. destruct a; try discriminate.
  intros _. eauto.
Qed.

Lemma concatAll_app (a b : list string) :
  concatAll (a ++ b) = concatAll a ++ concatAll b.
Proof.
  induction a as [|x a IH]; cbn; [reflexivity|].
  rewrite IH, append_assoc. reflexivity.
Qed.

Lemma bufferText_app (l : list SSRBufferItem) (x : SSRBufferItem) :
  bufferText (l ++ [x]) = bufferText l ++ itemText x.
Proof.
  unfold bufferText. rewrite map_app, concatAll_app. cbn.
  rewrite append_nil_r. reflexivity.
Qed.

Lemma existsb_isPromise_app (l : list SSRBufferItem) (x : SSRBufferItem) :
  existsb isPromise (l ++ [x]) = (existsb isPromise l || isPromise x)%bool.
Proof. rewrite existsb_app. cbn. rewrite orb_false_r. reflexivity. Qed.

(** One push: the invariant, the text, the pending results, the flag. *)
Lemma push_step (item : SSRBufferItem) (b : Buffer) :
  invariant b ->
  invariant (push item b)
  /\ bufferText (buffer (push item b)) = bufferText (buffer b) ++ itemText item
  /\ existsb isPromise (buffer (push item b))
     = (existsb isPromise (buffer b) || isPromise item)%bool
  /\ hasAsync (push item b) = (hasAsync b || isPromise item)%bool.
Proof.
  intros [Hadj Happ]. unfold invariant, push.
  destruct item as [s | items | p r]; cbn [isString isArray negb andb buffer
                                            appendable hasAsync].
  - destruct (appendable b) eqn:E.
    + symmetry in Happ. destruct (lastIsString_true _ Happ) as [l [s' Hl]].
      rewrite Hl in *. rewrite updateLast_app. cbn [appendTo].
      rewrite noAdjacentStrings_app in *. rewrite lastIsString_app.
      rewrite !bufferText_app, !existsb_isPromise_app. cbn [itemText isString].
      unfold isPromise. cbn. rewrite !orb_false_r.
      repeat split; try assumption.
      unfold bufferText. rewrite append_assoc. reflexivity.
    + rewrite noAdjacentStrings_app, lastIsString_app, <- Happ, Hadj.
      rewrite bufferText_app, existsb_isPromise_app.
      unfold isPromise. cbn. rewrite !orb_false_r. repeat split.
  - rewrite noAdjacentStrings_app, lastIsString_app, Hadj.
    rewrite bufferText_app, existsb_isPromise_app.
    unfold isPromise. cbn. rewrite andb_false_r, !orb_false_r. repeat split.
  - rewrite noAdjacentStrings_app, lastIsString_app, Hadj.
    rewrite bufferText_app, existsb_isPromise_app.
    unfold isPromise. cbn. rewrite andb_false_r, !orb_true_r. repeat split.
Qed.

Lemma pushAll_steps (items : list SSRBufferItem) :
  forall b, invariant b ->
  invariant (pushAll items b)
  /\ bufferText (buffer (pushAll items b))
     = bufferText (buffer b) ++ concatAll (map itemText items)
  /\ existsb isPromise (buffer (pushAll items b))
     = (existsb isPromise (buffer b) || existsb isPromise items)%bool
  /\ hasAsync (pushAll items b) = (hasAsync b || existsb isPromise items)%bool.
Proof.
  induction items as [|item items IH]; intros b Hb.
  - cbn. rewrite append_nil_r, !orb_false_r. auto.
  - destruct (push_step item b Hb) as [Hinv [Htext [Hprom Hflag]]].
    destruct (IH _ Hinv) as [Hinv' [Htext' [Hprom' Hflag']]].
    cbn [pushAll fold_left] in *. unfold pushAll in *.
    rewrite Htext', Hprom', Hflag', Htext, Hprom, Hflag.
    cbn [map concatAll existsb]. rewrite append_assoc, !orb_assoc. auto.
Qed.

Lemma invariant_createBuffer : invariant createBuffer.
Proof. split; reflexivity. Qed.

Lemma unrollBuffer_cons (x : ResolvedItem) (l : list ResolvedItem) :
  unrollBuffer (x :: l) = unrollItem x ++ unrollBuffer l.
Proof. reflexivity. Qed.

Lemma promiseAll_text (l : list SSRBufferItem) :
  unrollBuffer (promiseAll l) = bufferText l.
Proof.
  induction l as [|x l IH]; [reflexivity|].
  change (promiseAll (x :: l)) with (promiseAll [x] ++ promiseAll l)%list.
  cbn [promiseAll map app]. rewrite unrollBuffer_cons.
  unfold bufferText in *. cbn [map concatAll]. rewrite IH.
  destruct x; reflexivity.
Qed.

Lemma asResolved_promiseAll (l : list SSRBufferItem) :
  existsb isPromise l = false -> asResolved l = Some (promiseAll l).
Proof.
  induction l as [|x l IH]; intros H; [reflexivity|].
  cbn [existsb] in H. apply orb_false_elim in H. destruct H as [Hx Hl].
  destruct x as [s | items | p r]; try discriminate; cbn [asResolved];
    rewrite (IH Hl); reflexivity.
Qed.

Lemma appendable_push (item : SSRBufferItem) (b : Buffer) :
  appendable (push item b) = isString item.
Proof. reflexivity. Qed.

Lemma buffer_push_string (t : string) (b : Buffer) :
  appendable b = true ->
  buffer (push (ItemString t) b) = updateLast (appendTo t) (buffer b).
Proof. intros H. unfold push. cbn. rewrite H. reflexivity. Qed.

Lemma push_string_twice (b : Buffer) (s t : string) :
  invariant b ->
  exists l s',
    buffer (push (ItemString s) b) = (l ++ [ItemString s'])%list
    /\ buffer (push (ItemString t) (push (ItemString s) b))
       = (l ++ [ItemString (s' ++ t)])%list.
Proof.
  intros Hb.
  destruct (push_step (ItemString s) b Hb) as [[_ Happ] _].
  rewrite appendable_push in Happ. cbn [isString] in Happ.
  destruct (lastIsString_true _ (eq_sym Happ)) as [l [s' Hl]].
  exists l, s'. split; [exact Hl|].
  rewrite buffer_push_string by apply appendable_push.
  rewrite Hl, updateLast_app. reflexivity.
Qed.

(** C9: after any sequence of pushes on a buffer made by [createBuffer],
    (1) no two neighbouring entries of the buffer are strings, and a
    string pushed right after a string is appended to the last entry
    instead of making a new one; (2) [hasAsync] is true exactly when an
    item that is neither a string nor an array was pushed, and then
    stays true whatever is pushed afterwards; (3) unrolling the resolved
    buffer (the buffer itself when nothing is pending, what
    [Promise.all] makes of it otherwise) gives the concatenation, in
    push order, of the string content of the items pushed. *)
Theorem createBuffer_push (items : list SSRBufferItem) :
  noAdjacentStrings (buffer (pushAll items createBuffer)) = true
  /\ (forall s t,
        exists l s',
          buffer (pushAll (items ++ [ItemString s]) createBuffer)
          = (l ++ [ItemString s'])%list
          /\ buffer (pushAll (items ++ [ItemString s; ItemString t]) createBuffer)
             = (l ++ [ItemString (s' ++ t)])%list)
  /\ hasAsync (pushAll items createBuffer) = existsb isPromise items
  /\ (forall more,
        existsb isPromise items = true ->
        hasAsync (pushAll (items ++ more) createBuffer) = true)
  /\ (exists rb,
        awaitBuffer (pushAll items createBuffer) = Some rb
        /\ unrollBuffer rb = concatAll (map itemText items)).
Proof.
  destruct (pushAll_steps items _ invariant_createBuffer)
    as [Hinv [Htext [Hprom Hflag]]].
  cbn [createBuffer buffer hasAsync existsb orb bufferText map concatAll]
    in Htext, Hprom, Hflag.
  split; [apply Hinv|]. split; [|split; [exact Hflag|split]].
  - intros s t. unfold pushAll. rewrite !fold_left_app. cbn [fold_left].
    apply push_string_twice. exact Hinv.
  - intros more Hex.
    destruct (pushAll_steps (items ++ more) _ invariant_createBuffer)
      as [_ [_ [_ Hflag']]].
    rewrite Hflag'. cbn [createBuffer hasAsync orb].
    rewrite existsb_app, Hex. reflexivity.
  - exists (promiseAll (buffer (pushAll items createBuffer))). split.
    + unfold awaitBuffer. rewrite Hflag.
      destruct (existsb isPromise items) eqn:E; [reflexivity|].
      apply asResolved_promiseAll. exact Hprom.
    + rewrite promiseAll_text. exact Htext.
Qed.

(** Two strings, a nested buffer and a pending child, then a string. *)
Lemma createBuffer_push_witness :
  buffer (pushAll [ItemString "<div>"; ItemString "a";
                   ItemBuffer [RString "<p>"; RBuffer [RString "b"];
                               RString "</p>"];
                   ItemPromise 1 [RString "<i>c</i>"];
                   ItemString "</div>"] createBuffer)
  = [ItemString "<div>a";
     ItemBuffer [RString "<p>"; RBuffer [RString "b"]; RString "</p>"];
     ItemPromise 1 [RString "<i>c</i>"];
     ItemString "</div>"]
  /\ hasAsync (pushAll [ItemString "<div>"; ItemString "a";
                        ItemBuffer [RString "<p>"; RBuffer [RString "b"];
                                    RString "</p>"];
                        ItemPromise 1 [RString "<i>c</i>"];
                        ItemString "</div>";
                        ItemString "tail"] createBuffer) = true
  /\ option_map unrollBuffer
       (awaitBuffer
          (pushAll [ItemString "<div>"; ItemString "a";
                    ItemBuffer [RString "<p>"; RBuffer [RString "b"];
                                RString "</p>"];
                    ItemPromise 1 [RString "<i>c</i>"];
                    ItemString "</div>"] createBuffer))
     = Some "<div>a<p>b</p><i>c</i></div>".
Proof.
  destruct (createBuffer_push
              [ItemString "<div>"; ItemString "a";
               ItemBuffer [RString "<p>"; RBuffer [RString "b"];
                           RString "</p>"];
               ItemPromise 1 [RString "<i>c</i>"];
               ItemString "</div>"])
    as [_ [_ [_ [Hstays [rb [Hrb Htext]]]]]].
  split; [reflexivity|]. split.
  - apply (Hstays [ItemString "tail"]). reflexivity.
  - rewrite Hrb. cbn [option_map]. rewrite Htext. reflexivity.
Defined.

End BufferFacts.

(** ** HTML escaping *)

Module EscapeFacts.
Import Js Shared Ssr StringFacts.

(** One of the five characters that [escapeHtml] escapes. *)
Definition isSpecial (c : ascii) : bool :=
  (Ascii.eqb c "&" || Ascii.eqb c "<" || Ascii.eqb c ">"
   || Ascii.eqb c dquote || Ascii.eqb c "'")%bool.

(** The string has none of them. *)
Fixpoint isSafe (s : string) : bool :=
  match s with
  | EmptyString => true
  | String c s' => (negb (isSpecial c) && isSafe s')%bool
  end.

Fixpoint hasChar (x : ascii) (s : string) : bool :=
  match s with
  | EmptyString => false
  | String c s' => (Ascii.eqb c x || hasChar x s')%bool
  end.

Ltac by_cases_on c :=
  destruct c as [[] [] [] [] [] [] [] []]; vm_compute; try reflexivity;
  try discriminate; auto.

Lemma escapeChar_plain (c : ascii) :
  isSpecial c = false -> escapeChar c = String c EmptyString.
Proof. by_cases_on c. Qed.

Lemma escapeChar_special (c : ascii) :
  isSpecial c = true ->
  exists rest, escapeChar c = String "&" rest
               /\ (1 < String.length (escapeChar c))%nat.
Proof.
  destruct c as [[] [] [] [] [] [] [] []]; vm_compute; try discriminate;
    intros _; eexists; (split; [reflexivity | lia]).
Qed.

Lemma escapeChar_no_lt (c : ascii) : hasChar "<" (escapeChar c) = false.
Proof. by_cases_on c. Qed.

Lemma escapeHtml_safe (s : string) : isSafe s = true -> escapeHtml s = s.
Proof.
  induction s as [|c s IH]; cbn; [reflexivity|].
  intros H. apply andb_prop in H. destruct H as [Hc Hs].
  apply negb_true_iff in Hc. rewrite (escapeChar_plain _ Hc), (IH Hs).
  reflexivity.
Qed.

Lemma escapeHtml_app (a b : string) :
  escapeHtml (a ++ b) = escapeHtml a ++ escapeHtml b.
Proof.
  induction a as [|c a IH]; cbn; [reflexivity|].
  rewrite IH, append_assoc. reflexivity.
Qed.

Lemma hasChar_app (x : ascii) (a b : string) :
  hasChar x (a ++ b) = (hasChar x a || hasChar x b)%bool.
Proof.
  induction a as [|c a IH]; cbn; [reflexivity|].
  rewrite IH, orb_assoc. reflexivity.
Qed.

Lemma escapeHtml_no_lt (s : string) : hasChar "<" (escapeHtml s) = false.
Proof.
  induction s as [|c s IH]; cbn; [reflexivity|].
  rewrite hasChar_app, escapeChar_no_lt, IH. reflexivity.
Qed.

Lemma length_escapeHtml (s : string) :
  (String.length s <= String.length (escapeHtml s))%nat
  /\ (isSafe s = false -> (String.length s < String.length (escapeHtml s))%nat).
Proof.
  induction s as [|c s [IH1 IH2]]; cbn; [split; [lia | discriminate]|].
  rewrite length_append.
  destruct (isSpecial c) eqn:E; cbn.
  - destruct (escapeChar_special _ E) as [rest [_ Hlen]]. split; [lia|].
    intros _. lia.
  - rewrite (escapeChar_plain _ E). cbn. split; [lia|].
    intros H. specialize (IH2 H). lia.
Qed.

Lemma escapeHtml_unsafe (s : string) :
  isSafe s = false -> isSafe (escapeHtml s) = false.
Proof.
  induction s as [|c s IH]; cbn; [discriminate|].
  destruct (isSpecial c) eqn:E; cbn.
  - intros _. destruct (escapeChar_special _ E) as [rest [Hc _]].
    rewrite Hc. reflexivity.
  - intros H. rewrite (escapeChar_plain _ E). cbn. rewrite E, (IH H).
    reflexivity.
Qed.

Lemma isSafe_trimStart (s : string) : isSafe s = true -> isSafe (trimStart s) = true.
Proof.
  induction s as [|c s IH]; cbn; [reflexivity|].
  intros H. destruct (isWhitespace c); [|exact H].
  apply andb_prop in H. apply IH, H.
Qed.

Lemma isSafe_trimEnd (s : string) : isSafe s = true -> isSafe (trimEnd s) = true.
Proof.
  induction s as [|c s IH]; cbn [trimEnd]; [reflexivity|].
  intros H. cbn in H. apply andb_prop in H. destruct H as [Hc Hs].
  specialize (IH Hs). destruct (trimEnd s) as [|c' t].
  - destruct (isWhitespace c); [reflexivity|]. cbn. rewrite Hc. reflexivity.
  - cbn [isSafe]. rewrite Hc. exact IH.
Qed.

Lemma isSafe_trim (s : string) : isSafe s = true -> isSafe (trim s) = true.
Proof. intros H. apply isSafe_trimEnd, isSafe_trimStart, H. Qed.

(** C5, as the specification words it, does not hold: escaping the
    output of an escape again changes it, because the ampersand of an
    entity is escaped in turn. *)
Lemma escaping_twice_differs :
  renderClass (VNode.ClassString "a<b") = "a&lt;b"
  /\ escapeHtml (renderClass (VNode.ClassString "a<b")) = "a&amp;lt;b"
  /\ escapeHtml (escapeHtml "a<b") <> escapeHtml "a<b".
Proof. vm_compute. repeat split. discriminate. Qed.

(** C5 (amended): for a string without any of the five characters,
    [escapeHtml] returns the string, so the value inside the output of
    [renderAttr] is the string itself and [renderClass] returns the
    string with the blanks at its ends trimmed; in every string each
    less-than sign is replaced by its entity, and the output has no
    less-than sign; escaping an output again leaves it as it is exactly
    when the input had none of the five characters. *)
Theorem escapeHtml_properties (s : string) :
  (isSafe s = true ->
   escapeHtml s = s
   /\ (forall k, renderAttr k (AttrString s) = " " ++ k ++ "=" ++ quoted s)
   /\ renderClass (VNode.ClassString s) = trim s)
  /\ (forall a b, escapeHtml (a ++ "<" ++ b)
                  = escapeHtml a ++ "&lt;" ++ escapeHtml b)
  /\ hasChar "<" (escapeHtml s) = false
  /\ (escapeHtml (escapeHtml s) = escapeHtml s <-> isSafe s = true).
Proof.
  split; [|split; [|split]].
  - intros H. split; [apply escapeHtml_safe, H|]. split.
    + intros k. unfold renderAttr. cbn. rewrite (escapeHtml_safe _ H).
      reflexivity.
    + unfold renderClass. cbn [VNode.normalizeClass].
      apply escapeHtml_safe, isSafe_trim, H.
  - intros a b. rewrite !escapeHtml_app. reflexivity.
  - apply escapeHtml_no_lt.
  - split.
    + intros H. destruct (isSafe s) eqn:E; [reflexivity|].
      apply escapeHtml_unsafe in E.
      destruct (length_escapeHtml (escapeHtml s)) as [_ Hlt].
      specialize (Hlt E). rewrite H in Hlt. lia.
    + intros H. rewrite (escapeHtml_safe _ H). apply escapeHtml_safe, H.
Qed.

Lemma escapeHtml_properties_witness :
  escapeHtml "btn primary" = "btn primary"
  /\ renderAttr "id" (AttrString "btn primary")
     = " id=" ++ quoted "btn primary"
  /\ renderClass (VNode.ClassString " btn primary ") = "btn primary".
Proof.
  destruct (escapeHtml_properties "btn primary") as [H _].
  destruct (H eq_refl) as [H1 [H2 _]].
  destruct (escapeHtml_properties " btn primary ") as [H' _].
  destruct (H' eq_refl) as [_ [_ H3]].
  split; [exact H1|]. split; [exact (H2 "id") | exact H3].
Defined.

End EscapeFacts.

(** ** Props resolution *)

Module PropsFacts.
Import Js Shared ComponentProps.

(** *** Plain objects *)

Lemma get_set_same {V} (o : obj V) (k : string) (v : V) :
  get (set o k v) k = Some v.
Proof.
  induction o as [|[k' v'] o IH]; cbn.
  - rewrite String.eqb_refl. reflexivity.
  - destruct (String.eqb k' k) eqn:E; cbn.
    + rewrite String.eqb_refl. reflexivity.
    + rewrite E. exact IH.
Qed.

Lemma get_set_other {V} (o : obj V) (k k' : string) (v : V) :
  k <> k' -> get (set o k v) k' = get o k'.
Proof.
  intros Hne. induction o as [|[k0 v0] o IH]; cbn.
  - apply String.eqb_neq in Hne. rewrite Hne. reflexivity.
  - destruct (String.eqb k0 k) eqn:E; cbn.
    + apply String.eqb_eq in E. subst k0.
      apply String.eqb_neq in Hne. rewrite Hne. reflexivity.
    + destruct (String.eqb k0 k'); [reflexivity | exact IH].
Qed.

Lemma set_fresh {V} (o : obj V) (k : string) (v : V) :
  hasOwn o k = false -> set o k v = (o ++ [(k, v)])%list.
Proof.
  unfold hasOwn. induction o as [|[k' v'] o IH]; cbn; [reflexivity|].
  destruct (String.eqb k' k); [discriminate|].
  intros H. rewrite (IH H). reflexivity.
Qed.

Lemma hasOwn_app_single {V} (o : obj V) (k k' : string) (v : V) :
  k <> k' -> hasOwn (o ++ [(k, v)])%list k' = hasOwn o k'.
Proof.
  intros Hne. unfold hasOwn. induction o as [|[k0 v0] o IH]; cbn.
  - apply String.eqb_neq in Hne. rewrite Hne. reflexivity.
  - destruct (String.eqb k0 k'); [reflexivity | exact IH].
Qed.

(** *** The first loop *)

Lemma isListener_total (emits : obj value) (k : string) :
  exists b, isListener emits k = Some b.
Proof.
  unfold isListener. destruct (isOn k) eqn:E; cbn [negb].
  - destruct (hasOwn emits (drop 2 k)); [eauto|].
    destruct (drop 2 k) as [|c rest] eqn:D; [|eauto].
    unfold isOn in E. rewrite D, andb_false_r in E. discriminate.
  - eauto.
Qed.

(** Whether a key is dropped as the listener of a declared event. *)
Definition listens (emits : option (obj value)) (k : string) : bool :=
  match emits with
  | None => false
  | Some e => match isListener e k with Some b => b | None => false end
  end.

(** The loop body without its error case. *)
Definition route (hasDeclaredProps : bool)
    (options : obj (option NormalizedProp)) (emits : option (obj value))
    (l : Locals) (entry : string * value) : Locals :=
  if isReservedProp (fst entry) then l
  else if (hasDeclaredProps && hasOwn options (camelize (fst entry)))%bool
  then setProp (camelize (fst entry)) (snd entry) l
  else if listens emits (fst entry) then l
  else setAttr (fst entry) (snd entry) l.

Lemma routeProp_route hd options emits (l : Locals) (entry : string * value) :
  routeProp hd options emits (Some l) entry = Some (route hd options emits l entry).
Proof.
  unfold routeProp, route, listens. destruct entry as [k v]. cbn [fst snd].
  destruct (isReservedProp k); [reflexivity|].
  destruct (hd && hasOwn options (camelize k))%bool; [reflexivity|].
  destruct emits as [e|]; [|reflexivity].
  destruct (isListener_total e k) as [b Hb]. rewrite Hb.
  destruct b; reflexivity.
Qed.

Lemma routeProps_route hd options emits (raw : Data) :
  forall l, fold_left (routeProp hd options emits) raw (Some l)
            = Some (fold_left (route hd options emits) raw l).
Proof.
  induction raw as [|e raw IH]; intros l; cbn [fold_left]; [reflexivity|].
  rewrite routeProp_route. apply IH.
Qed.

(** The value the raw properties pass for the prop named [nk]: that of
    the last key, not reserved, whose camel-case form is [nk]. *)
Definition incomingFrom (acc : option value) (raw : Data) (nk : string)
  : option value :=
  fold_left
    (fun acc (entry : string * value) =>
       if (negb (isReservedProp (fst entry))
           && String.eqb (camelize (fst entry)) nk)%bool
       then Some (snd entry) else acc)
    raw acc.

Definition incoming (rawProps : option Data) (nk : string) : option value :=
  match rawProps with
  | Some raw => incomingFrom None raw nk
  | None => None
  end.

Lemma incomingFrom_acc (raw : Data) (nk : string) :
  forall acc,
    incomingFrom acc raw nk
    = match incomingFrom None raw nk with Some v => Some v | None => acc end.
Proof.
  induction raw as [|e raw IH]; intros acc; cbn; [reflexivity|].
  unfold incomingFrom in *. cbn [fold_left].
  destruct (negb (isReservedProp (fst e)) && String.eqb (camelize (fst e)) nk)%bool.
  - rewrite (IH (Some (snd e))).
    destruct (fold_left _ raw None); reflexivity.
  - apply IH.
Qed.

Lemma route_props_get options emits (nk : string) (raw : Data) :
  hasOwn options nk = true ->
  forall l,
    get (l_props (fold_left (route true options emits) raw l)) nk
    = match incomingFrom None raw nk with
      | Some v => Some v
      | None => get (l_props l) nk
      end.
Proof.
  intros Hnk. induction raw as [|[k v] raw IH]; intros l; [reflexivity|].
  assert (Hin : incomingFrom None ((k, v) :: raw) nk
                = match incomingFrom None raw nk with
                  | Some v' => Some v'
                  | None => if (negb (isReservedProp k)
                                && String.eqb (camelize k) nk)%bool
                            then Some v else None
                  end)
    by exact (incomingFrom_acc raw nk _).
  cbn [fold_left]. rewrite IH, Hin.
  destruct (incomingFrom None raw nk) as [v'|]; [reflexivity|].
  unfold route. cbn [fst snd andb].
  destruct (isReservedProp k); cbn [negb andb]; [reflexivity|].
  destruct (String.eqb (camelize k) nk) eqn:E.
  - apply String.eqb_eq in E. rewrite E, Hnk. cbn. apply get_set_same.
  - apply String.eqb_neq in E.
    destruct (hasOwn options (camelize k)).
    + cbn. apply get_set_other. exact E.
    + destruct (listens emits k); reflexivity.
Qed.

(** *** The second loop *)

Lemma setProp_get_other (k nk : string) (v : value) (l : Locals) :
  k <> nk -> get (l_props (setProp k v l)) nk = get (l_props l) nk.
Proof. intros H. cbn. apply get_set_other, H. Qed.

Lemma setProp_get_same (k : string) (v : value) (l : Locals) :
  get (l_props (setProp k v l)) k = Some v.
Proof. cbn. apply get_set_same. Qed.

Lemma castProp_other options (l : Locals) (k nk : string) :
  k <> nk -> get (l_props (castProp options l k)) nk = get (l_props l) nk.
Proof.
  intros Hne. unfold castProp.
  destruct (get options k) as [[opt|]|]; try reflexivity.
  set (l1 := match opt_default (np_options opt) with
             | Some defaultValue =>
                 if readsUndefined (readProp (l_props l) k)
                 then setProp k match defaultValue with
                                | VFunction _ ret => ret
                                | d => d
                                end l
                 else l
             | None => l
             end).
  assert (H1 : get (l_props l1) nk = get (l_props l) nk).
  { unfold l1. destruct (opt_default (np_options opt)); [|reflexivity].
    destruct (readsUndefined (readProp (l_props l) k)); [|reflexivity].
    apply setProp_get_other, Hne. }
  destruct (shouldCast opt); [|exact H1].
  destruct (negb (hasOwn (l_props l1) k) && _)%bool.
  - rewrite setProp_get_other by exact Hne. exact H1.
  - destruct (shouldCastTrue opt && _)%bool; [|exact H1].
    rewrite setProp_get_other by exact Hne. exact H1.
Qed.

Lemma readProp_held (p : Data) (k : string) (v : value) :
  get p k = Some v -> readProp p k = Held v.
Proof. intros H. unfold readProp. rewrite H. reflexivity. Qed.

Section OneProp.

Variable options : obj (option NormalizedProp).
Variable nk : string.
Variable np : NormalizedProp.
Hypothesis Hnp : get options nk = Some (Some np).
Hypothesis Hcast : shouldCast np = true.

Lemma castProp_sets_false (l : Locals) :
  opt_default (np_options np) = None ->
  get (l_props l) nk = None ->
  get (l_props (castProp options l nk)) nk = Some (VBool false).
Proof.
  intros Hdef Hget. unfold castProp. rewrite Hnp, Hdef, Hcast.
  unfold hasOwn. rewrite Hget. cbn. apply get_set_same.
Qed.

Lemma castProp_keeps_bool (b : bool) (l : Locals) :
  get (l_props l) nk = Some (VBool b) ->
  get (l_props (castProp options l nk)) nk = Some (VBool b).
Proof.
  intros Hget. unfold castProp. rewrite (readProp_held _ _ _ Hget).
  rewrite Hnp, Hcast.
  cbn [readsUndefined readsString isUndefined strictEqString orb].
  assert (Hl1 : match opt_default (np_options np) with
                | Some _ => l
                | None => l
                end = l) by (destruct (opt_default (np_options np)); reflexivity).
  rewrite Hl1. unfold hasOwn. rewrite Hget. cbn [negb andb].
  rewrite andb_false_r. exact Hget.
Qed.

Lemma castProp_sets_true (cur : string) (l : Locals) :
  shouldCastTrue np = true ->
  get (l_props l) nk = Some (VString cur) ->
  cur = EmptyString \/ cur = hyphenate nk ->
  get (l_props (castProp options l nk)) nk = Some (VBool true).
Proof.
  intros Htrue Hget Hcur. unfold castProp. rewrite (readProp_held _ _ _ Hget).
  rewrite Hnp, Hcast, Htrue.
  cbn [readsUndefined readsString isUndefined strictEqString].
  assert (Hl1 : match opt_default (np_options np) with
                | Some _ => l
                | None => l
                end = l) by (destruct (opt_default (np_options np)); reflexivity).
  rewrite Hl1. unfold hasOwn. rewrite Hget. cbn [negb andb].
  assert (Heq : (String.eqb cur EmptyString || String.eqb cur (hyphenate nk))%bool
                = true).
  { destruct Hcur as [-> | ->]; [reflexivity|].
    rewrite String.eqb_refl. apply orb_true_r. }
  rewrite Heq. apply setProp_get_same.
Qed.

Lemma castProps_keep_bool (b : bool) (ks : list string) :
  forall l,
    get (l_props l) nk = Some (VBool b) ->
    get (l_props (fold_left (castProp options) ks l)) nk = Some (VBool b).
Proof.
  induction ks as [|k ks IH]; intros l Hget; [exact Hget|].
  cbn [fold_left]. apply IH.
  destruct (String.eqb k nk) eqn:E.
  - apply String.eqb_eq in E. subst k. apply castProp_keeps_bool, Hget.
  - apply String.eqb_neq in E. rewrite castProp_other by exact E. exact Hget.
Qed.

Lemma castProps_set_false (ks : list string) :
  opt_default (np_options np) = None ->
  In nk ks ->
  forall l,
    get (l_props l) nk = None ->
    get (l_props (fold_left (castProp options) ks l)) nk = Some (VBool false).
Proof.
  intros Hdef. induction ks as [|k ks IH]; intros Hin l Hget; [contradiction|].
  cbn [fold_left].
  destruct (String.eqb k nk) eqn:E.
  - apply String.eqb_eq in E. subst k.
    apply castProps_keep_bool, castProp_sets_false; assumption.
  - apply String.eqb_neq in E. destruct Hin as [Hk | Hin]; [contradiction|].
    apply IH; [exact Hin|]. rewrite castProp_other by exact E. exact Hget.
Qed.

Lemma castProps_set_true (cur : string) (ks : list string) :
  shouldCastTrue np = true ->
  cur = EmptyString \/ cur = hyphenate nk ->
  In nk ks ->
  forall l,
    get (l_props l) nk = Some (VString cur) ->
    get (l_props (fold_left (castProp options) ks l)) nk = Some (VBool true).
Proof.
  intros Htrue Hcur. induction ks as [|k ks IH]; intros Hin l Hget;
    [contradiction|].
  cbn [fold_left].
  destruct (String.eqb k nk) eqn:E.
  - apply String.eqb_eq in E. subst k.
    apply castProps_keep_bool. eapply castProp_sets_true; eassumption.
  - apply String.eqb_neq in E. destruct Hin as [Hk | Hin]; [contradiction|].
    apply IH; [exact Hin|]. rewrite castProp_other by exact E. exact Hget.
Qed.

End OneProp.

(** *** Normalization of the declarations *)

(** The declarations are normalized afresh: they declare no prop named
    [_n], or declare it as [null], so that the memo read finds nothing. *)
Definition readsNoMemo (decls : obj RawProp) : bool :=
  match memoOf decls with Some _ => false | None => true end.

(** No declared name has the camel-case form [__proto__]. *)
Definition declaresNoProto (decls : obj RawProp) : bool :=
  forallb (fun k => negb (String.eqb (camelize k) "__proto__")) (keys decls).

Lemma normalizePropsOptions_fresh (decls : obj RawProp) :
  readsNoMemo decls = true ->
  normalizePropsOptions (Some (PropsObject decls))
  = Entry (fst (fold_left normalizeDecl decls ([], [])))
          (snd (fold_left normalizeDecl decls ([], []))).
Proof.
  unfold readsNoMemo, normalizePropsOptions. intros H.
  destruct (memoOf decls) as [memo|]; [discriminate|].
  destruct (fold_left normalizeDecl decls ([], [])); reflexivity.
Qed.

Lemma normalizePropsOptions_entry (decls : obj RawProp)
    (options : obj (option NormalizedProp)) (needCastKeys : list string) :
  normalizePropsOptions (Some (PropsObject decls)) = Entry options needCastKeys ->
  readsNoMemo decls = true
  /\ fold_left normalizeDecl decls ([], []) = (options, needCastKeys).
Proof.
  unfold readsNoMemo, normalizePropsOptions.
  destruct (memoOf decls) as [memo|]; [discriminate|].
  destruct (fold_left normalizeDecl decls ([], [])) as [n ks].
  intros H. injection H as <- <-. split; reflexivity.
Qed.

(** What holds of every declaration kept by [normalizePropsOptions]. *)
Definition flagsAgree (acc : NormalizedPropsOptions) : Prop :=
  forall k np,
    get (fst acc) k = Some (Some np) ->
    shouldCast np = (-1 <? getTypeIndex Boolean (opt_type (np_options np)))
    /\ shouldCastTrue np
       = ((getTypeIndex String_ (opt_type (np_options np)) <? 0)
          || (getTypeIndex Boolean (opt_type (np_options np))
              <? getTypeIndex String_ (opt_type (np_options np))))%bool
    /\ (shouldCast np = true -> In k (snd acc)).

Lemma normalizeDecl_flagsAgree (acc : NormalizedPropsOptions)
    (entry : string * RawProp) :
  flagsAgree acc -> flagsAgree (normalizeDecl acc entry).
Proof.
  intros Hacc. destruct acc as [normalized needCastKeys].
  destruct entry as [k opt]. unfold normalizeDecl.
  destruct (validatePropName (camelize k)); [|exact Hacc].
  set (prop := match opt with
               | RawNull => None
               | RawCtor c => Some (mkPropOptions (TypeCtor c) false None None)
               | RawCtorArray cs =>
                   Some (mkPropOptions (TypeArray cs) false None None)
               | RawOptions o => Some o
               end).
  assert (Hold : forall (ks : list string) k' np',
             (forall x, In x needCastKeys -> In x ks) ->
             get normalized k' = Some (Some np') ->
             shouldCast np'
             = (-1 <? getTypeIndex Boolean (opt_type (np_options np')))
             /\ shouldCastTrue np'
                = ((getTypeIndex String_ (opt_type (np_options np')) <? 0)
                   || (getTypeIndex Boolean (opt_type (np_options np'))
                       <? getTypeIndex String_ (opt_type (np_options np'))))%bool
             /\ (shouldCast np' = true -> In k' ks)).
  { intros ks k' np' Hks Hget.
    destruct (Hacc k' np' Hget) as [H1 [H2 H3]]. repeat split; auto. }
  assert (Hgrow : forall (c : bool) x,
             In x needCastKeys ->
             In x (if c then (needCastKeys ++ [camelize k])%list
                   else needCastKeys)).
  { intros c x Hx. destruct c; [apply in_or_app; left|]; exact Hx. }
  destruct prop as [o|]; intros k' np' Hget; cbn [fst snd] in *;
    unfold assign in Hget;
    destruct (String.eqb (camelize k) "__proto__");
    try (apply Hold; [apply Hgrow || auto | exact Hget]).
  - destruct (String.eqb (camelize k) k') eqn:E.
    + apply String.eqb_eq in E. subst k'. rewrite get_set_same in Hget.
      injection Hget as <-. cbn [shouldCast shouldCastTrue np_options].
      repeat split. intros Hb. rewrite Hb. cbn. apply in_or_app. right.
      left. reflexivity.
    + apply String.eqb_neq in E. rewrite get_set_other in Hget by exact E.
      apply Hold; [apply Hgrow | exact Hget].
  - destruct (String.eqb (camelize k) k') eqn:E.
    + apply String.eqb_eq in E. subst k'. rewrite get_set_same in Hget.
      discriminate.
    + apply String.eqb_neq in E. rewrite get_set_other in Hget by exact E.
      exact (Hacc k' np' Hget).
Qed.

Lemma normalizeDecls_flagsAgree (decls : obj RawProp) :
  forall acc, flagsAgree acc -> flagsAgree (fold_left normalizeDecl decls acc).
Proof.
  induction decls as [|d decls IH]; intros acc Hacc; [exact Hacc|].
  cbn [fold_left]. apply IH, normalizeDecl_flagsAgree, Hacc.
Qed.

Lemma normalizePropsOptions_flagsAgree (decls : obj RawProp)
    (options : obj (option NormalizedProp)) (needCastKeys : list string) :
  normalizePropsOptions (Some (PropsObject decls)) = Entry options needCastKeys ->
  flagsAgree (options, needCastKeys).
Proof.
  intros H. apply normalizePropsOptions_entry in H. destruct H as [_ <-].
  apply normalizeDecls_flagsAgree. intros k np H. discriminate.
Qed.

(** *** Boolean casting *)

Definition dollarComponent : Component :=
  mkComponent (Some (PropsObject [("$flag", RawCtor Boolean)])) None.


(** Nor does it hold of a prop named [_n]: declared with the type
    [Boolean], it is taken by [normalizePropsOptions] for the entry kept
    from an earlier call, and [resolveProps] throws. *)
Lemma memo_prop_throws :
  normalizePropsOptions (Some (PropsObject [("_n", RawCtor Boolean)]))
  = Found (RawCtor Boolean)
  /\ resolveProps 16 2
       (mkInstance (mkComponent (Some (PropsObject [("_n", RawCtor Boolean)]))
                                None)
                   None 0 4 [] [])
       (Some [])
     = None.
Proof. split; reflexivity. Qed.

(** With an array of two constructors declared under [_n], the first is
    taken for the normalized declarations and the second for the keys
    to cast: a [Boolean] prop declared beside it is no prop at all, and
    is passed on as an attribute, while [name], a property of every
    function, counts as declared. *)
Lemma memo_of_constructors_declares_nothing :
  option_map
    (fun i => (props i, attrs i))
    (resolveProps 16 2
       (mkInstance
          (mkComponent
             (Some (PropsObject [("_n", RawCtorArray [Boolean; String_]);
                                 ("flag", RawCtor Boolean)]))
             None)
          None 0 4 [] [])
       (Some [("flag", VString EmptyString); ("name", VString "x")]))
  = Some ([("name", VString "x")], [("flag", VString EmptyString)]).
Proof. reflexivity. Qed.


Definition flagDeclarations : obj RawProp :=
  [("flag", RawCtor Boolean); ("my-flag", RawCtorArray [Boolean; String_])].

Definition flagComponent : Component :=
  mkComponent (Some (PropsObject flagDeclarations))
              (Some (EmitsArray ["change"])).


(** The descriptor slip of [normalizeEmitsOptions] at work: with an event
    named [get] in the array syntax, [resolveProps] throws before any
    prop is resolved. *)
Lemma emits_named_get_throws :
  resolveProps 16 2
    (mkInstance (mkComponent (Some (PropsObject [("flag", RawCtor Boolean)]))
                             (Some (EmitsArray ["get"])))
                None 0 4 [] [])
    (Some [])
  = None.
Proof. reflexivity. Qed.

(** A declaration of the object syntax reaches the normalized options
    under the camel-case form of its name, when that name is valid, is
    not [__proto__], and no later declaration has the same camel-case
    form. *)
Definition optionsOf (rp : RawProp) : option PropOptions :=
  match rp with
  | RawNull => None
  | RawCtor c => Some (mkPropOptions (TypeCtor c) false None None)
  | RawCtorArray cs => Some (mkPropOptions (TypeArray cs) false None None)
  | RawOptions o => Some o
  end.

Lemma normalizeDecls_skip (nk : string) (decls : obj RawProp) :
  (forall k, In k (keys decls) -> camelize k <> nk) ->
  forall acc,
    get (fst (fold_left normalizeDecl decls acc)) nk = get (fst acc) nk.
Proof.
  induction decls as [|[k rp] decls IH]; intros Hne acc; [reflexivity|].
  cbn [fold_left]. rewrite IH.
  - unfold normalizeDecl. destruct acc as [n ks].
    destruct (validatePropName (camelize k)); [|reflexivity].
    assert (Hk : camelize k <> nk) by (apply Hne; left; reflexivity).
    destruct rp; cbn [fst]; apply JsFacts.get_assign_other, Hk.
  - intros k' Hin. apply Hne. right. exact Hin.
Qed.

Lemma declared_prop_normalized (before after : obj RawProp) (k : string)
    (rp : RawProp) (o : PropOptions) :
  readsNoMemo (before ++ (k, rp) :: after)%list = true ->
  optionsOf rp = Some o ->
  validatePropName (camelize k) = true ->
  camelize k <> "__proto__" ->
  (forall k', In k' (keys after) -> camelize k' <> camelize k) ->
  exists options needCastKeys np,
    normalizePropsOptions (Some (PropsObject (before ++ (k, rp) :: after)%list))
    = Entry options needCastKeys
    /\ get options (camelize k) = Some (Some np)
    /\ np_options np = o.
Proof.
  intros Hmemo Ho Hvalid Hproto Hafter.
  rewrite (normalizePropsOptions_fresh _ Hmemo).
  rewrite fold_left_app. cbn [fold_left].
  eexists. eexists.
  assert (Hget : exists np,
             get (fst (fold_left normalizeDecl after
                         (normalizeDecl
                            (fold_left normalizeDecl before ([], [])) (k, rp))))
                 (camelize k)
             = Some (Some np)
             /\ np_options np = o).
  { rewrite normalizeDecls_skip by exact Hafter.
    destruct (fold_left normalizeDecl before ([], [])) as [n ks].
    unfold normalizeDecl. rewrite Hvalid.
    destruct rp; cbn in Ho; try discriminate; injection Ho as <-;
      cbn [fst]; rewrite JsFacts.get_assign_same by exact Hproto;
      eexists; split; reflexivity. }
  destruct Hget as [np [Hget Hnp]]. exists np.
  split; [reflexivity|]. split; [exact Hget | exact Hnp].
Qed.

(** *** Routing *)

Definition attrsOf (l : Locals) : Data :=
  match l_attrs l with Some a => a | None => [] end.

(** Neither reserved nor declared. *)
Definition undeclared (options : obj (option NormalizedProp))
    (entry : string * value) : bool :=
  (negb (isReservedProp (fst entry))
   && negb (hasOwn options (camelize (fst entry))))%bool.

Lemma route_attrs options emits (raw : Data) :
  (forall k, listens emits k = false) ->
  NoDup (keys raw) ->
  forall l,
    (forall k, In k (keys raw) -> hasOwn (attrsOf l) k = false) ->
    attrsOf (fold_left (route true options emits) raw l)
    = (attrsOf l ++ filter (undeclared options) raw)%list.
Proof.
  intros Hdeaf.
  induction raw as [|[k v] raw IH]; intros Hnd l Hfresh.
  - cbn. rewrite app_nil_r. reflexivity.
  - inversion Hnd as [|? ? Hnotin Hnd']; subst. cbn [fold_left filter].
    assert (Hu : undeclared options (k, v)
                 = (negb (isReservedProp k)
                    && negb (hasOwn options (camelize k)))%bool)
      by reflexivity.
    assert (Hr : route true options emits l (k, v)
                 = if isReservedProp k then l
                   else if hasOwn options (camelize k)
                        then setProp (camelize k) v l
                        else setAttr k v l)
      by (unfold route; cbn [fst snd andb]; rewrite Hdeaf; reflexivity).
    rewrite Hu, Hr. clear Hu Hr.
    destruct (isReservedProp k); cbn [negb andb].
    + apply IH; [exact Hnd'|]. intros k' Hin. apply Hfresh. right. exact Hin.
    + destruct (hasOwn options (camelize k)); cbn [negb].
      * rewrite IH; [reflexivity | exact Hnd' |].
        intros k' Hin. cbn. apply Hfresh. right. exact Hin.
      * assert (Hset : attrsOf (setAttr k v l) = (attrsOf l ++ [(k, v)])%list).
        { unfold attrsOf at 1, setAttr. cbn [l_attrs].
          apply set_fresh. apply Hfresh. left. reflexivity. }
        rewrite IH; [| exact Hnd' |].
        -- rewrite Hset, <- app_assoc. reflexivity.
        -- intros k' Hin. rewrite Hset. rewrite hasOwn_app_single.
           ++ apply Hfresh. right. exact Hin.
           ++ intros ->. apply Hnotin. exact Hin.
Qed.

Definition msgOptions : obj (option NormalizedProp) := [("msg", Some EMPTY_PROP)].

Lemma hasOwn_msgOptions (k : string) :
  hasOwn msgOptions k = String.eqb k "msg".
Proof.
  unfold hasOwn, msgOptions. cbn [get]. rewrite String.eqb_sym.
  destruct (String.eqb k "msg"); reflexivity.
Qed.

Lemma route_props_msg emits (raw : Data) :
  forall l,
    l_props l = [] \/ (exists v, l_props l = [("msg", v)]) ->
    l_props (fold_left (route true msgOptions emits) raw l)
    = match incomingFrom None raw "msg" with
      | Some v => [("msg", v)]
      | None => l_props l
      end.
Proof.
  induction raw as [|[k v] raw IH]; intros l Hshape; [reflexivity|].
  assert (Hin : incomingFrom None ((k, v) :: raw) "msg"
                = match incomingFrom None raw "msg" with
                  | Some v' => Some v'
                  | None => if (negb (isReservedProp k)
                                && String.eqb (camelize k) "msg")%bool
                            then Some v else None
                  end)
    by exact (incomingFrom_acc raw "msg" _).
  cbn [fold_left]. rewrite Hin.
  assert (Hstep : l_props (route true msgOptions emits l (k, v))
                  = if (negb (isReservedProp k)
                        && String.eqb (camelize k) "msg")%bool
                    then [("msg", v)] else l_props l).
  { unfold route. cbn [fst snd andb]. rewrite hasOwn_msgOptions.
    destruct (isReservedProp k); cbn [negb andb]; [reflexivity|].
    destruct (String.eqb (camelize k) "msg") eqn:E;
      [|destruct (listens emits k); reflexivity].
    apply String.eqb_eq in E. rewrite E. cbn [setProp l_props].
    destruct Hshape as [-> | [v0 ->]]; reflexivity. }
  rewrite IH.
  - rewrite Hstep. destruct (incomingFrom None raw "msg"); [reflexivity|].
    destruct (negb (isReservedProp k) && String.eqb (camelize k) "msg")%bool;
      reflexivity.
  - rewrite Hstep.
    destruct (negb (isReservedProp k) && String.eqb (camelize k) "msg")%bool;
      [right; eauto | exact Hshape].
Qed.

(** Not reserved and not the declared prop [msg]. *)
Definition fallsThrough (entry : string * value) : bool :=
  (negb (isReservedProp (fst entry))
   && negb (String.eqb (camelize (fst entry)) "msg"))%bool.

(** No emits: the option is absent, or an empty array. *)
Definition declaresNoEmits (c : Component) : Prop :=
  c_emits c = None \/ c_emits c = Some (EmitsArray []).

Lemma listens_nothing (k : string) : listens (Some []) k = false.
Proof.
  unfold listens. destruct (isListener_total [] k) as [b Hb]. rewrite Hb.
  unfold isListener in Hb. destruct (negb (isOn k)); [congruence|].
  cbn [hasOwn get] in Hb. destruct (drop 2 k); congruence.
Qed.

Lemma resolveProps_msg (FULL_PROPS FUNCTIONAL_COMPONENT : Z)
    (instance : ComponentInternalInstance) (raw : Data) :
  c_props (type instance) = Some (PropsArray ["msg"]) ->
  declaresNoEmits (type instance) ->
  NoDup (keys raw) ->
  exists instance',
    resolveProps FULL_PROPS FUNCTIONAL_COMPONENT instance (Some raw)
    = Some instance'
    /\ props instance' = match incoming (Some raw) "msg" with
                         | Some v => [("msg", v)]
                         | None => []
                         end
    /\ attrs instance' = filter fallsThrough raw.
Proof.
  intros Hp He Hnd.
  assert (Hemits : exists emits,
             normalizeEmitsOptions (c_emits (type instance)) = Some emits
             /\ forall k, listens emits k = false).
  { destruct He as [-> | ->].
    - exists None. split; reflexivity.
    - exists (Some []). split; [reflexivity | apply listens_nothing]. }
  destruct Hemits as [emits [Hnorm Hdeaf]].
  unfold resolveProps. rewrite Hp, Hnorm.
  change (entryOf (normalizePropsOptions (Some (PropsArray ["msg"]))))
    with (Some (msgOptions, @nil string)).
  cbv beta iota.
  rewrite routeProps_route. eexists. split; [reflexivity|].
  cbn [props attrs fold_left]. rewrite andb_false_r. split.
  - rewrite route_props_msg by (left; reflexivity). reflexivity.
  - change (match l_attrs ?l with Some a => a | None => EMPTY_OBJ end)
      with (attrsOf l).
    rewrite (route_attrs _ _ _ Hdeaf); [| exact Hnd | intros; reflexivity].
    cbn [attrsOf l_attrs app]. apply filter_ext. intros [k v].
    unfold undeclared, fallsThrough. rewrite hasOwn_msgOptions. reflexivity.
Qed.



End PropsFacts.

(** ** Strings: occurrences, [indexOf], [substr], [trim] *)

Module TextFacts.
Import Js StringFacts.

Lemma len_app (a b : string) : len (a ++ b) = len a + len b.
Proof. unfold len. rewrite length_append. lia. Qed.

Lemma len_nonneg (s : string) : 0 <= len s.
Proof. unfold len. lia. Qed.

Lemma drop_app (u v : string) : drop (String.length u) (u ++ v) = v.
Proof. induction u as [|x u IH]; cbn; [now destruct v | exact IH]. Qed.

Lemma take_app (t v : string) : take (String.length t) (t ++ v) = t.
Proof. induction t as [|x t IH]; cbn; [reflexivity | now rewrite IH]. Qed.

Lemma take_drop (n : nat) (s : string) : take n s ++ drop n s = s.
Proof.
  revert s. induction n as [|n IH]; intros [|c s]; cbn; try reflexivity.
  now rewrite IH.
Qed.

Lemma length_take_le (n : nat) (s : string) :
  (n <= String.length s)%nat -> String.length (take n s) = n.
Proof.
  revert s. induction n as [|n IH]; intros [|c s] H; cbn in *; try lia.
  rewrite IH; lia.
Qed.

Lemma prefix_app (t v : string) : String.prefix t (t ++ v) = true.
Proof.
  induction t as [|x t IH]; cbn; [now destruct v|].
  destruct (Ascii.ascii_dec x x); [exact IH | contradiction].
Qed.

Lemma prefix_split (t s : string) :
  String.prefix t s = true -> exists v, s = t ++ v.
Proof.
  revert s. induction t as [|x t IH]; intros s H.
  - now exists s.
  - destruct s as [|y s]; cbn in H; [discriminate|]. cbn.
    destruct (Ascii.ascii_dec x y) as [->|]; [|discriminate].
    destruct (IH s H) as [v ->]. now exists v.
Qed.

(** [t] occurs in [s] at index [i]. *)
Definition occursAt (s : string) (i : nat) (t : string) : Prop :=
  exists u v, s = u ++ t ++ v /\ String.length u = i.

Lemma occursAt_bound (s t : string) (i : nat) :
  occursAt s i t -> (i + String.length t <= String.length s)%nat.
Proof.
  intros (u & v & -> & <-). rewrite !length_append. lia.
Qed.

Lemma occursAt_take (s t : string) (i : nat) :
  occursAt s i t -> take (String.length t) (drop i s) = t.
Proof.
  intros (u & v & -> & <-). now rewrite drop_app, take_app.
Qed.

Lemma occursAt_prefix (s t t' v : string) (i : nat) :
  occursAt s i t -> t = t' ++ v -> occursAt s i t'.
Proof.
  intros (u & w & -> & <-) ->. exists u, (v ++ w).
  now rewrite append_assoc.
Qed.

Lemma occursAt_app_l (s t w : string) (i : nat) :
  occursAt s i t -> occursAt (s ++ w) i t.
Proof.
  intros (u & v & -> & <-). exists u, (v ++ w).
  now rewrite !append_assoc.
Qed.

Lemma occursAt_app_r (s t w : string) (i : nat) :
  occursAt s i t -> occursAt (w ++ s) (String.length w + i) t.
Proof.
  intros (u & v & -> & <-). exists (w ++ u), v.
  now rewrite append_assoc, length_append.
Qed.

Lemma occursAt_trans (s t r : string) (i j : nat) :
  occursAt s i t -> occursAt t j r -> occursAt s (i + j) r.
Proof.
  intros (u & v & -> & <-) (u' & v' & -> & <-).
  exists (u ++ u'), (v' ++ v). now rewrite !append_assoc, length_append.
Qed.

Lemma occursAt_drop (s t : string) (k j : nat) :
  occursAt s j t -> (k <= j)%nat -> occursAt (drop k s) (j - k) t.
Proof.
  intros (u & v & -> & <-) Hk.
  exists (drop k u), v. split.
  - rewrite <- (take_drop k u) at 1. rewrite append_assoc.
    rewrite <- (length_take_le k u Hk) at 1. now rewrite drop_app.
  - rewrite <- (take_drop k u) at 2.
    rewrite length_append, (length_take_le k u Hk). lia.
Qed.

Lemma occursAt_undrop (s t : string) (k i : nat) :
  (k <= String.length s)%nat ->
  occursAt (drop k s) i t -> occursAt s (k + i) t.
Proof.
  intros Hk H. pose proof (occursAt_app_r _ _ (take k s) _ H) as H'.
  now rewrite take_drop, (length_take_le k s Hk) in H'.
Qed.

Lemma find_occurs (t : string) :
  forall (s : string) (i : nat), find t s = Some i -> occursAt s i t.
Proof.
  induction s as [|c s IH]; intros i H; cbn [find] in H.
  - destruct (String.prefix t EmptyString) eqn:P; [|discriminate].
    injection H as <-. destruct (prefix_split _ _ P) as [v E].
    exists EmptyString, v. now split.
  - destruct (String.prefix t (String c s)) eqn:P.
    + injection H as <-. destruct (prefix_split _ _ P) as [v E].
      exists EmptyString, v. now split.
    + destruct (find t s) as [i'|] eqn:F; [|discriminate].
      injection H as <-.
      destruct (IH i' eq_refl) as (u & v & -> & <-).
      exists (String c u), v. now split.
Qed.

Lemma find_first (t : string) :
  forall (s : string) (j : nat),
    occursAt s j t -> exists i, find t s = Some i /\ (i <= j)%nat.
Proof.
  induction s as [|c s IH]; intros j (u & v & E & <-).
  - destruct u; [|discriminate]. destruct t; [|discriminate].
    exists 0%nat. now split.
  - cbn [find]. destruct (String.prefix t (String c s)) eqn:P.
    + exists 0%nat. split; [reflexivity | lia].
    + destruct u as [|x u].
      * cbn in E. rewrite E, prefix_app in P. discriminate.
      * cbn in E. injection E as -> ->.
        destruct (IH (String.length u)) as (i & -> & Hi).
        { now exists u, v. }
        exists (S i). split; [reflexivity | cbn; lia].
Qed.

(** [indexOf]: when [t] occurs at or after the index the search starts
    from, the result is an occurrence between the two. *)
Lemma indexOf_occurs (s t : string) (from : Z) (j : nat) :
  occursAt s j t -> 0 <= from <= Z.of_nat j ->
  exists i : nat,
    indexOf s t from = Z.of_nat i
    /\ from <= Z.of_nat i <= Z.of_nat j
    /\ occursAt s i t.
Proof.
  intros Hocc Hfrom. unfold indexOf, len.
  pose proof (occursAt_bound _ _ _ Hocc) as Hb.
  replace (Z.to_nat (Z.min (Z.max from 0) (Z.of_nat (String.length s))))
    with (Z.to_nat from) by lia.
  assert (Hk : (Z.to_nat from <= j)%nat) by lia.
  destruct (find_first t _ _ (occursAt_drop _ _ _ _ Hocc Hk)) as (i & F & Hi).
  rewrite F. exists (Z.to_nat from + i)%nat. split; [reflexivity|].
  split; [lia|].
  apply occursAt_undrop; [lia|]. now apply find_occurs.
Qed.

(** [substr] at an occurrence gives back the text that occurs there. *)
Lemma substr_occurs (s t : string) (i : nat) :
  occursAt s i t -> substr s (Z.of_nat i) (Some (len t)) = t.
Proof.
  intros Hocc. pose proof (occursAt_bound _ _ _ Hocc) as Hb.
  unfold substr, len.
  destruct (Z.ltb_spec (Z.of_nat i) 0); [lia|].
  replace (Z.to_nat (Z.min (Z.of_nat i) (Z.of_nat (String.length s))))
    with i by lia.
  rewrite Nat2Z.id. now apply occursAt_take.
Qed.

(** *** Whitespace *)

Definition startsWithWhitespace (s : string) : bool :=
  match s with String c _ => isWhitespace c | EmptyString => false end.

Fixpoint allWhitespace (s : string) : bool :=
  match s with
  | EmptyString => true
  | String c s' => (isWhitespace c && allWhitespace s')%bool
  end.

Fixpoint endsWithWhitespace (s : string) : bool :=
  match s with
  | EmptyString => false
  | String c EmptyString => isWhitespace c
  | String _ s' => endsWithWhitespace s'
  end.

Lemma trimStart_split (s : string) :
  exists ws, s = ws ++ trimStart s /\ allWhitespace ws = true
             /\ startsWithWhitespace (trimStart s) = false.
Proof.
  induction s as [|c s (ws & E & Hws & Hst)]; cbn [trimStart].
  - now exists EmptyString.
  - destruct (isWhitespace c) eqn:W.
    + exists (String c ws). cbn. rewrite W, Hws, <- E. repeat split.
      exact Hst.
    + exists EmptyString. cbn. rewrite W. repeat split.
Qed.

Lemma trimStart_id (s : string) :
  startsWithWhitespace s = false -> trimStart s = s.
Proof. destruct s as [|c s]; cbn; [reflexivity | now intros ->]. Qed.

Lemma trimEnd_split (s : string) :
  exists ws, s = trimEnd s ++ ws /\ allWhitespace ws = true
             /\ endsWithWhitespace (trimEnd s) = false.
Proof.
  induction s as [|c s (ws & E & Hws & Hend)]; cbn [trimEnd].
  - now exists EmptyString.
  - destruct (trimEnd s) as [|d t] eqn:T.
    + destruct (isWhitespace c) eqn:W.
      * exists (String c ws). cbn in E. cbn. rewrite W, Hws, <- E.
        repeat split.
      * exists ws. cbn in E. cbn. rewrite W. subst ws.
        repeat split; assumption.
    + exists ws. rewrite E at 1. cbn. split; [reflexivity|].
      split; [exact Hws|]. exact Hend.
Qed.

Lemma trimEnd_id (s : string) :
  endsWithWhitespace s = false -> trimEnd s = s.
Proof.
  induction s as [|c s IH]; [reflexivity|].
  cbn [endsWithWhitespace trimEnd]. destruct s as [|d s].
  - intros ->. reflexivity.
  - intros H. rewrite (IH H). reflexivity.
Qed.

Lemma trimEnd_starts (s : string) :
  startsWithWhitespace s = false -> startsWithWhitespace (trimEnd s) = false.
Proof.
  destruct s as [|c s]; [reflexivity|]. cbn [startsWithWhitespace trimEnd].
  intros W. destruct (trimEnd s); [rewrite W|]; cbn; exact W.
Qed.

Lemma trim_starts (s : string) : startsWithWhitespace (trim s) = false.
Proof.
  unfold trim. apply trimEnd_starts.
  destruct (trimStart_split s) as (_ & _ & _ & H). exact H.
Qed.

Lemma trim_ends (s : string) : endsWithWhitespace (trim s) = false.
Proof.
  unfold trim. destruct (trimEnd_split (trimStart s)) as (_ & _ & _ & H).
  exact H.
Qed.

(** A text without whitespace at either end is left as it is. *)
Lemma trim_id (s : string) :
  startsWithWhitespace s = false -> endsWithWhitespace s = false ->
  trim s = s.
Proof.
  intros H1 H2. unfold trim. rewrite (trimStart_id _ H1). now apply trimEnd_id.
Qed.

Lemma trim_idempotent (s : string) : trim (trim s) = trim s.
Proof. apply trim_id; [apply trim_starts | apply trim_ends]. Qed.

(** The trimmed text occurs in the text. *)
Lemma trim_occurs (s : string) : exists i, occursAt s i (trim s).
Proof.
  destruct (trimStart_split s) as (ws & E & _ & _).
  destruct (trimEnd_split (trimStart s)) as (ws' & E' & _ & _).
  exists (String.length ws), ws, ws'. split; [|reflexivity].
  unfold trim. now rewrite <- E', <- E.
Qed.

(** Trimming a text that does not start with whitespace keeps a prefix. *)
Lemma trim_prefix (s : string) :
  startsWithWhitespace s = false -> exists ws, s = trim s ++ ws.
Proof.
  intros H. unfold trim. rewrite (trimStart_id _ H).
  destruct (trimEnd_split s) as (ws & E & _). now exists ws.
Qed.

End TextFacts.

(** ** Source positions and ranges (utils.ts) *)

Module PositionFacts.
Import Js VFor.

Lemma countNewlines_empty (n : nat) (i lc lp : Z) :
  countNewlines EmptyString n i lc lp = (lc, lp).
Proof. destruct n; reflexivity. Qed.

(** The loop from any index and counters, in terms of the loop from
    index 0: the count is added, the last newline is shifted. *)
Lemma countNewlines_shift (n : nat) :
  forall (src : string) (i lc lp : Z),
  exists c p : Z,
    countNewlines src n 0 0 (-1) = (c, p)
    /\ countNewlines src n i lc lp = (lc + c, if p =? -1 then lp else i + p)
    /\ 0 <= c <= Z.of_nat n
    /\ -1 <= p < Z.of_nat n
    /\ (p = -1 <-> c = 0).
Proof.
  induction n as [|n IH]; intros src i lc lp.
  - exists 0, (-1). destruct src; cbn [countNewlines Z.eqb Pos.eqb];
      repeat split; try lia; f_equal; lia.
  - destruct src as [|ch src].
    + exists 0, (-1). cbn [countNewlines Z.eqb Pos.eqb].
      repeat split; try lia; f_equal; lia.
    + cbn [countNewlines]. change (0 + 1) with 1.
      destruct (Nat.eqb (code ch) 10).
      * destruct (IH src 1 1 0) as (c & p & Hbase & H1 & Hc & Hp & Hcp).
        destruct (IH src (i + 1) (lc + 1) i) as (c' & p' & Hbase' & H2 & _).
        rewrite Hbase in Hbase'. injection Hbase' as <- <-.
        exists (1 + c), (if p =? -1 then 0 else 1 + p).
        rewrite H1, H2.
        destruct (Z.eqb_spec p (-1)) as [->|Hne].
        -- change (0 =? -1) with false. cbv iota.
           repeat split; try lia; f_equal; lia.
        -- destruct (Z.eqb_spec (1 + p) (-1)); [lia|].
           repeat split; try lia; f_equal; lia.
      * destruct (IH src 1 0 (-1)) as (c & p & Hbase & H1 & Hc & Hp & Hcp).
        destruct (IH src (i + 1) lc lp) as (c' & p' & Hbase' & H2 & _).
        rewrite Hbase in Hbase'. injection Hbase' as <- <-.
        exists c, (if p =? -1 then -1 else 1 + p).
        rewrite H1, H2.
        destruct (Z.eqb_spec p (-1)) as [->|Hne].
        -- change (-1 =? -1) with true. cbv iota.
           repeat split; try lia; f_equal; lia.
        -- destruct (Z.eqb_spec (1 + p) (-1)); [lia|].
           repeat split; try lia; f_equal; lia.
Qed.

(** The loop over [a + b] characters is the loop over [a] characters
    followed by the loop over the next [b]. *)
Lemma countNewlines_app (a : nat) :
  forall (src : string) (b : nat) (i lc lp : Z),
    countNewlines src (a + b) i lc lp
    = let (c, p) := countNewlines src a i lc lp in
      countNewlines (drop a src) b (i + Z.of_nat a) c p.
Proof.
  induction a as [|a IH]; intros src b i lc lp.
  - cbn [Nat.add drop Z.of_nat]. replace (i + 0) with i by lia.
    destruct src; reflexivity.
  - destruct src as [|ch src].
    + destruct b; reflexivity.
    + cbn [Nat.add countNewlines drop].
      replace (i + Z.of_nat (S a)) with (i + 1 + Z.of_nat a) by lia.
      destruct (Nat.eqb (code ch) 10); apply IH.
Qed.

(** X1: Advancing a position by [a] characters and then by [b] characters of
    the rest of the text gives the position reached by advancing by
    [a + b] characters at once: offset, line and column agree. *)
Theorem advancePosition_compose (pos : Position) (src : string) (a b : Z) :
  0 <= a -> 0 <= b ->
  advancePositionWithMutation
    (advancePositionWithMutation pos src a) (drop (Z.to_nat a) src) b
  = advancePositionWithMutation pos src (a + b).
Proof.
  intros Ha Hb. unfold advancePositionWithMutation.
  rewrite (Z2Nat.inj_add a b Ha Hb), countNewlines_app.
  destruct (countNewlines_shift (Z.to_nat a) src 0 0 (-1))
    as (c1 & p1 & Hbase1 & _ & Hc1 & Hp1 & _).
  rewrite Hbase1.
  destruct (countNewlines_shift (Z.to_nat b) (drop (Z.to_nat a) src)
              (0 + Z.of_nat (Z.to_nat a)) c1 p1)
    as (c2 & p2 & Hbase2 & Hshift & Hc2 & Hp2 & _).
  rewrite Hbase2, Hshift. cbn [offset line column].
  rewrite Z2Nat.id in * by lia.
  destruct (Z.eqb_spec p1 (-1)), (Z.eqb_spec p2 (-1));
    repeat match goal with
           | |- context [?x =? -1] => destruct (Z.eqb_spec x (-1)); try lia
           end;
    f_equal; lia.
Qed.

Lemma advancePosition_compose_witness :
  advancePositionWithMutation
    (advancePositionWithMutation (mkPosition 0 1 1)
       (String "a" (String (ascii_of_nat 10) "bc")) 2)
    (drop 2 (String "a" (String (ascii_of_nat 10) "bc"))) 1
  = mkPosition 3 2 2.
Proof.
  refine (eq_trans
            (advancePosition_compose (mkPosition 0 1 1)
               (String "a" (String (ascii_of_nat 10) "bc")) 2 1 _ _)
            _);
    [lia | lia | reflexivity].
Defined.

(** X2: Advancing a position by [n >= 0] characters adds [n] to the offset,
    never moves the line back nor forward by more than [n], and leaves
    a column that is at least 1 when it was. *)
Theorem advancePosition_invariants (pos : Position) (src : string) (n : Z) :
  0 <= n -> 1 <= column pos ->
  offset (advancePositionWithMutation pos src n) = offset pos + n
  /\ line pos <= line (advancePositionWithMutation pos src n) <= line pos + n
  /\ 1 <= column (advancePositionWithMutation pos src n).
Proof.
  intros Hn Hcol. unfold advancePositionWithMutation.
  destruct (countNewlines_shift (Z.to_nat n) src 0 0 (-1))
    as (c & p & Hbase & _ & Hc & Hp & _).
  rewrite Hbase. cbn [offset line column].
  rewrite Z2Nat.id in * by lia.
  destruct (Z.eqb_spec p (-1)); lia.
Qed.

Lemma advancePosition_invariants_witness :
  offset (advancePositionWithMutation (mkPosition 4 2 3) "ab" 2) = 4 + 2
  /\ 2 <= line (advancePositionWithMutation (mkPosition 4 2 3) "ab" 2) <= 2 + 2
  /\ 1 <= column (advancePositionWithMutation (mkPosition 4 2 3) "ab" 2).
Proof.
  apply (advancePosition_invariants (mkPosition 4 2 3) "ab" 2); cbn; lia.
Defined.

End PositionFacts.

Module RangeFacts.
Import Js VFor StringFacts TextFacts.

Lemma length_drop (n : nat) (s : string) :
  String.length (drop n s) = (String.length s - n)%nat.
Proof.
  revert s. induction n as [|n IH]; intros [|c s]; cbn; try reflexivity.
  apply IH.
Qed.

Lemma offset_advance (pos : Position) (src : string) (n : Z) :
  offset (advancePositionWithClone pos src n) = offset pos + n.
Proof.
  unfold advancePositionWithClone, advancePositionWithMutation.
  destruct (countNewlines _ _ _ _ _). reflexivity.
Qed.

(** A range whose text has as many characters as its two offsets are
    apart. *)
Definition consistent (loc : SourceLocation) : Prop :=
  len (loc_source loc) = offset (loc_end loc) - offset (loc_start loc).

Definition lengthOr0 (length : option Z) : Z :=
  match length with Some l => l | None => 0 end.

(** X3: In a development build, the inner range of a consistent range, at
    an offset and with a length that are not negative, is consistent
    again and starts [off] characters further; the call throws exactly
    when the inner range would reach beyond the text. *)
Theorem getInnerRange_consistent
    (loc : SourceLocation) (off : Z) (length : option Z) :
  0 <= off -> 0 <= lengthOr0 length -> consistent loc ->
  match getInnerRange true loc off length with
  | Some r =>
      off + lengthOr0 length <= len (loc_source loc)
      /\ consistent r
      /\ offset (loc_start r) = offset (loc_start loc) + off
      /\ loc_source r = substr (loc_source loc) off length
  | None => len (loc_source loc) < off + lengthOr0 length
  end.
Proof.
  intros Hoff Hlen Hloc. unfold getInnerRange, assert, consistent in *.
  destruct (Z.leb_spec off (len (loc_source loc))) as [H1|H1].
  - destruct length as [l|]; cbn [lengthOr0] in *.
    + destruct (Z.leb_spec (off + l) (len (loc_source loc))) as [H2|H2];
        [|exact H2].
      cbn [loc_source loc_start loc_end]. rewrite !offset_advance.
      repeat split; try lia.
      unfold substr, len in *.
      destruct (Z.ltb_spec off 0); [lia|].
      rewrite length_take_le; [lia|]. rewrite length_drop. lia.
    + cbn [loc_source loc_start loc_end]. rewrite !offset_advance.
      repeat split; try lia.
      unfold substr, len in *.
      destruct (Z.ltb_spec off 0); [lia|].
      rewrite length_drop. lia.
  - pose proof (len_nonneg (loc_source loc)). destruct length; cbn in *; lia.
Qed.

Lemma getInnerRange_consistent_witness :
  match getInnerRange true
          (mkLoc (mkPosition 10 1 11) (mkPosition 22 1 23) "item in list")
          8 (Some 4) with
  | Some r =>
      8 + 4 <= 12
      /\ consistent r
      /\ offset (loc_start r) = 10 + 8
      /\ loc_source r = "list"
  | None => 12 < 8 + 4
  end.
Proof.
  apply (getInnerRange_consistent
           (mkLoc (mkPosition 10 1 11) (mkPosition 22 1 23) "item in list")
           8 (Some 4)); cbn; unfold consistent; cbn; lia.
Defined.

End RangeFacts.

(** ** The alias expression of [v-for] (vFor.ts) *)

Module AliasFacts.
Import Js VFor StringFacts TextFacts.

Lemma skipWhitespace_trimStart (s : string) : skipWhitespace s = trimStart s.
Proof.
  induction s as [|c s IH]; cbn; [reflexivity|]. now rewrite IH.
Qed.

Definition isKeyword (kw : string) : Prop := kw = "in" \/ kw = "of".

(** The last character of [s], or [prev] when [s] is empty. *)
Fixpoint lastFrom (prev : option ascii) (s : string) : option ascii :=
  match s with
  | EmptyString => prev
  | String c s' => lastFrom (Some c) s'
  end.

Definition lastChar (s : string) : option ascii := lastFrom None s.

Lemma forAliasKeyword_split (s rhs : string) :
  forAliasKeyword s = Some rhs ->
  exists kw ws,
    s = kw ++ ws ++ rhs /\ isKeyword kw
    /\ allWhitespace ws = true /\ ws <> EmptyString
    /\ startsWithWhitespace rhs = false.
Proof.
  unfold forAliasKeyword. destruct s as [|a [|b rest]]; try discriminate.
  destruct ((Ascii.eqb a "i" && Ascii.eqb b "n")
            || (Ascii.eqb a "o" && Ascii.eqb b "f"))%bool eqn:K;
    [|discriminate].
  destruct rest as [|c rest']; [discriminate|].
  destruct (isWhitespace c) eqn:W; [|discriminate].
  intros H. injection H as <-. rewrite skipWhitespace_trimStart.
  destruct (trimStart_split (String c rest')) as (ws & E & Hws & Hst).
  exists (String a (String b EmptyString)), ws.
  split; [exact (f_equal (fun x => String a (String b x)) E)|].
  split.
  { apply orb_prop in K. destruct K as [K|K];
      apply andb_prop in K; destruct K as [Ka Kb];
      apply Ascii.eqb_eq in Ka, Kb; subst; [now left | now right]. }
  split; [exact Hws|]. split; [|exact Hst].
  intros ->. cbn [append] in E. rewrite <- E in Hst. cbn in Hst. congruence.
Qed.

Lemma forAliasSeparator_split (prev : option ascii) (s rhs : string) :
  forAliasSeparator prev s = Some rhs ->
  exists sep kw ws,
    s = sep ++ kw ++ ws ++ rhs /\ isKeyword kw
    /\ allWhitespace sep = true
    /\ (sep = EmptyString -> prev = Some ")"%char)
    /\ allWhitespace ws = true /\ ws <> EmptyString
    /\ startsWithWhitespace rhs = false.
Proof.
  unfold forAliasSeparator. intros H.
  assert (Hws : forall r,
             match s with
             | String c _ =>
                 if isWhitespace c then forAliasKeyword (skipWhitespace s)
                 else None
             | EmptyString => None
             end = Some r ->
             exists sep kw ws,
               s = sep ++ kw ++ ws ++ r /\ isKeyword kw
               /\ allWhitespace sep = true
               /\ (sep = EmptyString -> prev = Some ")"%char)
               /\ allWhitespace ws = true /\ ws <> EmptyString
               /\ startsWithWhitespace r = false).
  { intros r Hr. destruct s as [|c s']; [discriminate|].
    destruct (isWhitespace c) eqn:W; [|discriminate].
    rewrite skipWhitespace_trimStart in Hr.
    destruct (trimStart_split (String c s')) as (sep & E & Hsep & _).
    destruct (forAliasKeyword_split _ _ Hr) as (kw & ws & E' & Hkw & Hr').
    exists sep, kw, ws. split; [now rewrite <- E'|].
    split; [exact Hkw|]. split; [exact Hsep|]. split; [|exact Hr'].
    intros ->. cbn [append] in E. rewrite <- E in E'.
    destruct Hkw as [-> | ->]; cbn in E'; injection E' as ->;
      cbn in W; discriminate. }
  destruct prev as [p|]; [|now apply Hws].
  destruct (Ascii.eqb p ")") eqn:P; [|now apply Hws].
  destruct (forAliasKeyword s) as [r|] eqn:K; [|now apply Hws].
  injection H as <-.
  destruct (forAliasKeyword_split _ _ K) as (kw & ws & E & Hkw & Hr).
  exists EmptyString, kw, ws. split; [exact E|]. split; [exact Hkw|].
  split; [reflexivity|]. split; [|exact Hr].
  intros _. apply Ascii.eqb_eq in P. now subst.
Qed.

Lemma forAliasRE_from_split :
  forall (s : string) (prev : option ascii) (lhs rhs : string),
    forAliasRE_from prev s = Some (lhs, rhs) ->
    exists sep kw ws,
      s = lhs ++ sep ++ kw ++ ws ++ rhs /\ isKeyword kw
      /\ allWhitespace sep = true
      /\ (sep = EmptyString -> lastFrom prev lhs = Some ")"%char)
      /\ allWhitespace ws = true /\ ws <> EmptyString
      /\ startsWithWhitespace rhs = false.
Proof.
  induction s as [|c s IH]; intros prev lhs rhs H; cbn [forAliasRE_from] in H.
  - destruct (forAliasSeparator prev EmptyString) as [r|] eqn:S;
      [|discriminate].
    injection H as <- <-. now apply forAliasSeparator_split.
  - destruct (forAliasSeparator prev (String c s)) as [r|] eqn:S.
    + injection H as <- <-. now apply forAliasSeparator_split.
    + destruct (forAliasRE_from (Some c) s) as [[l r]|] eqn:R; [|discriminate].
      injection H as <- <-.
      destruct (IH _ _ _ R) as (sep & kw & ws & E & Hrest).
      exists sep, kw, ws. split; [cbn; now rewrite <- E|]. exact Hrest.
Qed.

(** X4: A match of the in/of expression splits the text into the left-hand
    side, a separator, the keyword [in] or [of], whitespace and the
    right-hand side: the separator is whitespace, or nothing after a
    closing parenthesis; the whitespace after the keyword is not empty
    and the right-hand side does not start with whitespace. *)
Theorem forAliasRE_decomposition (src lhs rhs : string) :
  forAliasRE src = Some (lhs, rhs) ->
  exists sep kw ws,
    src = lhs ++ sep ++ kw ++ ws ++ rhs
    /\ (kw = "in" \/ kw = "of")
    /\ allWhitespace sep = true
    /\ (sep = EmptyString -> lastChar lhs = Some ")"%char)
    /\ allWhitespace ws = true /\ ws <> EmptyString
    /\ startsWithWhitespace rhs = false.
Proof. apply forAliasRE_from_split. Qed.

Lemma forAliasRE_decomposition_witness :
  exists sep kw ws,
    "(a, b)of  list" = "(a, b)" ++ sep ++ kw ++ ws ++ "list"
    /\ (kw = "in" \/ kw = "of")
    /\ allWhitespace sep = true
    /\ (sep = EmptyString -> lastChar "(a, b)" = Some ")"%char)
    /\ allWhitespace ws = true /\ ws <> EmptyString
    /\ startsWithWhitespace "list" = false.
Proof.
  apply (forAliasRE_decomposition "(a, b)of  list" "(a, b)" "list").
  vm_compute. reflexivity.
Defined.

(** *** The iterator expression *)

Lemma spanIterator_split (s : string) :
  s = fst (spanIterator s) ++ snd (spanIterator s).
Proof.
  induction s as [|c s IH]; cbn [spanIterator]; [reflexivity|].
  destruct (isIteratorChar c); [|reflexivity].
  destruct (spanIterator s) as [run rest]. cbn in *. now rewrite <- IH.
Qed.

Definition iteratorTail (g1 : string) (g2 : option string) : string :=
  g1 ++ match g2 with Some g => "," ++ g | None => EmptyString end.

Lemma forIteratorTail_split (s g1 : string) (g2 : option string) :
  forIteratorTail s = Some (g1, g2) -> s = iteratorTail g1 g2.
Proof.
  unfold forIteratorTail, iteratorTail. pose proof (spanIterator_split s) as E.
  destruct (spanIterator s) as [run rest]. cbn in E.
  destruct rest as [|c rest'].
  - intros H. injection H as <- <-. exact E.
  - destruct (Ascii.eqb c ",") eqn:C; [|discriminate].
    pose proof (spanIterator_split rest') as E'.
    destruct (spanIterator rest') as [run2 rest2]. cbn in E'.
    destruct rest2; [|discriminate].
    intros H. injection H as <- <-. apply Ascii.eqb_eq in C. subst c.
    rewrite append_nil_r in E'. now subst.
Qed.

Lemma forIteratorRE_split :
  forall (s before g1 : string) (g2 : option string),
    forIteratorRE s = Some (before, g1, g2) ->
    s = before ++ "," ++ iteratorTail g1 g2.
Proof.
  induction s as [|c s IH]; intros before g1 g2 H; [discriminate|].
  cbn [forIteratorRE] in H.
  destruct (if Ascii.eqb c "," then forIteratorTail s else None)
    as [[h1 h2]|] eqn:Here.
  - injection H as <- <- <-.
    destruct (Ascii.eqb c ",") eqn:C; [|discriminate].
    apply Ascii.eqb_eq in C. subst c.
    cbn. f_equal. now apply forIteratorTail_split.
  - destruct (forIteratorRE s) as [[[b h1] h2]|] eqn:R; [|discriminate].
    injection H as <- <- <-. cbn. f_equal. now apply IH.
Qed.

(** *** Parentheses *)

Lemma stripClosingParen_prefix (s : string) :
  exists v, s = stripClosingParen s ++ v.
Proof.
  induction s as [|c s (v & E)]; [now exists EmptyString|].
  cbn [stripClosingParen]. destruct s as [|d s'].
  - destruct (Ascii.eqb c ")"); [now exists (String c EmptyString)|].
    now exists EmptyString.
  - exists v. exact (f_equal (String c) E).
Qed.

Lemma stripParens_occurs (s : string) :
  exists i, occursAt s i (stripParens s).
Proof.
  unfold stripParens. destruct s as [|c s'].
  - exists 0%nat, EmptyString, EmptyString. now split.
  - destruct (Ascii.eqb c "(").
    + destruct (stripClosingParen_prefix s') as (v & E).
      exists 1%nat, (String c EmptyString), v. split; [|reflexivity].
      exact (f_equal (String c) E).
    + destruct (stripClosingParen_prefix (String c s')) as (v & E).
      exists 0%nat, EmptyString, v. now split.
Qed.

(** *** Where the aliases lie *)

(** The content of the alias occurs in the text at the alias's offset. *)
Definition within (src : string) (a : AliasExpression) : Prop :=
  exists i : nat,
    alias_offset a = Z.of_nat i /\ occursAt src i (alias_content a).

Definition withinOpt (src : string) (a : option AliasExpression) : Prop :=
  match a with Some x => within src x | None => True end.

Lemma occursAt_len (s t : string) (i : nat) :
  occursAt s i t -> Z.of_nat i + len t <= len s.
Proof. intros H. apply occursAt_bound in H. unfold len. lia. Qed.

Lemma parse_within (src : string) (r : AliasExpressions) :
  parseAliasExpressions src = Some r ->
  within src (source r)
  /\ withinOpt src (value r) /\ withinOpt src (key r)
  /\ withinOpt src (index r).
Proof.
  unfold parseAliasExpressions.
  destruct (forAliasRE src) as [[LHS RHS]|] eqn:M; [|discriminate].
  destruct (forAliasRE_from_split _ _ _ _ M)
    as (sep & kw & ws & Esrc & _ & _ & _ & _ & _ & Hrhs).
  (* the source *)
  assert (Hsource : within src (mkAlias (indexOf src RHS (len LHS)) (trim RHS))).
  { assert (Hocc : occursAt src (String.length (LHS ++ sep ++ kw ++ ws)) RHS).
    { exists (LHS ++ sep ++ kw ++ ws), EmptyString. split; [|reflexivity].
      rewrite append_nil_r, !append_assoc. exact Esrc. }
    destruct (indexOf_occurs src RHS (len LHS) _ Hocc) as (i & Ei & _ & Hi).
    { unfold len. rewrite length_append. lia. }
    exists i. split; [exact Ei|]. cbn [alias_content].
    destruct (trim_prefix RHS Hrhs) as (v & Ev).
    now apply (occursAt_prefix _ _ _ _ _ Hi Ev). }
  (* the left-hand side, trimmed and without its parentheses *)
  set (valueContent0 := trim (stripParens (trim LHS))).
  assert (Hstart0 : startsWithWhitespace valueContent0 = false)
    by apply trim_starts.
  assert (Hlhs : forall i t, occursAt LHS i t -> occursAt src i t).
  { intros i t H. rewrite Esrc. now apply occursAt_app_l. }
  destruct (trim_occurs LHS) as (i1 & H1).
  destruct (stripParens_occurs (trim LHS)) as (i2 & H2).
  destruct (trim_occurs (stripParens (trim LHS))) as (i3 & H3).
  pose proof (occursAt_trans _ _ _ _ _ (occursAt_trans _ _ _ _ _ H1 H2) H3)
    as Hv0.
  fold valueContent0 in Hv0.
  destruct (indexOf_occurs LHS valueContent0 0 _ Hv0) as (i0 & Ei0 & _ & Hi0);
    [lia|].
  rewrite Ei0.
  destruct (forIteratorRE valueContent0) as [[[before g1] g2]|] eqn:It.
  - pose proof (forIteratorRE_split _ _ _ _ It) as Ev0.
    (* the value *)
    assert (Hbefore : exists v, before = trim before ++ v).
    { destruct before as [|b before'].
      - now exists EmptyString.
      - apply trim_prefix. rewrite Ev0 in Hstart0. exact Hstart0. }
    destruct Hbefore as (vb & Eb).
    assert (Hlenb : len (trim before) <= len before).
    { rewrite Eb at 2. rewrite len_app. pose proof (len_nonneg vb). lia. }
    assert (Hvalue : occursAt src i0 (trim before)).
    { apply Hlhs. apply (occursAt_prefix _ _ _ (vb ++ "," ++ iteratorTail g1 g2)
                           _ Hi0).
      rewrite Ev0. rewrite Eb at 1. now rewrite append_assoc. }
    (* the key *)
    destruct (trim_occurs g1) as (k1 & Hk1).
    assert (Hkey0 : occursAt valueContent0
                      (String.length (before ++ ",") + k1) (trim g1)).
    { rewrite Ev0. replace (before ++ "," ++ iteratorTail g1 g2)
        with ((before ++ ",") ++ iteratorTail g1 g2)
        by now rewrite append_assoc.
      apply occursAt_app_r. unfold iteratorTail. now apply occursAt_app_l. }
    pose proof (Hlhs _ _ (occursAt_trans _ _ _ _ _ Hi0 Hkey0)) as Hkey.
    destruct (indexOf_occurs src (trim g1)
                (Z.of_nat i0 + len (trim before)) _ Hkey)
      as (ik & Eik & Hik & Hoccik).
    { rewrite length_append. unfold len in *. cbn. lia. }
    rewrite Eik.
    pose proof (occursAt_len _ _ _ Hk1) as Hk1len.
    rewrite length_append in Hik. cbn [String.length] in Hik.
    (* the index *)
    assert (Hindex :
              forall m2 from,
                g2 = Some m2 ->
                0 <= from
                <= Z.of_nat i0 + len before + 1 + len g1 + 1 ->
                within src (mkAlias (indexOf src (trim m2) from) (trim m2))).
    { intros m2 from -> Hfrom.
      destruct (trim_occurs m2) as (k2 & Hk2).
      assert (Hidx0 : occursAt valueContent0
                        (String.length (before ++ "," ++ g1 ++ ",") + k2)
                        (trim m2)).
      { rewrite Ev0. unfold iteratorTail.
        replace (before ++ "," ++ g1 ++ "," ++ m2)
          with ((before ++ "," ++ g1 ++ ",") ++ m2)
          by now rewrite !append_assoc.
        now apply occursAt_app_r. }
      pose proof (Hlhs _ _ (occursAt_trans _ _ _ _ _ Hi0 Hidx0)) as Hidx.
      destruct (indexOf_occurs src (trim m2) from _ Hidx) as (ii & Eii & _ & Hii).
      { rewrite !length_append. unfold len in *. cbn. lia. }
      exists ii. now split. }
    intros H. injection H as <-. cbn [source value key index].
    split; [exact Hsource|].
    split.
    { destruct (nonEmpty (trim before)); [|exact I].
      exists i0. now split. }
    split.
    { destruct (nonEmpty (trim g1)); [|exact I]. exists ik. now split. }
    destruct g2 as [m2|]; [|exact I].
    destruct (nonEmpty m2); [|exact I].
    destruct (nonEmpty (trim m2)); [|exact I].
    cbn [withinOpt]. apply Hindex; [reflexivity|].
    pose proof (len_nonneg (trim g1)). pose proof (len_nonneg (trim before)).
    destruct (nonEmpty (trim g1)); cbn [alias_offset alias_content];
      unfold len in *; lia.
  - intros H. injection H as <-. cbn [source value key index].
    split; [exact Hsource|].
    split; [|split; exact I].
    destruct (nonEmpty valueContent0); [|exact I].
    exists i0. split; [reflexivity|]. now apply Hlhs.
Qed.

(** The content of the alias is the text found in [src] at the alias's
    offset, which lies inside [src]. *)
Definition foundAt (src : string) (a : AliasExpression) : Prop :=
  0 <= alias_offset a
  /\ alias_offset a + len (alias_content a) <= len src
  /\ substr src (alias_offset a) (Some (len (alias_content a)))
     = alias_content a.

Lemma within_foundAt (src : string) (a : AliasExpression) :
  within src a -> foundAt src a.
Proof.
  intros (i & Ei & Hocc). unfold foundAt. rewrite Ei.
  split; [lia|]. split; [now apply occursAt_len|]. now apply substr_occurs.
Qed.

(** X5: Every alias that [parseAliasExpressions] returns lies in the
    expression: its offset is not negative (no search of the function
    ends without a result), offset plus length stay within the text and
    the text at the offset is the content of the alias. *)
Theorem parseAliasExpressions_aliases_found
    (src : string) (r : AliasExpressions) :
  parseAliasExpressions src = Some r ->
  foundAt src (source r)
  /\ forall a,
       value r = Some a \/ key r = Some a \/ index r = Some a ->
       foundAt src a.
Proof.
  intros H. destruct (parse_within _ _ H) as (Hs & Hv & Hk & Hi).
  split; [now apply within_foundAt|].
  intros a [E | [E | E]]; apply within_foundAt;
    [rewrite E in Hv; exact Hv | rewrite E in Hk; exact Hk
     | rewrite E in Hi; exact Hi].
Qed.

Lemma parseAliasExpressions_aliases_found_witness :
  foundAt "(item, key, i) in  map" (mkAlias 19 "map")
  /\ forall a,
       Some (mkAlias 1 "item") = Some a \/ Some (mkAlias 7 "key") = Some a
       \/ Some (mkAlias 12 "i") = Some a ->
       foundAt "(item, key, i) in  map" a.
Proof.
  apply (parseAliasExpressions_aliases_found "(item, key, i) in  map"
           (mkAliases (mkAlias 19 "map") (Some (mkAlias 1 "item"))
                      (Some (mkAlias 7 "key")) (Some (mkAlias 12 "i")))).
  vm_compute. reflexivity.
Defined.

(** X6: The value, key and index aliases that [parseAliasExpressions]
    returns have a content that is not empty and carries no whitespace
    at either end; the content of the source is trimmed as well (it may
    be empty). *)
Theorem parseAliasExpressions_contents_trimmed
    (src : string) (r : AliasExpressions) :
  parseAliasExpressions src = Some r ->
  trim (alias_content (source r)) = alias_content (source r)
  /\ forall a,
       value r = Some a \/ key r = Some a \/ index r = Some a ->
       alias_content a <> EmptyString
       /\ trim (alias_content a) = alias_content a.
Proof.
  unfold parseAliasExpressions.
  destruct (forAliasRE src) as [[LHS RHS]|]; [|discriminate].
  assert (Hne : forall t a b,
             (if nonEmpty (trim t) then Some (mkAlias b (trim t)) else None)
             = Some a ->
             alias_content a <> EmptyString
             /\ trim (alias_content a) = alias_content a).
  { intros t a b H. destruct (nonEmpty (trim t)) eqn:N; [|discriminate].
    injection H as <-. cbn [alias_content]. split; [|apply trim_idempotent].
    intros E. rewrite E in N. discriminate. }
  destruct (forIteratorRE _) as [[[before g1] g2]|];
    intros H; injection H as <-; cbn [source value key index alias_content];
    (split; [apply trim_idempotent|]); intros a [E | [E | E]];
    try discriminate; try (now apply Hne in E).
  destruct g2 as [m2|]; [|discriminate].
  destruct (nonEmpty m2); [|discriminate].
  now apply Hne in E.
Qed.

Lemma parseAliasExpressions_contents_trimmed_witness :
  trim "list" = "list"
  /\ forall a,
       Some (mkAlias 2 "item") = Some a \/ Some (mkAlias 9 "index") = Some a
       \/ None = Some a ->
       alias_content a <> EmptyString
       /\ trim (alias_content a) = alias_content a.
Proof.
  apply (parseAliasExpressions_contents_trimmed "( item , index ) in list "
           (mkAliases (mkAlias 20 "list") (Some (mkAlias 2 "item"))
                      (Some (mkAlias 9 "index")) None)).
  vm_compute. reflexivity.
Defined.

(** *** The transform *)

Lemma parse_some (src : string) :
  forAliasRE src <> None -> exists r, parseAliasExpressions src = Some r.
Proof.
  intros H. unfold parseAliasExpressions.
  destruct (forAliasRE src) as [[LHS RHS]|]; [|contradiction].
  destruct (forIteratorRE _) as [[[before g1] g2]|]; eexists; reflexivity.
Qed.

(** The text of the node's range is the node's content. *)
Definition textIsContent (e : ExpressionNode) : Prop :=
  loc_source (exp_loc e) = exp_content e.

Definition optTextIsContent (e : option ExpressionNode) : Prop :=
  match e with Some x => textIsContent x | None => True end.

Lemma maybeCreateExpression_within
    (DEV : bool) (exp : ExpressionNode) (a : option AliasExpression) :
  textIsContent exp ->
  withinOpt (exp_content exp) a ->
  exists e, maybeCreateExpression DEV a exp = Some e
            /\ optTextIsContent e
            /\ option_map exp_content e = option_map alias_content a.
Proof.
  intros Hexp Ha. destruct a as [a|]; [|now exists None].
  apply within_foundAt in Ha. destruct Ha as (H0 & Hle & Hsub).
  unfold textIsContent in Hexp.
  unfold maybeCreateExpression, getInnerRange, assert. rewrite Hexp.
  pose proof (len_nonneg (alias_content a)).
  destruct (Z.leb_spec (alias_offset a) (len (exp_content exp))); [|lia].
  destruct (Z.leb_spec (alias_offset a + len (alias_content a))
              (len (exp_content exp))); [|lia].
  destruct DEV; eexists; (split; [reflexivity|]); split;
    try reflexivity; exact Hsub.
Qed.

(** X7: Whenever the in/of expression matches the content of the directive's
    expression, and the text of that expression's range is its content,
    the transform replaces the element by a list node and does nothing
    else: none of its assertions on the alias ranges fails, in a
    development build or not.  The text of the range of every
    expression of the list node is that expression's content. *)
Theorem transformFor_replaces_node
    (DEV : bool) (Context : Type)
    (replaceNode : ForNode -> Context -> option Context)
    (onError : CompilerError -> Context -> option Context)
    (node : ElementNode) (dir : DirectiveNode) (exp : ExpressionNode)
    (context : Context) :
  dir_exp dir = Some exp ->
  textIsContent exp ->
  forAliasRE (exp_content exp) <> None ->
  exists n : ForNode,
    transformFor DEV Context replaceNode onError node dir context
    = replaceNode n context
    /\ for_loc n = el_loc node
    /\ for_children n = [node]
    /\ textIsContent (for_source n)
    /\ optTextIsContent (for_valueAlias n)
    /\ optTextIsContent (for_keyAlias n)
    /\ optTextIsContent (for_objectIndexAlias n).
Proof.
  intros Hdir Hexp Hre. unfold transformFor. rewrite Hdir.
  destruct (parse_some _ Hre) as (r & Hr). rewrite Hr.
  destruct (parse_within _ _ Hr) as (Hs & Hv & Hk & Hi).
  destruct (maybeCreateExpression_within DEV exp (Some (source r)) Hexp Hs)
    as (es & -> & Hes & Hcs).
  destruct es as [es|]; [|discriminate].
  destruct (maybeCreateExpression_within DEV exp (value r) Hexp Hv)
    as (ev & -> & Hev & _).
  destruct (maybeCreateExpression_within DEV exp (key r) Hexp Hk)
    as (ek & -> & Hek & _).
  destruct (maybeCreateExpression_within DEV exp (index r) Hexp Hi)
    as (ei & -> & Hei & _).
  eexists. split; [reflexivity|]. cbn. repeat split; assumption.
Qed.

Lemma transformFor_replaces_node_witness :
  exists n : ForNode,
    transformFor true VForFacts.Recorded VForFacts.recordNode
      VForFacts.recordError
      (mkElement "li" (VForFacts.sampleLoc "<li/>"))
      (mkDirective "for" (Some (VForFacts.sampleExp "(v, k, i) of map"))
                   (VForFacts.sampleLoc "v-for"))
      []
    = VForFacts.recordNode n []
    /\ for_loc n = VForFacts.sampleLoc "<li/>"
    /\ for_children n = [mkElement "li" (VForFacts.sampleLoc "<li/>")]
    /\ textIsContent (for_source n)
    /\ optTextIsContent (for_valueAlias n)
    /\ optTextIsContent (for_keyAlias n)
    /\ optTextIsContent (for_objectIndexAlias n).
Proof.
  apply (transformFor_replaces_node true VForFacts.Recorded
           VForFacts.recordNode VForFacts.recordError
           (mkElement "li" (VForFacts.sampleLoc "<li/>"))
           (mkDirective "for" (Some (VForFacts.sampleExp "(v, k, i) of map"))
                        (VForFacts.sampleLoc "v-for"))
           (VForFacts.sampleExp "(v, k, i) of map") []).
  - reflexivity.
  - reflexivity.
  - vm_compute. discriminate.
Defined.

End AliasFacts.

(** ** Identifiers and member expressions (utils.ts) *)

Module UtilsFacts.
Import Js CompilerUtils StringFacts.

Lemma identifierStart_spec (c : ascii) :
  isIdentifierStart c = (isIdentifierChar c && negb (isDigit c))%bool.
Proof. destruct c as [[] [] [] [] [] [] [] []]; reflexivity. Qed.

Lemma wordChar_identifierChar (c : ascii) :
  isWordChar c = true -> isIdentifierChar c = true.
Proof. unfold isIdentifierChar. now intros ->. Qed.

Lemma hasNonIdentifierChar_app (a b : string) :
  hasNonIdentifierChar (a ++ b)
  = (hasNonIdentifierChar a || hasNonIdentifierChar b)%bool.
Proof.
  induction a as [|c a IH]; cbn; [reflexivity|].
  now rewrite IH, orb_assoc.
Qed.

Lemma replaceNonWord_clean (s : string) :
  hasNonIdentifierChar (replaceNonWord s) = false.
Proof.
  induction s as [|c s IH]; cbn; [reflexivity|]. rewrite IH, orb_false_r.
  destruct (isWordChar c) eqn:W.
  - now rewrite (wordChar_identifierChar _ W).
  - reflexivity.
Qed.

Lemma memberRun_identifier (s : string) :
  hasNonIdentifierChar s = false -> memberRun InIdentifier s = true.
Proof.
  induction s as [|c s IH]; [reflexivity|].
  cbn [hasNonIdentifierChar memberRun memberStep].
  destruct (isIdentifierChar c); [exact IH | discriminate].
Qed.

(** X8: Whatever the name of a component or directive, the identifier that
    [toValidAssetId] makes of it is a simple identifier, and a member
    expression. *)
Theorem toValidAssetId_is_identifier (name : string) (ty : AssetType) :
  isSimpleIdentifier (toValidAssetId name ty) = true
  /\ isMemberExpression (toValidAssetId name ty) = true.
Proof.
  assert (Hclean : hasNonIdentifierChar (toValidAssetId name ty) = false).
  { unfold toValidAssetId. rewrite !hasNonIdentifierChar_app.
    rewrite replaceNonWord_clean. now destruct ty. }
  split.
  - unfold isSimpleIdentifier, nonIdentifierRE. rewrite Hclean.
    reflexivity.
  - unfold isMemberExpression. unfold toValidAssetId in *.
    cbn [append hasNonIdentifierChar] in Hclean.
    apply orb_false_elim in Hclean. destruct Hclean as [_ Hrest].
    cbn [append memberRun memberStep].
    change (isIdentifierStart "_") with true. cbv iota.
    now apply memberRun_identifier.
Qed.

(** The state the automaton is in after [s], if it did not get stuck. *)
Fixpoint memberEnd (st : MemberState) (s : string) : option MemberState :=
  match s with
  | EmptyString => Some st
  | String c s' =>
      match memberStep st c with
      | Some st' => memberEnd st' s'
      | None => None
      end
  end.

Definition accepting (st : MemberState) : bool :=
  match st with InIdentifier | AfterClose => true | _ => false end.

Lemma memberRun_end (s : string) :
  forall st,
    memberRun st s
    = match memberEnd st s with Some st' => accepting st' | None => false end.
Proof.
  induction s as [|c s IH]; intros st; cbn; [now destruct st|].
  destruct (memberStep st c); [apply IH | reflexivity].
Qed.

Lemma memberRun_app (p q : string) :
  forall st,
    memberRun st (p ++ q)
    = match memberEnd st p with
      | Some st' => memberRun st' q
      | None => false
      end.
Proof.
  induction p as [|c p IH]; intros st; cbn; [reflexivity|].
  destruct (memberStep st c); [apply IH | reflexivity].
Qed.

(** A name: a simple identifier that is not empty. *)
Definition isName (s : string) : Prop :=
  s <> EmptyString /\ isSimpleIdentifier s = true.

Lemma memberRun_name (st : MemberState) (s : string) :
  st = AtStart \/ st = AfterDot -> isName s -> memberRun st s = true.
Proof.
  intros Hst [Hne H]. destruct s as [|c s]; [contradiction|].
  unfold isSimpleIdentifier, nonIdentifierRE in H.
  apply negb_true_iff, orb_false_elim in H. destruct H as [Hd Hc].
  cbn [hasNonIdentifierChar] in Hc. apply orb_false_elim in Hc.
  destruct Hc as [Hc Hs]. apply negb_false_iff in Hc.
  assert (Hstart : isIdentifierStart c = true)
    by now rewrite identifierStart_spec, Hc, Hd.
  destruct Hst as [-> | ->]; cbn [memberRun memberStep]; rewrite Hstart;
    now apply memberRun_identifier.
Qed.

Fixpoint hasClosingBracket (s : string) : bool :=
  match s with
  | EmptyString => false
  | String c s' => (Ascii.eqb c "]" || hasClosingBracket s')%bool
  end.

Lemma memberEnd_brackets (s : string) :
  hasClosingBracket s = false ->
  forall st, st = AfterOpen \/ st = InBrackets ->
  s = EmptyString \/ memberEnd st s = Some InBrackets.
Proof.
  induction s as [|c s IH]; intros H st Hst; [now left|]. right.
  cbn [hasClosingBracket] in H. apply orb_false_elim in H.
  destruct H as [Hc Hs].
  assert (E : memberStep st c = Some InBrackets)
    by (destruct Hst as [-> | ->]; cbn; now rewrite Hc).
  cbn [memberEnd]. rewrite E.
  destruct (IH Hs InBrackets (or_intror eq_refl)) as [-> | ->]; reflexivity.
Qed.

(** X9: The member expressions follow their grammar: a name is a member
    expression; a member expression followed by a dot and a name, or by
    a bracketed text that is not empty and holds no closing bracket, is
    one again; the empty text is none, although it is a simple
    identifier. *)
Theorem isMemberExpression_grammar :
  (forall name, isName name -> isMemberExpression name = true)
  /\ (forall path name,
        isMemberExpression path = true -> isName name ->
        isMemberExpression (path ++ "." ++ name) = true)
  /\ (forall path text,
        isMemberExpression path = true ->
        text <> EmptyString -> hasClosingBracket text = false ->
        isMemberExpression (path ++ "[" ++ text ++ "]") = true)
  /\ isMemberExpression EmptyString = false
  /\ isSimpleIdentifier EmptyString = true.
Proof.
  split; [|split; [|split; [|split; reflexivity]]].
  - intros name H. apply memberRun_name; [now left | exact H].
  - intros path name Hp Hn. unfold isMemberExpression in *.
    rewrite memberRun_app. rewrite memberRun_end in Hp.
    destruct (memberEnd AtStart path) as [st|]; [|discriminate].
    destruct st; try discriminate; cbn [append memberRun memberStep];
      change (isIdentifierChar ".") with false; cbv iota;
      change (Ascii.eqb "." ".") with true; cbv iota;
      apply memberRun_name; auto.
  - intros path text Hp Hne Hcl. unfold isMemberExpression in *.
    rewrite memberRun_app. rewrite memberRun_end in Hp.
    destruct (memberEnd AtStart path) as [st|]; [|discriminate].
    assert (Hin : memberRun AfterOpen (text ++ "]") = true).
    { rewrite memberRun_app.
      destruct (memberEnd_brackets text Hcl AfterOpen (or_introl eq_refl))
        as [E | ->]; [contradiction | reflexivity]. }
    destruct st; try discriminate; cbn [append memberRun memberStep];
      change (isIdentifierChar "[") with false; cbv iota;
      change (Ascii.eqb "[" ".") with false; cbv iota;
      change (Ascii.eqb "[" "[") with true; cbv iota; exact Hin.
Qed.

Lemma isMemberExpression_grammar_witness :
  isMemberExpression "$store" = true
  /\ isMemberExpression ("a.b" ++ "." ++ "c1") = true
  /\ isMemberExpression ("a" ++ "[" ++ "b + 1" ++ "]") = true.
Proof.
  destruct isMemberExpression_grammar as (H1 & H2 & H3 & _).
  split; [|split].
  - apply H1. split; [discriminate | reflexivity].
  - apply H2; [reflexivity|]. split; [discriminate | reflexivity].
  - apply H3; [reflexivity | discriminate | reflexivity].
Defined.

End UtilsFacts.

(** ** Classes and styles of a render descriptor (vnode.ts) *)

Module StyleFacts.
Import Js VNode VNodeBlocks StringFacts TextFacts.

Lemma trimEnd_app_whitespace (t ws : string) :
  allWhitespace ws = true -> trimEnd (t ++ ws) = trimEnd t.
Proof.
  intros Hws. induction t as [|c t IH].
  - cbn [append]. induction ws as [|w ws IHw]; [reflexivity|].
    cbn [allWhitespace] in Hws. apply andb_prop in Hws.
    destruct Hws as [Hw Hws]. cbn [trimEnd]. rewrite (IHw Hws), Hw.
    reflexivity.
  - cbn [append trimEnd]. now rewrite IH.
Qed.

Lemma normalizeClass_is_trim (v : ClassValue) :
  exists text, normalizeClass v = trim text.
Proof. destruct v; eexists; reflexivity. Qed.

(** X10: The class string of any binding carries no whitespace at either
    end; it is left as it is when normalized again (as [mergeProps]
    does), and an array of one binding normalizes like the binding. *)
Theorem normalizeClass_normal (v : ClassValue) :
  startsWithWhitespace (normalizeClass v) = false
  /\ endsWithWhitespace (normalizeClass v) = false
  /\ normalizeClass (ClassString (normalizeClass v)) = normalizeClass v
  /\ normalizeClass (ClassArray [v]) = normalizeClass v.
Proof.
  destruct (normalizeClass_is_trim v) as (text & E).
  assert (H1 : startsWithWhitespace (normalizeClass v) = false)
    by (rewrite E; apply trim_starts).
  assert (H2 : endsWithWhitespace (normalizeClass v) = false)
    by (rewrite E; apply trim_ends).
  split; [exact H1|]. split; [exact H2|]. split.
  - cbn [normalizeClass]. now apply trim_id.
  - cbn [normalizeClass]. set (t := normalizeClass v) in *.
    rewrite append_nil_r. unfold trim.
    destruct t as [|c t'] eqn:Et.
    + reflexivity.
    + cbn [startsWithWhitespace] in H1.
      cbn [append trimStart]. rewrite H1.
      change (String c (t' ++ " ")) with (String c t' ++ " ").
      rewrite trimEnd_app_whitespace by reflexivity.
      now apply trimEnd_id.
Qed.

(** The loop of [normalizeStyle] over the items of an array. *)
Fixpoint mergeStyles (items : list StyleValue) (res : obj value)
  : obj value :=
  match items with
  | [] => res
  | x :: items' =>
      match normalizeStyle x with
      | Some normalized => mergeStyles items' (assignAll res normalized)
      | None => mergeStyles items' res
      end
  end.

Lemma normalizeStyle_array (items : list StyleValue) :
  normalizeStyle (StyleArray items) = Some (mergeStyles items []).
Proof.
  reflexivity.
Qed.

Lemma mergeStyles_app (items : list StyleValue) (x : StyleValue) :
  forall res,
    mergeStyles (items ++ [x]) res
    = match normalizeStyle x with
      | Some normalized => assignAll (mergeStyles items res) normalized
      | None => mergeStyles items res
      end.
Proof.
  induction items as [|y items IH]; intros res; cbn [app mergeStyles].
  - destruct (normalizeStyle x); reflexivity.
  - destruct (normalizeStyle y); apply IH.
Qed.

Lemma get_not_in {V} (o : obj V) (k : string) :
  existsb (String.eqb k) (keys o) = false -> get o k = None.
Proof.
  induction o as [|[k' v] o IH]; cbn; [reflexivity|].
  rewrite (String.eqb_sym k k'). destruct (String.eqb k' k); [discriminate|].
  exact IH.
Qed.

Lemma get_assignOver (o : obj value) (k : string) (ks : list string) :
  forall res,
    get (fold_left
           (fun r key =>
              match get o key with Some v => set r key v | None => r end)
           ks res) k
    = match (if existsb (String.eqb k) ks then get o k else None) with
      | Some v => Some v
      | None => get res k
      end.
Proof.
  induction ks as [|key ks IH]; intros res; cbn [fold_left existsb];
    [reflexivity|].
  rewrite IH. destruct (String.eqb k key) eqn:E; cbn [orb].
  - apply String.eqb_eq in E. subst key.
    destruct (get o k) as [v|] eqn:G.
    + rewrite PropsFacts.get_set_same. now destruct (existsb _ ks).
    + now destruct (existsb _ ks).
  - assert (Hres : get match get o key with
                      | Some v => set res key v
                      | None => res
                      end k = get res k).
    { destruct (get o key); [|reflexivity].
      apply PropsFacts.get_set_other. intros ->.
      rewrite String.eqb_refl in E. discriminate. }
    now rewrite Hres.
Qed.

Lemma get_assignAll (res o : obj value) (k : string) :
  get (assignAll res o) k
  = match get o k with Some v => Some v | None => get res k end.
Proof.
  unfold assignAll. rewrite get_assignOver.
  destruct (existsb (String.eqb k) (keys o)) eqn:E; [reflexivity|].
  now rewrite (get_not_in _ _ E).
Qed.


End StyleFacts.

(** ** Blocks (vnode.ts) *)

Module BlockFacts.
Import Js VNode VNodeBlocks.

(** What a call of [createVNode] is given (the props are [null]). *)
Record Call : Type := mkCall {
  call_type : VNodeTypes;
  call_children : RawChildren;
  call_patchFlag : Z;
  call_dynamicProps : option (list string)
}.

Definition isComponent (ty : VNodeTypes) : bool :=
  match ty with
  | TStatefulComponent _ | TFunctionalComponent _ => true
  | _ => false
  end.

(** A descriptor that has to be patched on updates: it carries a patch
    flag, or it is a component. *)
Definition isDynamic (c : Call) : bool :=
  (negb (call_patchFlag c =? 0) || isComponent (call_type c))%bool.

Section Render.

Variables ELEMENT FUNCTIONAL_COMPONENT STATEFUL_COMPONENT : Z.
Variables TEXT_CHILDREN ARRAY_CHILDREN SLOTS_CHILDREN : Z.

(** The shape flags of the two kinds of component are bits that are set
    in no other shape flag. *)
Hypothesis stateful_set : STATEFUL_COMPONENT <> 0.
Hypothesis functional_set : FUNCTIONAL_COMPONENT <> 0.
Hypothesis element_not_stateful : Z.land ELEMENT STATEFUL_COMPONENT = 0.
Hypothesis element_not_functional : Z.land ELEMENT FUNCTIONAL_COMPONENT = 0.

Definition create (c : Call) (st : State) : State * vref :=
  createVNode ELEMENT FUNCTIONAL_COMPONENT STATEFUL_COMPONENT
              TEXT_CHILDREN ARRAY_CHILDREN SLOTS_CHILDREN
              (call_type c) (call_children c) (call_patchFlag c)
              (call_dynamicProps c) st.

(** The calls of [createVNode] for the children of a block, in order. *)
Fixpoint createAll (calls : list Call) (st : State) : State * list vref :=
  match calls with
  | [] => (st, [])
  | c :: calls' =>
      let (st1, r) := create c st in
      let (st2, rs) := createAll calls' st1 in
      (st2, r :: rs)
  end.

(** The render code of a block:
    [(openBlock(disableTracking), createBlock(type, null, [children]))],
    the children being evaluated before [createBlock] is called. *)
Definition renderBlock (disableTracking : bool) (calls : list Call)
    (root : Call) (st : State) : State * vref :=
  let st1 := openBlock disableTracking st in
  let (st2, rs) := createAll calls st1 in
  createBlock ELEMENT FUNCTIONAL_COMPONENT STATEFUL_COMPONENT
              TEXT_CHILDREN ARRAY_CHILDREN SLOTS_CHILDREN
              (call_type root) (RawArray (map ChildVNode rs))
              (call_patchFlag root) (call_dynamicProps root) st2.

(** The addresses, from [from] on, of the calls that are dynamic. *)
Fixpoint dynamicRefs (from : nat) (calls : list Call) : list vref :=
  match calls with
  | [] => []
  | c :: calls' =>
      if isDynamic c then from :: dynamicRefs (S from) calls'
      else dynamicRefs (S from) calls'
  end.

Lemma updateLast_last {A} (f : A -> A) (l : list A) (x : A) :
  updateLast f (l ++ [x]) = (l ++ [f x])%list.
Proof.
  induction l as [|y l IH]; [reflexivity|].
  cbn [app updateLast]. rewrite IH.
  destruct (l ++ [x])%list eqn:E; [|reflexivity].
  destruct l; discriminate.
Qed.

Lemma tracked_condition (c : Call) :
  (negb (call_patchFlag c =? 0)
   || negb (Z.land match call_type c with
                   | TElement _ => ELEMENT
                   | TStatefulComponent _ => STATEFUL_COMPONENT
                   | TFunctionalComponent _ => FUNCTIONAL_COMPONENT
                   | _ => 0
                   end STATEFUL_COMPONENT =? 0)
   || negb (Z.land match call_type c with
                   | TElement _ => ELEMENT
                   | TStatefulComponent _ => STATEFUL_COMPONENT
                   | TFunctionalComponent _ => FUNCTIONAL_COMPONENT
                   | _ => 0
                   end FUNCTIONAL_COMPONENT =? 0))%bool
  = isDynamic c.
Proof.
  unfold isDynamic. destruct (negb (call_patchFlag c =? 0)); [reflexivity|].
  cbn [orb].
  destruct (call_type c); cbn [isComponent];
    rewrite ?element_not_stateful, ?element_not_functional,
      ?Z.land_diag, ?Z.land_0_l;
    try reflexivity.
  - destruct (Z.eqb_spec STATEFUL_COMPONENT 0); [contradiction | reflexivity].
  - destruct (Z.eqb_spec FUNCTIONAL_COMPONENT 0); [contradiction|].
    apply orb_true_r.
Qed.

(** One call of [createVNode] while a block is open and tracking is on. *)
Lemma create_tracking (c : Call) (st : State)
    (outer : list (option (list vref))) (innermost : option (list vref)) :
  shouldTrack st = true ->
  blockStack st = (outer ++ [innermost])%list ->
  exists v,
    create c st
    = (mkState (heap st ++ [v])
         (outer ++ [match innermost with
                    | Some nodes =>
                        Some (nodes ++ if isDynamic c
                                       then [List.length (heap st)]
                                       else [])%list
                    | None => None
                    end])
         true,
       List.length (heap st)).
Proof.
  intros Htrack Hstack. unfold create, createVNode.
  destruct (normalizeChildren _ _ _ _) as [ch bits].
  unfold alloc. cbn [shouldTrack heap blockStack]. rewrite Htrack.
  cbn [andb]. rewrite (tracked_condition c).
  eexists. destruct (isDynamic c).
  - unfold trackDynamicNode. cbn [heap blockStack shouldTrack].
    rewrite Hstack, updateLast_last. reflexivity.
  - rewrite Hstack. destruct st as [h b t]. cbn in *. subst.
    destruct innermost; rewrite ?app_nil_r; reflexivity.
Qed.

Lemma createAll_tracking (calls : list Call) :
  forall (st : State) (outer : list (option (list vref)))
         (innermost : option (list vref)),
    shouldTrack st = true ->
    blockStack st = (outer ++ [innermost])%list ->
    exists vs,
      List.length vs = List.length calls
      /\ createAll calls st
         = (mkState (heap st ++ vs)
              (outer ++ [match innermost with
                         | Some nodes =>
                             Some (nodes
                                   ++ dynamicRefs (List.length (heap st))
                                                  calls)%list
                         | None => None
                         end])
              true,
            seq (List.length (heap st)) (List.length calls)).
Proof.
  induction calls as [|c calls IH]; intros st outer innermost Htrack Hstack.
  - exists []. split; [reflexivity|]. cbn [createAll dynamicRefs seq].
    destruct st as [h b t]. cbn in *. subst.
    destruct innermost; rewrite ?app_nil_r; reflexivity.
  - cbn [createAll].
    destruct (create_tracking c st outer innermost Htrack Hstack) as (v & ->).
    match goal with
    | |- context [createAll calls (mkState ?h (outer ++ [?i]) true)] =>
        destruct (IH (mkState h (outer ++ [i]) true) outer i eq_refl eq_refl)
          as (vs & Hlen & ->)
    end.
    exists (v :: vs). split; [cbn; now rewrite Hlen|].
    cbn [heap dynamicRefs List.length seq]. rewrite length_app.
    cbn [List.length]. replace (List.length (heap st) + 1)%nat
      with (S (List.length (heap st))) by lia.
    rewrite <- app_assoc. cbn [app].
    destruct innermost as [nodes|]; [|reflexivity].
    destruct (isDynamic c); rewrite <- ?app_assoc; reflexivity.
Qed.

Lemma replaceAt_last {A} (l : list A) (x y : A) :
  replaceAt (List.length l) y (l ++ [x]) = (l ++ [y])%list.
Proof.
  induction l as [|z l IH]; [reflexivity|]. cbn. now rewrite IH.
Qed.

(** [createBlock], whatever the tracking flag was. *)
Lemma createBlock_run (root : Call) (children : RawChildren) (st : State) :
  exists v,
    createBlock ELEMENT FUNCTIONAL_COMPONENT STATEFUL_COMPONENT
                TEXT_CHILDREN ARRAY_CHILDREN SLOTS_CHILDREN
                (call_type root) children
                (call_patchFlag root) (call_dynamicProps root) st
    = (trackDynamicNode (List.length (heap st))
         (mkState (heap st ++ [v]) (removelast (blockStack st)) true),
       List.length (heap st))
    /\ type v = call_type root
    /\ patchFlag v = call_patchFlag root
    /\ dynamicProps v = call_dynamicProps root
    /\ dynamicChildren v
       = Some match List.last (map Some (blockStack st)) None with
              | Some (Some nodes) => nodes
              | _ => []
              end.
Proof.
  unfold createBlock, createVNode, setShouldTrack.
  destruct (normalizeChildren _ _ _ _) as [ch bits].
  unfold alloc. cbn [shouldTrack heap blockStack andb].
  unfold setDynamicChildren, deref. cbn [shouldTrack heap blockStack].
  rewrite nth_error_app2 by lia. rewrite Nat.sub_diag. cbn [nth_error].
  cbn [type props key ref VNode.children component suspense el anchor target
       shapeFlag patchFlag dynamicProps appContext].
  rewrite replaceAt_last.
  eexists. split; [reflexivity|]. cbn. repeat split.
Qed.

(** X12: A block collects exactly its dynamic children.  When the render code
    of a block runs with tracking on, the root descriptor is a new
    object whose [dynamicChildren] are the children that carry a patch
    flag or are components, in order of creation (none at all when the
    block was opened with tracking disabled); the root is not among
    them, whatever its own patch flag; the stack of open blocks is the
    one before, with the root added to the block that was innermost;
    and tracking is on again. *)
Theorem renderBlock_collects_dynamic_children
    (disableTracking : bool) (calls : list Call) (root : Call) (st : State) :
  shouldTrack st = true ->
  exists v,
    let st' := fst (renderBlock disableTracking calls root st) in
    let r := snd (renderBlock disableTracking calls root st) in
    r = (List.length (heap st) + List.length calls)%nat
    /\ deref st r = None
    /\ deref st' r = Some v
    /\ type v = call_type root
    /\ dynamicChildren v
       = Some (if disableTracking then []
               else dynamicRefs (List.length (heap st)) calls)
    /\ ~ In r (dynamicRefs (List.length (heap st)) calls)
    /\ blockStack st' = blockStack (trackDynamicNode r st)
    /\ shouldTrack st' = true
    /\ (forall r', (r' < List.length (heap st))%nat ->
                   deref st' r' = deref st r').
Proof.
  intros Htrack. unfold renderBlock.
  destruct (createAll_tracking calls (openBlock disableTracking st)
              (blockStack st)
              (if disableTracking then None else Some [])
              Htrack eq_refl) as (vs & Hlen & ->).
  cbn [openBlock heap].
  match goal with
  | |- context [createBlock _ _ _ _ _ _ _ ?ch _ _ ?s] =>
      destruct (createBlock_run root ch s) as (v & -> & Hty & _ & _ & Hdyn)
  end.
  exists v. cbn [fst snd heap blockStack] in *.
  rewrite length_app, Hlen in *.
  rewrite map_app in Hdyn. cbn [map] in Hdyn. rewrite last_last in Hdyn.
  rewrite removelast_last.
  split; [reflexivity|].
  split; [unfold deref; apply nth_error_None; lia|].
  split.
  { unfold deref, trackDynamicNode. cbn [heap].
    rewrite nth_error_app2 by (rewrite length_app; lia).
    rewrite length_app, Hlen, Nat.sub_diag. reflexivity. }
  split; [exact Hty|].
  split.
  { rewrite Hdyn. destruct disableTracking; reflexivity. }
  split.
  { assert (H : forall cs a b, In b (dynamicRefs a cs) ->
                               (a <= b < a + List.length cs)%nat).
    { induction cs as [|c cs IH]; intros a b Hin; [contradiction|].
      cbn [dynamicRefs] in Hin. cbn [List.length].
      destruct (isDynamic c); [destruct Hin as [<- | Hin]|].
      - lia.
      - apply IH in Hin. lia.
      - apply IH in Hin. lia. }
    intros Hin. apply H in Hin. lia. }
  split; [reflexivity|]. split; [reflexivity|].
  intros r' Hr'. unfold deref, trackDynamicNode. cbn [heap].
  rewrite <- app_assoc. now rewrite nth_error_app1.
Qed.

End Render.

Lemma renderBlock_collects_dynamic_children_witness :
  exists v,
    let run :=
      renderBlock 1 2 4 8 16 32 false
        [mkCall (TElement "p") (RawString "a") 0 None;
         mkCall (TElement "p") (RawString "b") 1 None;
         mkCall (TStatefulComponent 0) RawNull 0 None]
        (mkCall (TElement "div") RawNull 0 None)
        (mkState [] [Some []] true) in
    snd run = 3%nat
    /\ deref (mkState [] [Some []] true) (snd run) = None
    /\ deref (fst run) (snd run) = Some v
    /\ type v = TElement "div"
    /\ dynamicChildren v = Some [1%nat; 2%nat]
    /\ ~ In (snd run) [1%nat; 2%nat]
    /\ blockStack (fst run) = [Some [3%nat]]
    /\ shouldTrack (fst run) = true
    /\ (forall r', (r' < 0)%nat ->
                   deref (fst run) r' = deref (mkState [] [Some []] true) r').
Proof.
  apply (renderBlock_collects_dynamic_children 1 2 4 8 16 32
           ltac:(lia) ltac:(lia) eq_refl eq_refl
           false
           [mkCall (TElement "p") (RawString "a") 0 None;
            mkCall (TElement "p") (RawString "b") 1 None;
            mkCall (TStatefulComponent 0) RawNull 0 None]
           (mkCall (TElement "div") RawNull 0 None)
           (mkState [] [Some []] true)).
  reflexivity.
Defined.

End BlockFacts.

(** ** Declarations of props (componentProps.ts) *)

Module PropOptionsFacts.
Import Js Shared ComponentProps.

(** The constructors a [type] field names. *)
Definition typesOf (expectedTypes : PropType) : list PropConstructor :=
  match expectedTypes with
  | TypeArray cs => cs
  | TypeCtor c => [c]
  | _ => []
  end.

Definition noneSame (ty : PropConstructor) (cs : list PropConstructor) : bool :=
  forallb (fun c => negb (isSameType c ty)) cs.

Lemma getTypeIndexIn_first (ty : PropConstructor) (cs : list PropConstructor) :
  forall i0,
    (getTypeIndexIn ty cs i0 = -1 /\ noneSame ty cs = true)
    \/ exists (n : nat) (c : PropConstructor),
         getTypeIndexIn ty cs i0 = i0 + Z.of_nat n
         /\ nth_error cs n = Some c
         /\ isSameType c ty = true
         /\ noneSame ty (firstn n cs) = true.
Proof.
  induction cs as [|c cs IH]; intros i0.
  - left. split; reflexivity.
  - cbn [getTypeIndexIn noneSame forallb].
    destruct (isSameType c ty) eqn:E.
    + right. exists 0%nat, c. cbn [nth_error firstn noneSame forallb].
      repeat split; [lia | exact E].
    + destruct (IH (i0 + 1)) as [[H1 H2] | (n & c' & H1 & H2 & H3 & H4)].
      * left. split; [exact H1 | exact H2].
      * right. exists (S n), c'.
        cbn [nth_error firstn noneSame forallb]. rewrite E.
        repeat split; try assumption. lia.
Qed.

(** X13: [getTypeIndex] gives the index of the first constructor of the
    [type] field that has the name of [ty], and [-1] exactly when none
    has; a single constructor counts as the array of that constructor,
    and an absent, [null] or [true] type as the empty array. *)
Theorem getTypeIndex_first_match
    (ty : PropConstructor) (expectedTypes : PropType) :
  (getTypeIndex ty expectedTypes = -1
   /\ noneSame ty (typesOf expectedTypes) = true)
  \/ exists (n : nat) (c : PropConstructor),
       getTypeIndex ty expectedTypes = Z.of_nat n
       /\ nth_error (typesOf expectedTypes) n = Some c
       /\ isSameType c ty = true
       /\ noneSame ty (firstn n (typesOf expectedTypes)) = true.
Proof.
  destruct expectedTypes as [| | |c|cs]; cbn [getTypeIndex typesOf];
    try (left; split; reflexivity).
  - destruct (isSameType c ty) eqn:E.
    + right. exists 0%nat, c. cbn [nth_error firstn noneSame forallb].
      repeat split. exact E.
    + left. cbn [noneSame forallb]. now rewrite E.
  - destruct (getTypeIndexIn_first ty cs 0)
      as [H | (n & c & H1 & H2 & H3 & H4)]; [now left|].
    right. exists n, c. repeat split; assumption.
Qed.

(** *** Normalization *)

Definition declaredNames (raw : ComponentPropsOptions) : list string :=
  match raw with
  | PropsArray names => names
  | PropsObject decls => keys decls
  end.

(** [k] is the camel-case form of a declared name and is a valid prop
    name (it does not start with a dollar sign). *)
Definition declares (raw : ComponentPropsOptions) (k : string) : Prop :=
  exists name,
    In name (declaredNames raw) /\ camelize name = k
    /\ validatePropName k = true.

Lemma hasOwn_set {V} (o : obj V) (k k' : string) (v : V) :
  hasOwn (set o k v) k' = (String.eqb k k' || hasOwn o k')%bool.
Proof.
  unfold hasOwn. destruct (String.eqb k k') eqn:E.
  - apply String.eqb_eq in E. subst. now rewrite PropsFacts.get_set_same.
  - apply String.eqb_neq in E. now rewrite PropsFacts.get_set_other.
Qed.

Lemma hasOwn_assign {V} (o : obj V) (k k' : string) (v : V) :
  hasOwn (assign o k v) k'
  = ((negb (String.eqb k "__proto__") && String.eqb k k') || hasOwn o k')%bool.
Proof.
  unfold assign. destruct (String.eqb k "__proto__"); [reflexivity|].
  apply hasOwn_set.
Qed.

Definition keysFrom (names : list string) (options : obj (option NormalizedProp))
    (k : string) : Prop :=
  hasOwn options k = true
  <-> (exists name, In name names /\ camelize name = k
                    /\ validatePropName k = true)
      /\ k <> "__proto__".

Lemma keysFrom_step (seen : list string) (name : string)
    (options : obj (option NormalizedProp)) (v : option NormalizedProp) :
  (forall k, keysFrom seen options k) ->
  forall k,
    keysFrom (seen ++ [name])
             (if validatePropName (camelize name)
              then assign options (camelize name) v else options) k.
Proof.
  intros Hkeys k. unfold keysFrom.
  assert (Hold : hasOwn options k = true ->
                 (exists n, In n (seen ++ [name]) /\ camelize n = k
                            /\ validatePropName k = true)
                 /\ k <> "__proto__").
  { intros H. apply Hkeys in H. destruct H as [(n & Hin & Hc & Hval) Hp].
    split; [|exact Hp].
    exists n. split; [apply in_or_app; now left|]. now split. }
  destruct (validatePropName (camelize name)) eqn:Hv.
  - rewrite hasOwn_assign. split.
    + intros H. apply orb_prop in H. destruct H as [H | H]; [|now apply Hold].
      apply andb_prop in H. destruct H as [Hp H].
      apply String.eqb_eq in H. subst k. split.
      * exists name. split; [apply in_or_app; right; now left|]. now split.
      * apply negb_true_iff, String.eqb_neq in Hp. exact Hp.
    + intros [(n & Hin & Hc & Hval) Hp]. apply in_app_or in Hin.
      destruct Hin as [Hin | [<- | []]].
      * apply orb_true_iff. right. apply Hkeys. split; [now exists n | exact Hp].
      * apply orb_true_iff. left. rewrite Hc. apply andb_true_iff. split.
        -- apply negb_true_iff, String.eqb_neq. exact Hp.
        -- apply String.eqb_refl.
  - split; [exact Hold|].
    intros [(n & Hin & Hc & Hval) Hp]. apply in_app_or in Hin.
    destruct Hin as [Hin | [<- | []]].
    + apply Hkeys. split; [now exists n | exact Hp].
    + subst k. congruence.
Qed.

Lemma normalizeDecl_fst (acc : NormalizedPropsOptions) (k : string)
    (rp : RawProp) :
  exists v,
    fst (normalizeDecl acc (k, rp))
    = if validatePropName (camelize k)
      then assign (fst acc) (camelize k) v else fst acc.
Proof.
  destruct acc as [n ks]. unfold normalizeDecl.
  destruct (validatePropName (camelize k)); [|now exists None].
  destruct rp; eexists; reflexivity.
Qed.

Lemma normalizeDecl_snd (acc : NormalizedPropsOptions) (k : string)
    (rp : RawProp) :
  snd (normalizeDecl acc (k, rp)) = snd acc
  \/ (snd (normalizeDecl acc (k, rp)) = (snd acc ++ [camelize k])%list
      /\ validatePropName (camelize k) = true).
Proof.
  destruct acc as [n ks]. unfold normalizeDecl.
  destruct (validatePropName (camelize k)); [|now left].
  destruct rp; cbn [snd]; try (now left);
    match goal with
    | |- context [if ?c then _ else _] => destruct c
    end; auto.
Qed.

Lemma normalizeDecls_keys (decls : obj RawProp) :
  forall (acc : NormalizedPropsOptions) (seen : list string),
    (forall k, keysFrom seen (fst acc) k) ->
    (forall k, In k (snd acc) -> k <> "__proto__" -> hasOwn (fst acc) k = true) ->
    (forall k, keysFrom (seen ++ keys decls) (fst (fold_left normalizeDecl decls acc)) k)
    /\ (forall k, In k (snd (fold_left normalizeDecl decls acc)) ->
                  k <> "__proto__" ->
                  hasOwn (fst (fold_left normalizeDecl decls acc)) k = true).
Proof.
  induction decls as [|[name rp] decls IH]; intros acc seen Hkeys Hcast.
  - cbn. rewrite app_nil_r. split; assumption.
  - cbn [fold_left keys map fst].
    replace (seen ++ name :: map fst decls)%list
      with ((seen ++ [name]) ++ keys decls)%list
      by (rewrite <- app_assoc; reflexivity).
    destruct (normalizeDecl_fst acc name rp) as (v & Efst).
    apply IH.
    + intros k. rewrite Efst. now apply keysFrom_step.
    + intros k Hin Hp. rewrite Efst.
      destruct (normalizeDecl_snd acc name rp) as [E | [E Hv]];
        rewrite E in Hin.
      * destruct (validatePropName (camelize name));
          [rewrite hasOwn_assign; apply orb_true_iff; right|]; now apply Hcast.
      * rewrite Hv, hasOwn_assign. apply orb_true_iff.
        apply in_app_or in Hin. destruct Hin as [Hin | [<- | []]].
        -- right. now apply Hcast.
        -- left. rewrite String.eqb_refl, andb_true_r.
           apply negb_true_iff, String.eqb_neq. exact Hp.
Qed.

Lemma normalizeNames_keys (names : list string) :
  forall (options : obj (option NormalizedProp)) (seen : list string),
    (forall k, keysFrom seen options k) ->
    (forall k, hasOwn options k = true -> get options k = Some (Some EMPTY_PROP)) ->
    let options' :=
      fold_left
        (fun normalized name =>
           if validatePropName (camelize name)
           then assign normalized (camelize name) (Some EMPTY_PROP)
           else normalized)
        names options in
    (forall k, keysFrom (seen ++ names) options' k)
    /\ (forall k, hasOwn options' k = true ->
                  get options' k = Some (Some EMPTY_PROP)).
Proof.
  induction names as [|name names IH]; intros options seen Hkeys Hempty.
  - cbn. rewrite app_nil_r. split; assumption.
  - cbn [fold_left].
    replace (seen ++ name :: names)%list with ((seen ++ [name]) ++ names)%list
      by (rewrite <- app_assoc; reflexivity).
    apply IH.
    + intros k. now apply keysFrom_step.
    + intros k. destruct (validatePropName (camelize name)); [|apply Hempty].
      unfold assign. destruct (String.eqb (camelize name) "__proto__");
        [apply Hempty|].
      rewrite hasOwn_set. destruct (String.eqb (camelize name) k) eqn:E.
      * apply String.eqb_eq in E. subst k. intros _.
        apply PropsFacts.get_set_same.
      * apply String.eqb_neq in E. cbn [orb]. intros H.
        rewrite PropsFacts.get_set_other by exact E. now apply Hempty.
Qed.

Lemma keysFrom_nil (k : string) :
  keysFrom [] (@nil (string * option NormalizedProp)) k.
Proof. split; [discriminate | intros [(n & [] & _) _]]. Qed.

Lemma declaresNoProto_spec (decls : obj RawProp) (name : string) :
  PropsFacts.declaresNoProto decls = true ->
  In name (keys decls) -> camelize name <> "__proto__".
Proof.
  unfold PropsFacts.declaresNoProto. intros H Hin.
  rewrite forallb_forall in H. specialize (H name Hin).
  apply negb_true_iff, String.eqb_neq in H. exact H.
Qed.

(** X14: The normalized declarations have as keys the camel-case forms of
    the declared names that are valid prop names: a name that starts
    with a dollar sign is not declared.  In the array syntax the name
    [__proto__] is not declared either, no key is listed for the second
    loop and every declaration is the empty one.  In the object syntax a
    declaration, other than [null], of a prop named [_n] is all that is
    returned; without one, and with no name whose camel-case form is
    [__proto__], the keys are as said and every key listed for default
    values and boolean casting is among them. *)
Theorem normalizePropsOptions_keys (raw : ComponentPropsOptions) :
  (forall names,
     raw = PropsArray names ->
     exists options,
       normalizePropsOptions (Some raw) = Entry options []
       /\ (forall k, hasOwn options k = true
                     <-> declares raw k /\ k <> "__proto__")
       /\ (forall k, hasOwn options k = true ->
                     get options k = Some (Some EMPTY_PROP)))
  /\ (forall decls memo,
        raw = PropsObject decls ->
        get decls "_n" = Some memo ->
        memo <> RawNull ->
        normalizePropsOptions (Some raw) = Found memo)
  /\ (forall decls,
        raw = PropsObject decls ->
        PropsFacts.readsNoMemo decls = true ->
        PropsFacts.declaresNoProto decls = true ->
        exists options needCastKeys,
          normalizePropsOptions (Some raw) = Entry options needCastKeys
          /\ (forall k, hasOwn options k = true <-> declares raw k)
          /\ (forall k, In k needCastKeys -> hasOwn options k = true)).
Proof.
  split; [|split].
  - intros names ->. eexists. split; [reflexivity|].
    destruct (normalizeNames_keys names [] [] keysFrom_nil) as [H1 H2];
      [discriminate|].
    split; [exact H1 | exact H2].
  - intros decls memo -> Hmemo Hnull. unfold normalizePropsOptions, memoOf.
    rewrite Hmemo. destruct memo; [contradiction | | |]; reflexivity.
  - intros decls -> Hmemo Hproto.
    rewrite (PropsFacts.normalizePropsOptions_fresh _ Hmemo).
    eexists. eexists. split; [reflexivity|].
    destruct (normalizeDecls_keys decls ([], []) [] keysFrom_nil) as [H1 H2];
      [intros k []|].
    assert (Hdeclared : forall k, declares (PropsObject decls) k ->
                                  k <> "__proto__").
    { intros k (name & Hin & Hc & _). subst k.
      now apply (declaresNoProto_spec decls). }
    split.
    + intros k. split.
      * intros H. now apply H1 in H.
      * intros H. apply H1. split; [exact H | now apply Hdeclared].
    + intros k Hin. apply H2; [exact Hin|].
      (* a listed key is the camel-case form of a declared name *)
      assert (Hlisted : forall ds (acc : NormalizedPropsOptions),
                 (forall x, In x (snd acc) -> x <> "__proto__") ->
                 (forall name, In name (keys ds) ->
                               camelize name <> "__proto__") ->
                 forall x, In x (snd (fold_left normalizeDecl ds acc)) ->
                           x <> "__proto__").
      { induction ds as [|[name rp] ds IH]; intros acc Hacc Hds x Hx;
          [now apply Hacc|].
        cbn [fold_left] in Hx. revert x Hx. apply IH.
        - intros x Hx.
          destruct (normalizeDecl_snd acc name rp) as [E | [E _]];
            rewrite E in Hx; [now apply Hacc|].
          apply in_app_or in Hx. destruct Hx as [Hx | [<- | []]];
            [now apply Hacc|]. apply Hds. now left.
        - intros n Hn. apply Hds. now right. }
      apply (Hlisted decls ([], [])); [intros x [] | | exact Hin].
      intros name Hname. now apply (declaresNoProto_spec decls).
Qed.

(** [props: ['foo-bar', '$x', '__proto__']] declares [fooBar] alone;
    [props: { _n: String }] is returned as [String]; and
    [props: { 'foo-bar': Boolean, $x: null }] declares [fooBar] alone. *)
Lemma normalizePropsOptions_keys_witness :
  (exists options,
     normalizePropsOptions (Some (PropsArray ["foo-bar"; "$x"; "__proto__"]))
     = Entry options []
     /\ hasOwn options "fooBar" = true
     /\ hasOwn options "$x" = false
     /\ hasOwn options "__proto__" = false)
  /\ normalizePropsOptions (Some (PropsObject [("_n", RawCtor String_)]))
     = Found (RawCtor String_)
  /\ exists options needCastKeys,
       normalizePropsOptions
         (Some (PropsObject [("foo-bar", RawCtor Boolean); ("$x", RawNull)]))
       = Entry options needCastKeys
       /\ hasOwn options "fooBar" = true
       /\ hasOwn options "$x" = false.
Proof.
  split; [|split].
  - destruct (proj1 (normalizePropsOptions_keys
                       (PropsArray ["foo-bar"; "$x"; "__proto__"]))
                ["foo-bar"; "$x"; "__proto__"] eq_refl)
      as [options [Hrun [Hkeys _]]].
    exists options. split; [exact Hrun|]. split; [|split].
    + apply Hkeys. split; [|discriminate].
      exists "foo-bar". split; [left; reflexivity | split; reflexivity].
    + destruct (hasOwn options "$x") eqn:E; [|reflexivity].
      apply Hkeys in E. destruct E as [(name & _ & _ & Hvalid) _].
      discriminate.
    + destruct (hasOwn options "__proto__") eqn:E; [|reflexivity].
      apply Hkeys in E. destruct E as [_ Hne]. now contradiction Hne.
  - apply (proj1 (proj2 (normalizePropsOptions_keys
                           (PropsObject [("_n", RawCtor String_)])))
             [("_n", RawCtor String_)] (RawCtor String_) eq_refl eq_refl).
    discriminate.
  - destruct (proj2 (proj2 (normalizePropsOptions_keys
                              (PropsObject [("foo-bar", RawCtor Boolean);
                                            ("$x", RawNull)])))
                [("foo-bar", RawCtor Boolean); ("$x", RawNull)]
                eq_refl eq_refl eq_refl)
      as [options [needCastKeys [Hrun [Hkeys _]]]].
    exists options, needCastKeys. split; [exact Hrun|]. split.
    + apply Hkeys.
      exists "foo-bar". split; [left; reflexivity | split; reflexivity].
    + destruct (hasOwn options "$x") eqn:E; [|reflexivity].
      apply Hkeys in E. destruct E as (name & _ & _ & Hvalid). discriminate.
Defined.

End PropOptionsFacts.

(** ** Resolution of props: attrs, defaults and the props proxy
       (componentProps.ts) *)

Module ResolveFacts.
Import Js Shared ComponentProps PropsFacts.

Definition declaresProps (c : Component) : bool :=
  match c_props c with Some _ => true | None => false end.

(** The two components [resolveProps] goes on with (empty when it
    throws for want of them). *)
Definition optionsOfComponent (c : Component) : obj (option NormalizedProp) :=
  match entryOf (normalizePropsOptions (c_props c)) with
  | Some entry => fst entry
  | None => []
  end.

Definition needCastKeysOf (c : Component) : list string :=
  match entryOf (normalizePropsOptions (c_props c)) with
  | Some entry => snd entry
  | None => []
  end.

(** The declarations of the component, when in the object syntax, are
    normalized afresh (no prop named [_n] is declared, unless as [null])
    and bind nothing under the name [__proto__]. *)
Definition plainDeclarations (c : Component) : bool :=
  match c_props c with
  | Some (PropsObject decls) => (readsNoMemo decls && declaresNoProto decls)%bool
  | _ => true
  end.

Lemma plainDeclarations_entry (c : Component) :
  plainDeclarations c = true ->
  entryOf (normalizePropsOptions (c_props c))
  = Some (optionsOfComponent c, needCastKeysOf c).
Proof.
  unfold plainDeclarations, optionsOfComponent, needCastKeysOf.
  destruct (c_props c) as [[names | decls]|]; intros H; try reflexivity.
  apply andb_prop in H. destruct H as [H _].
  rewrite (normalizePropsOptions_fresh _ H). reflexivity.
Qed.

(** The locals after the first loop, and after the second. *)
Definition routed (instance : ComponentInternalInstance)
    (emits : option (obj value)) (rawProps : option Data) : Locals :=
  fold_left
    (route (declaresProps (type instance))
           (optionsOfComponent (type instance)) emits)
    match rawProps with Some raw => raw | None => [] end
    (mkLocals [] None (propsProxy instance)).

Definition cast (instance : ComponentInternalInstance)
    (emits : option (obj value)) (rawProps : option Data) : Locals :=
  if declaresProps (type instance)
  then fold_left (castProp (optionsOfComponent (type instance)))
                 (needCastKeysOf (type instance))
                 (routed instance emits rawProps)
  else routed instance emits rawProps.

Section Flags.

Variables FULL_PROPS FUNCTIONAL_COMPONENT : Z.

Definition fullUpdate (instance : ComponentInternalInstance) : bool :=
  ((patchFlag instance =? 0)
   || negb (Z.land (patchFlag instance) FULL_PROPS =? 0))%bool.

Definition isFunctional (instance : ComponentInternalInstance) : bool :=
  negb (Z.land (shapeFlag instance) FUNCTIONAL_COMPONENT =? 0).

(** [resolveProps], when it does not return at once and the emits
    option is normalized without error, in terms of the two loops. *)
Lemma resolveProps_run (instance : ComponentInternalInstance)
    (rawProps : option Data) (emits : option (obj value)) :
  plainDeclarations (type instance) = true ->
  normalizeEmitsOptions (c_emits (type instance)) = Some emits ->
  rawProps <> None \/ declaresProps (type instance) = true ->
  exists proxy,
    resolveProps FULL_PROPS FUNCTIONAL_COMPONENT instance rawProps
    = Some (mkInstance (type instance) proxy
              (patchFlag instance) (shapeFlag instance)
              (if (isFunctional instance
                   && negb (declaresProps (type instance)))%bool
               then attrsOf (cast instance emits rawProps)
               else l_props (cast instance emits rawProps))
              (attrsOf (cast instance emits rawProps)))
    /\ proxy
       = match l_proxy (cast instance emits rawProps) with
         | Some p =>
             if (declaresProps (type instance) && fullUpdate instance)%bool
             then Some (fold_left
                          (fun q k =>
                             if hasOwn (l_props (cast instance emits rawProps)) k
                             then q else delete q k)
                          (keys p) p)
             else Some p
         | None => None
         end.
Proof.
  intros Hplain Hemits Hgo.
  pose proof (plainDeclarations_entry _ Hplain) as N.
  unfold resolveProps, cast, routed, isFunctional, fullUpdate, attrsOf.
  rewrite N, Hemits.
  generalize (optionsOfComponent (type instance))
             (needCastKeysOf (type instance)).
  intros options needCastKeys. unfold declaresProps in *.
  destruct rawProps as [raw|].
  - rewrite routeProps_route.
    destruct (c_props (type instance)); eexists; split; reflexivity.
  - destruct (c_props (type instance)).
    + eexists; split; reflexivity.
    + destruct Hgo as [H | H]; [contradiction | discriminate].
Qed.

End Flags.

(** *** Attrs *)

(** The entry is passed on as an attribute: its key is not reserved, is
    not (in camel case) a declared prop and is not the listener of a
    declared event. *)
Definition fallsToAttrs (hasDeclaredProps : bool)
    (options : obj (option NormalizedProp)) (emits : option (obj value))
    (entry : string * value) : bool :=
  (negb (isReservedProp (fst entry))
   && negb (hasDeclaredProps && hasOwn options (camelize (fst entry)))
   && negb (listens emits (fst entry)))%bool.

Lemma route_attrs_any hd options emits (raw : Data) :
  NoDup (keys raw) ->
  forall l,
    (forall k, In k (keys raw) -> hasOwn (attrsOf l) k = false) ->
    attrsOf (fold_left (route hd options emits) raw l)
    = (attrsOf l ++ filter (fallsToAttrs hd options emits) raw)%list.
Proof.
  induction raw as [|[k v] raw IH]; intros Hnd l Hfresh.
  - cbn. rewrite app_nil_r. reflexivity.
  - inversion Hnd as [|? ? Hnotin Hnd']; subst. cbn [fold_left filter].
    assert (Hrest : forall l',
               attrsOf l' = attrsOf l ->
               attrsOf (fold_left (route hd options emits) raw l')
               = (attrsOf l ++ filter (fallsToAttrs hd options emits) raw)%list).
    { intros l' E. rewrite IH; [now rewrite E | exact Hnd' |].
      intros k' Hin. rewrite E. apply Hfresh. now right. }
    unfold fallsToAttrs at 1, route at 2. cbn [fst snd].
    destruct (isReservedProp k); cbn [negb andb]; [now apply Hrest|].
    destruct (hd && hasOwn options (camelize k))%bool; cbn [negb andb];
      [now apply Hrest|].
    destruct (listens emits k); cbn [negb]; [now apply Hrest|].
    assert (Hset : attrsOf (setAttr k v l) = (attrsOf l ++ [(k, v)])%list).
    { unfold attrsOf at 1, setAttr. cbn [l_attrs].
      apply set_fresh. apply Hfresh. now left. }
    rewrite IH; [| exact Hnd' |].
    + rewrite Hset, <- app_assoc. reflexivity.
    + intros k' Hin. rewrite Hset, hasOwn_app_single.
      * apply Hfresh. now right.
      * intros ->. now apply Hnotin.
Qed.

Lemma castProp_attrs options (l : Locals) (k : string) :
  l_attrs (castProp options l k) = l_attrs l.
Proof.
  unfold castProp. destruct (get options k) as [[opt|]|]; try reflexivity.
  repeat match goal with
         | |- context [match ?x with _ => _ end] => destruct x
         | |- context [if ?x then _ else _] => destruct x
         end; reflexivity.
Qed.

Lemma castProps_attrs options (ks : list string) :
  forall l, l_attrs (fold_left (castProp options) ks l) = l_attrs l.
Proof.
  induction ks as [|k ks IH]; intros l; [reflexivity|].
  cbn [fold_left]. rewrite IH. apply castProp_attrs.
Qed.

Lemma cast_attrs instance emits rawProps :
  attrsOf (cast instance emits rawProps)
  = attrsOf (routed instance emits rawProps).
Proof.
  unfold cast, attrsOf. destruct (declaresProps (type instance));
    [now rewrite castProps_attrs | reflexivity].
Qed.

Lemma route_props_undeclared options emits (raw : Data) :
  forall l, l_props (fold_left (route false options emits) raw l) = l_props l.
Proof.
  induction raw as [|[k v] raw IH]; intros l; [reflexivity|].
  cbn [fold_left]. rewrite IH. unfold route. cbn [fst snd andb].
  destruct (isReservedProp k); [reflexivity|].
  destruct (listens emits k); reflexivity.
Qed.



(** *** Default values *)

(** What [default] stands for: the result of the call when it is a
    function. *)
Definition defaultValue (d : value) : value :=
  match d with VFunction _ ret => ret | _ => d end.

(** What a prop with the default [d] resolves to: the value passed, or
    the default when [undefined] is passed; when nothing is passed, the
    default again, unless the name of the prop is that of a member every
    object inherits: the props then read as holding it, and are left
    without the prop. *)
Definition orDefault (nk : string) (d : value) (current : option value)
  : option value :=
  match current with
  | Some v => Some (if isUndefined v then defaultValue d else v)
  | None => if isInherited nk then None else Some (defaultValue d)
  end.

(** What holds of every declaration kept by [normalizePropsOptions]: a
    declaration with a default value is listed for the second loop. *)
Definition defaultsListed (acc : NormalizedPropsOptions) : Prop :=
  forall k np,
    get (fst acc) k = Some (Some np) ->
    opt_default (np_options np) <> None -> In k (snd acc).

Lemma normalizeDecl_defaultsListed (acc : NormalizedPropsOptions)
    (entry : string * RawProp) :
  defaultsListed acc -> defaultsListed (normalizeDecl acc entry).
Proof.
  intros Hacc. destruct acc as [normalized needCastKeys].
  destruct entry as [k opt]. unfold normalizeDecl.
  destruct (validatePropName (camelize k)); [|exact Hacc].
  set (prop := match opt with
               | RawNull => None
               | RawCtor c => Some (mkPropOptions (TypeCtor c) false None None)
               | RawCtorArray cs =>
                   Some (mkPropOptions (TypeArray cs) false None None)
               | RawOptions o => Some o
               end).
  assert (Hgrow : forall (c : bool) x,
             In x needCastKeys ->
             In x (if c then (needCastKeys ++ [camelize k])%list
                   else needCastKeys)).
  { intros c x Hx. destruct c; [apply in_or_app; left|]; exact Hx. }
  destruct prop as [o|]; intros k' np' Hget Hdef; cbn [fst snd] in *;
    unfold assign in Hget;
    destruct (String.eqb (camelize k) "__proto__");
    try (apply Hgrow || idtac; exact (Hacc k' np' Hget Hdef)).
  - destruct (String.eqb (camelize k) k') eqn:E.
    + apply String.eqb_eq in E. subst k'. rewrite get_set_same in Hget.
      injection Hget as <-. cbn [np_options] in Hdef.
      destruct (opt_default o); [|contradiction].
      rewrite orb_true_r. apply in_or_app. right. now left.
    + apply String.eqb_neq in E. rewrite get_set_other in Hget by exact E.
      pose proof (Hacc k' np' Hget Hdef) as Hin. cbn [snd] in Hin.
      match goal with
      | |- In _ (if ?c then _ else _) => destruct c
      end; [apply in_or_app; left|]; exact Hin.
  - destruct (String.eqb (camelize k) k') eqn:E.
    + apply String.eqb_eq in E. subst k'. rewrite get_set_same in Hget.
      discriminate.
    + apply String.eqb_neq in E. rewrite get_set_other in Hget by exact E.
      exact (Hacc k' np' Hget Hdef).
Qed.

Lemma component_defaultsListed (c : Component) :
  plainDeclarations c = true ->
  defaultsListed (optionsOfComponent c, needCastKeysOf c).
Proof.
  unfold plainDeclarations, optionsOfComponent, needCastKeysOf.
  destruct (c_props c) as [[names | decls]|]; intros Hplain.
  - intros k np Hget Hdef. cbn [normalizePropsOptions entryOf fst] in Hget.
    exfalso.
    destruct (PropOptionsFacts.normalizeNames_keys names [] []
                PropOptionsFacts.keysFrom_nil) as [_ H]; [discriminate|].
    cbv zeta in H. specialize (H k). unfold hasOwn in H.
    rewrite Hget in H. specialize (H eq_refl).
    injection H as ->. now apply Hdef.
  - apply andb_prop in Hplain. destruct Hplain as [Hmemo _].
    rewrite (normalizePropsOptions_fresh _ Hmemo). cbn [entryOf fst snd].
    assert (H : forall ds acc, defaultsListed acc ->
                               defaultsListed (fold_left normalizeDecl ds acc)).
    { induction ds as [|d ds IH]; intros acc Hacc; [exact Hacc|].
      cbn [fold_left]. apply IH, normalizeDecl_defaultsListed, Hacc. }
    pose proof (H decls ([], [])) as Hd.
    destruct (fold_left normalizeDecl decls ([], [])) as [n ks].
    apply Hd. intros k np Hget. discriminate.
  - intros k np Hget. discriminate.
Qed.

Section OneDefault.

Variable options : obj (option NormalizedProp).
Variable nk : string.
Variable np : NormalizedProp.
Variable d : value.
Hypothesis Hnp : get options nk = Some (Some np).
Hypothesis Hdefault : opt_default (np_options np) = Some d.
Hypothesis Hplain : shouldCast np = false.

Lemma castProp_default (l : Locals) :
  get (l_props (castProp options l nk)) nk
  = orDefault nk d (get (l_props l) nk).
Proof.
  unfold castProp, readProp, orDefault. rewrite Hnp, Hdefault, Hplain.
  destruct (get (l_props l) nk) as [v|] eqn:G.
  - cbn [readsUndefined].
    destruct (isUndefined v); [apply setProp_get_same | exact G].
  - destruct (isInherited nk); cbn [readsUndefined isUndefined];
      [exact G | apply setProp_get_same].
Qed.

Lemma orDefault_stable (current : option value) :
  orDefault nk d (orDefault nk d current) = orDefault nk d current.
Proof.
  unfold orDefault. destruct current as [v|].
  - destruct (isUndefined v) eqn:V; cbv beta iota.
    + destruct (isUndefined (defaultValue d)); reflexivity.
    + rewrite V. reflexivity.
  - destruct (isInherited nk) eqn:I; cbv beta iota.
    + rewrite ?I. reflexivity.
    + destruct (isUndefined (defaultValue d)); reflexivity.
Qed.

Lemma castProps_default_stable (ks : list string) :
  forall l current,
    get (l_props l) nk = orDefault nk d current ->
    get (l_props (fold_left (castProp options) ks l)) nk
    = orDefault nk d current.
Proof.
  induction ks as [|k ks IH]; intros l current Hget; [exact Hget|].
  cbn [fold_left]. apply IH.
  destruct (String.eqb k nk) eqn:E.
  - apply String.eqb_eq in E. subst k.
    rewrite castProp_default, Hget. apply orDefault_stable.
  - apply String.eqb_neq in E. rewrite castProp_other by exact E. exact Hget.
Qed.

Lemma castProps_default (ks : list string) :
  In nk ks ->
  forall l,
    get (l_props (fold_left (castProp options) ks l)) nk
    = orDefault nk d (get (l_props l) nk).
Proof.
  induction ks as [|k ks IH]; intros Hin l; [contradiction|].
  cbn [fold_left].
  destruct (String.eqb k nk) eqn:E.
  - apply String.eqb_eq in E. subst k.
    apply castProps_default_stable, castProp_default.
  - apply String.eqb_neq in E. destruct Hin as [Hk | Hin]; [contradiction|].
    rewrite IH by exact Hin. now rewrite castProp_other.
Qed.

End OneDefault.


Definition sizeComponent : Component :=
  mkComponent
    (Some (PropsObject
             [("size", RawOptions (mkPropOptions (TypeCtor "Number") false
                                     (Some (VNumber 10)) None));
              ("items", RawOptions (mkPropOptions (TypeCtor "Array") false
                                      (Some (VFunction 1 (VObject 7)))
                                      None));
              ("valueOf", RawOptions (mkPropOptions (TypeCtor "Number") false
                                        (Some (VNumber 1)) None))]))
    None.


(** *** The props proxy *)

Lemma keys_set {V} (o : obj V) (k : string) (v : V) :
  keys (set o k v) = if hasOwn o k then keys o else (keys o ++ [k])%list.
Proof.
  unfold hasOwn, keys. induction o as [|[k' v'] o IH]; [reflexivity|].
  cbn [set get]. destruct (String.eqb k' k) eqn:E.
  - apply String.eqb_eq in E. subst. reflexivity.
  - cbn [map fst]. rewrite IH.
    destruct (get o k); reflexivity.
Qed.

Lemma get_none_keys {V} (o : obj V) (k : string) :
  get o k = None <-> ~ In k (keys o).
Proof.
  induction o as [|[k' v'] o IH]; cbn [get keys map fst In].
  - split; [intros _ [] | reflexivity].
  - destruct (String.eqb k' k) eqn:E.
    + apply String.eqb_eq in E. subst. split; [discriminate|].
      intros H. exfalso. apply H. now left.
    + apply String.eqb_neq in E. rewrite IH. unfold keys. tauto.
Qed.

Lemma NoDup_keys_set {V} (o : obj V) (k : string) (v : V) :
  NoDup (keys o) -> NoDup (keys (set o k v)).
Proof.
  intros H. rewrite keys_set. unfold hasOwn.
  destruct (get o k) eqn:G; [exact H|].
  apply get_none_keys in G.
  apply NoDup_app; [exact H | repeat constructor; intros [] |].
  intros x Hin [<- | []]. contradiction.
Qed.

Lemma get_delete_other {V} (o : obj V) (k k' : string) :
  k <> k' -> get (delete o k) k' = get o k'.
Proof.
  intros Hne. induction o as [|[k0 v0] o IH]; [reflexivity|].
  cbn [delete get]. destruct (String.eqb k0 k) eqn:E.
  - apply String.eqb_eq in E. subst k0.
    apply String.eqb_neq in Hne. now rewrite Hne.
  - cbn [get]. now rewrite IH.
Qed.

Lemma get_delete_same {V} (o : obj V) (k : string) :
  NoDup (keys o) -> get (delete o k) k = None.
Proof.
  induction o as [|[k0 v0] o IH]; intros Hnd; [reflexivity|].
  inversion Hnd as [|? ? Hnotin Hnd']; subst.
  cbn [delete]. destruct (String.eqb k0 k) eqn:E.
  - apply String.eqb_eq in E. subst k0. now apply get_none_keys.
  - cbn [get]. rewrite E. now apply IH.
Qed.

Lemma keys_delete_subset {V} (o : obj V) (k x : string) :
  In x (keys (delete o k)) -> In x (keys o).
Proof.
  induction o as [|[k0 v0] o IH]; [intros []|].
  cbn [delete]. destruct (String.eqb k0 k).
  - intros H. now right.
  - cbn [keys map fst In] in *. intros [H | H]; [now left | right; now apply IH].
Qed.

Lemma NoDup_keys_delete {V} (o : obj V) (k : string) :
  NoDup (keys o) -> NoDup (keys (delete o k)).
Proof.
  induction o as [|[k0 v0] o IH]; intros Hnd; [constructor|].
  inversion Hnd as [|? ? Hnotin Hnd']; subst.
  cbn [delete]. destruct (String.eqb k0 k); [exact Hnd'|].
  cbn [keys map fst]. constructor; [|now apply IH].
  intros Hin. apply Hnotin. now apply keys_delete_subset in Hin.
Qed.

(** The proxy holds what the props hold, and under the other keys what
    it held at first. *)
Definition mirrors (initial : Data) (l : Locals) : Prop :=
  exists p,
    l_proxy l = Some p /\ NoDup (keys p)
    /\ forall k, get p k = match get (l_props l) k with
                           | Some v => Some v
                           | None => get initial k
                           end.

Lemma mirrors_setProp initial (k : string) (v : value) (l : Locals) :
  mirrors initial l -> mirrors initial (setProp k v l).
Proof.
  intros (p & Hp & Hnd & Hget). exists (set p k v). unfold setProp.
  cbn [l_proxy l_props]. rewrite Hp. split; [reflexivity|].
  split; [now apply NoDup_keys_set|].
  intros k'. destruct (String.eqb k k') eqn:E.
  - apply String.eqb_eq in E. subst. now rewrite !get_set_same.
  - apply String.eqb_neq in E. rewrite !get_set_other by exact E. apply Hget.
Qed.

Lemma mirrors_route initial hd options emits (l : Locals)
    (entry : string * value) :
  mirrors initial l -> mirrors initial (route hd options emits l entry).
Proof.
  intros H. unfold route.
  destruct (isReservedProp (fst entry)); [exact H|].
  destruct (hd && _)%bool; [now apply mirrors_setProp|].
  destruct (listens emits (fst entry)); exact H.
Qed.

Lemma mirrors_castProp initial options (l : Locals) (k : string) :
  mirrors initial l -> mirrors initial (castProp options l k).
Proof.
  intros H. unfold castProp.
  destruct (get options k) as [[opt|]|]; try exact H.
  assert (H1 : mirrors initial
                 match opt_default (np_options opt) with
                 | Some defaultValue =>
                     if readsUndefined (readProp (l_props l) k)
                     then setProp k match defaultValue with
                                    | VFunction _ ret => ret
                                    | d => d
                                    end l
                     else l
                 | None => l
                 end).
  { destruct (opt_default (np_options opt)); [|exact H].
    destruct (readsUndefined _); [now apply mirrors_setProp | exact H]. }
  destruct (shouldCast opt); [|exact H1].
  destruct (_ && _)%bool; [now apply mirrors_setProp|].
  destruct (_ && _)%bool; [now apply mirrors_setProp | exact H1].
Qed.

Lemma mirrors_cast initial instance emits rawProps :
  propsProxy instance = Some initial -> NoDup (keys initial) ->
  mirrors initial (cast instance emits rawProps).
Proof.
  intros Hp Hnd.
  assert (H0 : mirrors initial (mkLocals [] None (propsProxy instance))).
  { exists initial. rewrite Hp. repeat split; assumption. }
  assert (Hfold : forall A (f : Locals -> A -> Locals) (xs : list A),
             (forall l x, mirrors initial l -> mirrors initial (f l x)) ->
             forall l, mirrors initial l ->
                       mirrors initial (fold_left f xs l)).
  { intros A f xs Hf. induction xs as [|x xs IH]; intros l Hl; [exact Hl|].
    cbn [fold_left]. apply IH, Hf, Hl. }
  assert (H1 : mirrors initial (routed instance emits rawProps)).
  { unfold routed. apply Hfold; [|exact H0].
    intros l x. apply mirrors_route. }
  unfold cast. destruct (declaresProps (type instance)); [|exact H1].
  apply Hfold; [|exact H1]. intros l x. apply mirrors_castProp.
Qed.

Lemma get_prune (target : Data) (k : string) (ks : list string) :
  forall q : Data,
    NoDup (keys q) ->
    NoDup (keys (fold_left
                   (fun q k => if hasOwn target k then q else delete q k)
                   ks q))
    /\ get (fold_left
              (fun q k => if hasOwn target k then q else delete q k) ks q) k
       = if (existsb (String.eqb k) ks && negb (hasOwn target k))%bool
         then None else get q k.
Proof.
  induction ks as [|x ks IH]; intros q Hnd; cbn [fold_left existsb].
  - split; [exact Hnd | reflexivity].
  - destruct (hasOwn target x) eqn:Hx.
    + destruct (IH q Hnd) as [H1 H2]. split; [exact H1|]. rewrite H2.
      destruct (String.eqb k x) eqn:E; [|reflexivity].
      apply String.eqb_eq in E. subst x. rewrite Hx. cbn.
      now rewrite andb_false_r.
    + destruct (IH (delete q x) (NoDup_keys_delete _ _ Hnd)) as [H1 H2].
      split; [exact H1|]. rewrite H2.
      destruct (String.eqb k x) eqn:E.
      * apply String.eqb_eq in E. subst x. rewrite Hx. cbn [orb negb andb].
        rewrite andb_true_r.
        destruct (existsb _ ks); [reflexivity | now apply get_delete_same].
      * cbn [orb]. apply String.eqb_neq in E.
        rewrite get_delete_other by (intros ->; now apply E).
        reflexivity.
Qed.



End ResolveFacts.

(** ** The codegen transform of the server renderer
       (ssrCodegenTransform.ts) *)

Module SsrCodegenFacts.
Import Js SsrCodegen StringFacts.

(** The context after the given parts were pushed, in order. *)
Definition pushAll (parts : list Part) (ctx : SSRTransformContext)
  : SSRTransformContext :=
  fold_left (fun c part => pushStringPart part c) parts ctx.

(** The context holds one statement, a call of [_push] on one template
    literal with the given elements, and its two variables name them. *)
Definition holds (ctx : SSRTransformContext) (elems : list Part) : Prop :=
  ctx = mkContext
          [mkCallExpression (CalleeName "_push") [mkTemplateLiteral elems]]
          (Some 0%nat) (Some 0%nat).

(** The elements pushed so far. *)
Definition elementsOf (ctx : SSRTransformContext) : list Part :=
  match body ctx with
  | c :: _ => match arguments c with
              | t :: _ => elements t
              | [] => []
              end
  | [] => []
  end.

(** A context as [createSSRTransformContext] makes it, or one with
    parts pushed. *)
Definition reachable (ctx : SSRTransformContext) : Prop :=
  ctx = createSSRTransformContext \/ exists elems, holds ctx elems.

Fixpoint noAdjacentStrings (l : list Part) : bool :=
  match l with
  | [] => true
  | x :: l' =>
      match l' with
      | [] => true
      | y :: _ => (negb (isString x && isString y) && noAdjacentStrings l')%bool
      end
  end.

(** The value of a template literal, for a given value of each
    expression: the concatenation of its strings and the values of its
    expressions. *)
Section Value.

Variable valueOfCall : Callee -> list JSChildNode -> string.
Variable valueOfNode : JSChildNode -> string.

Definition valueOfPart (p : Part) : string :=
  match p with
  | PString s => s
  | PCall c args => valueOfCall c args
  | PNode e => valueOfNode e
  end.

Fixpoint valueOf (l : list Part) : string :=
  match l with
  | [] => EmptyString
  | p :: l' => valueOfPart p ++ valueOf l'
  end.

Lemma valueOf_app (a b : list Part) :
  valueOf (a ++ b) = valueOf a ++ valueOf b.
Proof.
  induction a as [|p a IH]; cbn; [reflexivity|].
  now rewrite IH, append_assoc.
Qed.

Lemma bufferPart_cases (part : Part) (l : list Part) :
  (exists l0 s t, l = (l0 ++ [PString s])%list /\ part = PString t
                  /\ bufferPart part l = (l0 ++ [PString (s ++ t)])%list)
  \/ (bufferPart part l = (l ++ [part])%list
      /\ (isString part
          && match List.last (map Some l) None with
             | Some x => isString x
             | None => false
             end)%bool = false).
Proof.
  unfold bufferPart.
  destruct l as [|x l] using rev_ind.
  - right. cbn. destruct part; split; reflexivity.
  - rewrite map_app. cbn [map]. rewrite last_last, removelast_last.
    destruct part as [t| |]; try (right; split; reflexivity).
    destruct x as [s| |]; try (right; split; reflexivity).
    left. exists l, s, t. repeat split.
Qed.

Lemma valueOf_bufferPart (part : Part) (l : list Part) :
  valueOf (bufferPart part l) = valueOf l ++ valueOfPart part.
Proof.
  destruct (bufferPart_cases part l) as [(l0 & s & t & -> & -> & ->) | [-> _]].
  - rewrite !valueOf_app. cbn. now rewrite !append_nil_r, append_assoc.
  - rewrite valueOf_app. cbn. now rewrite append_nil_r.
Qed.

End Value.

Lemma noAdjacentStrings_snoc (l : list Part) (x : Part) :
  noAdjacentStrings (l ++ [x])
  = (noAdjacentStrings l
     && negb (isString x
              && match List.last (map Some l) None with
                 | Some y => isString y
                 | None => false
                 end))%bool.
Proof.
  induction l as [|a l IH]; [cbn; now rewrite andb_false_r|].
  destruct l as [|b l].
  - cbn. destruct (isString a), (isString x); reflexivity.
  - change (noAdjacentStrings ((a :: b :: l) ++ [x]))
      with (negb (isString a && isString b)
            && noAdjacentStrings ((b :: l) ++ [x]))%bool.
    rewrite IH.
    change (noAdjacentStrings (a :: b :: l))
      with (negb (isString a && isString b) && noAdjacentStrings (b :: l))%bool.
    change (List.last (map Some (a :: b :: l)) None)
      with (List.last (map Some (b :: l)) None).
    now rewrite andb_assoc.
Qed.

Lemma noAdjacentStrings_bufferPart (part : Part) (l : list Part) :
  noAdjacentStrings l = true -> noAdjacentStrings (bufferPart part l) = true.
Proof.
  intros H.
  destruct (bufferPart_cases part l) as [(l0 & s & t & -> & -> & ->) | [-> E]].
  - rewrite noAdjacentStrings_snoc in *. exact H.
  - rewrite noAdjacentStrings_snoc, H, E. reflexivity.
Qed.

Lemma push_reachable (part : Part) (ctx : SSRTransformContext) :
  reachable ctx ->
  holds (pushStringPart part ctx) (bufferPart part (elementsOf ctx)).
Proof.
  intros [-> | (elems & ->)]; reflexivity.
Qed.

Lemma holds_elementsOf (ctx : SSRTransformContext) (elems : list Part) :
  holds ctx elems -> elementsOf ctx = elems.
Proof. now intros ->. Qed.

Lemma pushAll_reachable (parts : list Part) :
  forall ctx,
    reachable ctx ->
    reachable (pushAll parts ctx)
    /\ (parts <> [] -> exists elems, holds (pushAll parts ctx) elems)
    /\ (noAdjacentStrings (elementsOf ctx) = true ->
        noAdjacentStrings (elementsOf (pushAll parts ctx)) = true)
    /\ forall vc vn,
         valueOf vc vn (elementsOf (pushAll parts ctx))
         = valueOf vc vn (elementsOf ctx) ++ valueOf vc vn parts.
Proof.
  induction parts as [|part parts IH]; intros ctx Hr.
  - cbn. split; [exact Hr|]. split; [intros H; contradiction|].
    split; [auto|]. intros. now rewrite append_nil_r.
  - pose proof (push_reachable part ctx Hr) as Hh.
    assert (Hr' : reachable (pushStringPart part ctx))
      by (right; eexists; exact Hh).
    destruct (IH _ Hr') as (H1 & H2 & H3 & H4).
    change (pushAll (part :: parts) ctx)
      with (pushAll parts (pushStringPart part ctx)).
    split; [exact H1|]. split.
    { intros _. destruct parts as [|p ps].
      - eexists. exact Hh.
      - apply H2. discriminate. }
    rewrite (holds_elementsOf _ _ Hh) in *.
    split.
    { intros Hn. apply H3. now apply noAdjacentStrings_bufferPart. }
    intros vc vn. rewrite H4, valueOf_bufferPart. cbn [valueOf].
    now rewrite append_assoc.
Qed.

(** X18: Pushing parts on a new context makes one statement of them: one
    call of [_push] on one template literal.  No two neighbouring
    elements of the literal are strings, and whatever the values of the
    expressions, the value of the literal is the concatenation of the
    values of the parts in the order pushed.  Without a push the body
    stays empty. *)
Theorem pushStringPart_one_template (parts : list Part) :
  (parts = [] -> body (pushAll parts createSSRTransformContext) = [])
  /\ (parts <> [] ->
      exists elems,
        body (pushAll parts createSSRTransformContext)
        = [mkCallExpression (CalleeName "_push") [mkTemplateLiteral elems]]
        /\ noAdjacentStrings elems = true
        /\ forall valueOfCall valueOfNode,
             valueOf valueOfCall valueOfNode elems
             = valueOf valueOfCall valueOfNode parts).
Proof.
  split; [intros ->; reflexivity|]. intros Hne.
  destruct (pushAll_reachable parts createSSRTransformContext)
    as (_ & H2 & H3 & H4); [now left|].
  destruct (H2 Hne) as (elems & Hh). exists elems.
  rewrite (holds_elementsOf _ _ Hh) in *. rewrite Hh.
  split; [reflexivity|]. split; [now apply H3|].
  intros vc vn. now rewrite H4.
Qed.

Lemma pushStringPart_one_template_witness :
  exists elems,
    body (pushAll [PString "<p>"; PString "a"; PNode 1%nat; PString "</p>"]
                  createSSRTransformContext)
    = [mkCallExpression (CalleeName "_push") [mkTemplateLiteral elems]]
    /\ noAdjacentStrings elems = true
    /\ forall valueOfCall valueOfNode,
         valueOf valueOfCall valueOfNode elems
         = valueOf valueOfCall valueOfNode
             [PString "<p>"; PString "a"; PNode 1%nat; PString "</p>"].
Proof.
  apply (proj2 (pushStringPart_one_template
                  [PString "<p>"; PString "a"; PNode 1%nat; PString "</p>"])).
  discriminate.
Defined.

(** *** The children *)

Section NodeInduction.

Variable P : TemplateChildNode -> Prop.
Hypothesis Pelement :
  forall tagType tag node children,
    Forall P children -> P (ElementNode tagType tag node children).
Hypothesis Ptext : forall content, P (TextNode content).
Hypothesis Pinterpolation : forall content, P (InterpolationNode content).
Hypothesis Pif : P IfNode.
Hypothesis Pfor : P ForNode.
Hypothesis Pcomment : P CommentNode.

Fixpoint node_induction (n : TemplateChildNode) : P n :=
  match n with
  | ElementNode tagType tag node children =>
      Pelement tagType tag node children
        ((fix all (l : list TemplateChildNode) : Forall P l :=
            match l with
            | [] => Forall_nil P
            | x :: l' => Forall_cons x (node_induction x) (all l')
            end) children)
  | TextNode content => Ptext content
  | InterpolationNode content => Pinterpolation content
  | IfNode => Pif
  | ForNode => Pfor
  | CommentNode => Pcomment
  end.

End NodeInduction.

Section Render.

Variable escapeHtml : string -> string.
Variable INTERPOLATE : Callee.
Variable options_isVoidTag : option (string -> bool).

(** Every plain element, at any depth below plain elements, has the
    template literal the transforms leave on it. *)
Fixpoint hasCodegenNodes (child : TemplateChildNode) : bool :=
  match child with
  | ElementNode ELEMENT _ node children =>
      (match node with Some _ => true | None => false end
       && forallb hasCodegenNodes children)%bool
  | _ => true
  end.

Variable valueOfCall : Callee -> list JSChildNode -> string.
Variable valueOfNode : JSChildNode -> string.

(** The markup of a child, for a given value of each expression: the
    opening tag as the element's template literal has it, the children,
    the closing tag unless the tag is void; the escaped content of a
    text; the interpolated value of an interpolation. *)
Fixpoint markupOf (child : TemplateChildNode) : string :=
  match child with
  | ElementNode ELEMENT tag node children =>
      match node with
      | Some literal => valueOf valueOfCall valueOfNode (elements literal)
      | None => EmptyString
      end
      ++ (fix each (l : list TemplateChildNode) : string :=
            match l with
            | [] => EmptyString
            | x :: l' => markupOf x ++ each l'
            end) children
      ++ (if negb (isVoidTag options_isVoidTag tag)
          then "</" ++ tag ++ ">" else EmptyString)
  | ElementNode _ _ _ _ => EmptyString
  | TextNode content => escapeHtml content
  | InterpolationNode content => valueOfCall INTERPOLATE [content]
  | IfNode | ForNode | CommentNode => EmptyString
  end.

Fixpoint markupOfAll (children : list TemplateChildNode) : string :=
  match children with
  | [] => EmptyString
  | x :: l' => markupOf x ++ markupOfAll l'
  end.

End Render.

(** What a step of the transform does to a reachable context [ctx]:
    it throws exactly when a template literal is missing, and otherwise
    adds the markup [added] to the value of the elements. *)
Definition adds (ctx : SSRTransformContext)
    (result : option SSRTransformContext) (complete : bool)
    (added : (Callee -> list JSChildNode -> string) ->
             (JSChildNode -> string) -> string) : Prop :=
  match result with
  | Some ctx' =>
      complete = true
      /\ reachable ctx'
      /\ (ctx' = createSSRTransformContext -> ctx = createSSRTransformContext)
      /\ (noAdjacentStrings (elementsOf ctx) = true ->
          noAdjacentStrings (elementsOf ctx') = true)
      /\ forall vc vn,
           valueOf vc vn (elementsOf ctx')
           = valueOf vc vn (elementsOf ctx) ++ added vc vn
  | None => complete = false
  end.

Lemma adds_pushAll (parts : list Part) (ctx : SSRTransformContext) :
  reachable ctx ->
  adds ctx (Some (pushAll parts ctx)) true
       (fun vc vn => valueOf vc vn parts).
Proof.
  intros Hr. destruct (pushAll_reachable parts ctx Hr) as (H1 & H2 & H3 & H4).
  split; [reflexivity|]. split; [exact H1|]. split.
  { intros E. destruct parts as [|p ps]; [exact E|].
    destruct (H2 ltac:(discriminate)) as (elems & Hh).
    rewrite Hh in E. discriminate. }
  split; [exact H3 | exact H4].
Qed.

Lemma adds_push (part : Part) (ctx : SSRTransformContext) :
  reachable ctx ->
  adds ctx (Some (pushStringPart part ctx)) true
       (fun vc vn => valueOfPart vc vn part).
Proof.
  intros Hr. destruct (adds_pushAll [part] ctx Hr) as (H0 & H1 & H2 & H3 & H4).
  change (pushAll [part] ctx) with (pushStringPart part ctx) in *.
  split; [reflexivity|]. split; [exact H1|]. split; [exact H2|].
  split; [exact H3|].
  intros vc vn. rewrite (H4 vc vn). cbn. now rewrite append_nil_r.
Qed.

Lemma adds_nothing (ctx : SSRTransformContext) :
  reachable ctx -> adds ctx (Some ctx) true (fun _ _ => EmptyString).
Proof.
  intros Hr. split; [reflexivity|]. split; [exact Hr|]. split; [auto|].
  split; [auto|]. intros. now rewrite append_nil_r.
Qed.

(** Steps in sequence. *)
Lemma adds_then (ctx : SSRTransformContext)
    (first : option SSRTransformContext) (c1 : bool) added1
    (next : SSRTransformContext -> option SSRTransformContext)
    (c2 : bool) added2 :
  adds ctx first c1 added1 ->
  (forall ctx', reachable ctx' -> adds ctx' (next ctx') c2 added2) ->
  adds ctx match first with Some ctx' => next ctx' | None => None end
       (c1 && c2)%bool
       (fun vc vn => added1 vc vn ++ added2 vc vn).
Proof.
  intros H1 H2. destruct first as [ctx1|]; [|now cbn in *; subst].
  destruct H1 as (-> & Hr1 & Hf1 & Hn1 & Hv1).
  specialize (H2 ctx1 Hr1). unfold adds in *.
  destruct (next ctx1) as [ctx2|]; [|exact H2].
  destruct H2 as (-> & Hr2 & Hf2 & Hn2 & Hv2).
  split; [reflexivity|]. split; [exact Hr2|]. split; [auto|].
  split; [auto|].
  intros vc vn. now rewrite Hv2, Hv1, append_assoc.
Qed.

Section Children.

Variable escapeHtml : string -> string.
Variable INTERPOLATE : Callee.
Variable options_isVoidTag : option (string -> bool).

Lemma processChildren_adds (children : list TemplateChildNode) :
  Forall (fun child =>
            forall ctx, reachable ctx ->
              adds ctx (processChild escapeHtml INTERPOLATE options_isVoidTag
                                     child ctx)
                   (hasCodegenNodes child)
                   (fun vc vn =>
                      markupOf escapeHtml INTERPOLATE options_isVoidTag
                               vc vn child))
         children ->
  forall first ctx c0 added0,
    adds ctx first c0 added0 ->
    adds ctx
         (processChildren escapeHtml INTERPOLATE options_isVoidTag
                          children first)
         (c0 && forallb hasCodegenNodes children)%bool
         (fun vc vn =>
            added0 vc vn
            ++ markupOfAll escapeHtml INTERPOLATE options_isVoidTag
                           vc vn children).
Proof.
  induction 1 as [|child children Hchild _ IH]; intros first ctx c0 added0 H0.
  - cbn [processChildren forallb markupOfAll]. rewrite andb_true_r.
    unfold adds in *. destruct first; [|exact H0].
    destruct H0 as (? & ? & ? & ? & Hv). repeat split; auto.
    intros vc vn. now rewrite append_nil_r.
  - cbn [processChildren forallb markupOfAll].
    pose proof (adds_then ctx first c0 added0 _ _ _ H0 Hchild) as H1.
    specialize (IH _ ctx _ _ H1).
    assert (E : processChildren escapeHtml INTERPOLATE options_isVoidTag
                  children
                  match first with
                  | Some ctx' =>
                      processChild escapeHtml INTERPOLATE options_isVoidTag
                                   child ctx'
                  | None => None
                  end
                = match first with
                  | Some c =>
                      processChildren escapeHtml INTERPOLATE
                        options_isVoidTag children
                        (processChild escapeHtml INTERPOLATE
                                      options_isVoidTag child c)
                  | None => None
                  end).
    { destruct first; [reflexivity|]. now destruct children. }
    rewrite E in IH. rewrite andb_assoc.
    unfold adds in *.
    destruct (match first with Some _ => _ | None => _ end);
      [|exact IH].
    destruct IH as (? & ? & ? & ? & Hv). repeat split; auto.
    intros vc vn. now rewrite Hv, append_assoc.
Qed.

Lemma processChild_adds (child : TemplateChildNode) :
  forall ctx, reachable ctx ->
    adds ctx (processChild escapeHtml INTERPOLATE options_isVoidTag child ctx)
         (hasCodegenNodes child)
         (fun vc vn =>
            markupOf escapeHtml INTERPOLATE options_isVoidTag vc vn child).
Proof.
  induction child as [tagType tag node children IH|content|content| | |]
    using node_induction; intros ctx Hr;
    try (now apply adds_nothing);
    try (exact (adds_push _ ctx Hr)).
  destruct tagType; try (now apply adds_nothing).
  cbn [hasCodegenNodes markupOf]. destruct node as [literal|].
  - change (processChild escapeHtml INTERPOLATE options_isVoidTag
              (ElementNode ELEMENT tag (Some literal) children) ctx)
      with (match processChildren escapeHtml INTERPOLATE options_isVoidTag
                    children (Some (pushAll (elements literal) ctx)) with
            | Some context2 =>
                if negb (isVoidTag options_isVoidTag tag)
                then Some (pushStringPart (PString ("</" ++ tag ++ ">"))
                                          context2)
                else Some context2
            | None => None
            end).
    pose proof (processChildren_adds children IH _ ctx _ _
                  (adds_pushAll (elements literal) ctx Hr)) as H1.
    assert (H2 : forall ctx', reachable ctx' ->
                   adds ctx'
                     (if negb (isVoidTag options_isVoidTag tag)
                      then Some (pushStringPart (PString ("</" ++ tag ++ ">"))
                                                ctx')
                      else Some ctx')
                     true
                     (fun _ _ => if negb (isVoidTag options_isVoidTag tag)
                                 then "</" ++ tag ++ ">" else EmptyString)).
    { intros ctx' Hr'. destruct (negb (isVoidTag options_isVoidTag tag));
        [exact (adds_push _ ctx' Hr') | now apply adds_nothing]. }
    pose proof (adds_then ctx _ _ _ _ _ _ H1 H2) as H3.
    cbn [andb] in H3. rewrite andb_true_r in H3.
    unfold adds in *.
    destruct (processChildren escapeHtml INTERPOLATE options_isVoidTag
                children (Some (pushAll (elements literal) ctx)));
      [|exact H3].
    assert (Hm : forall vc vn l,
               (fix each (l : list TemplateChildNode) : string :=
                  match l with
                  | [] => EmptyString
                  | x :: l' =>
                      markupOf escapeHtml INTERPOLATE options_isVoidTag
                               vc vn x ++ each l'
                  end) l
               = markupOfAll escapeHtml INTERPOLATE options_isVoidTag vc vn l)
      by (intros vc vn l; induction l as [|x l IHl]; cbn;
          [reflexivity | now rewrite IHl]).
    destruct (negb (isVoidTag options_isVoidTag tag));
      destruct H3 as (? & ? & ? & ? & Hv); repeat split; auto;
      intros vc vn; rewrite Hv, !append_assoc, Hm; reflexivity.
  - reflexivity.
Qed.

End Children.

(** X19: The transform turns the children of the root into at most one
    statement.  When every plain element carries its template literal,
    the body it returns is empty, or one call of [_push] on one
    template literal; no two neighbouring elements of the literal are
    strings, and for any values of the expressions the value of the
    literal is the markup of the children in order, between two
    [<!---->] markers when the root is a fragment (more than one child,
    not all of them text).  When a plain element lacks its template
    literal the transform throws. *)
Theorem ssrCodegenTransform_markup
    (escapeHtml : string -> string) (INTERPOLATE : Callee)
    (isText : TemplateChildNode -> bool)
    (options_isVoidTag : option (string -> bool))
    (children : list TemplateChildNode) :
  let isFragment :=
    ((1 <? Z.of_nat (List.length children))
     && negb (forallb isText children))%bool in
  if forallb hasCodegenNodes children
  then
    exists statements elems,
      ssrCodegenTransform escapeHtml INTERPOLATE isText options_isVoidTag
                          children
      = Some statements
      /\ ((statements = [] /\ elems = [])
          \/ statements
             = [mkCallExpression (CalleeName "_push")
                                 [mkTemplateLiteral elems]])
      /\ noAdjacentStrings elems = true
      /\ forall valueOfCall valueOfNode,
           valueOf valueOfCall valueOfNode elems
           = if isFragment
             then "<!---->"
                  ++ markupOfAll escapeHtml INTERPOLATE options_isVoidTag
                                 valueOfCall valueOfNode children
                  ++ "<!---->"
             else markupOfAll escapeHtml INTERPOLATE options_isVoidTag
                              valueOfCall valueOfNode children
  else
    ssrCodegenTransform escapeHtml INTERPOLATE isText options_isVoidTag
                        children
    = None.
Proof.
  intros isFragment. unfold ssrCodegenTransform. fold isFragment.
  assert (Hfresh : reachable createSSRTransformContext) by now left.
  assert (H0 : adds createSSRTransformContext
                 (Some (if isFragment
                        then pushStringPart (PString "<!---->")
                                            createSSRTransformContext
                        else createSSRTransformContext))
                 true
                 (fun _ _ => if isFragment then "<!---->" else EmptyString)).
  { destruct isFragment;
      [exact (adds_push _ _ Hfresh) | now apply adds_nothing]. }
  assert (Hall : Forall
                   (fun child =>
                      forall ctx, reachable ctx ->
                        adds ctx
                          (processChild escapeHtml INTERPOLATE
                                        options_isVoidTag child ctx)
                          (hasCodegenNodes child)
                          (fun vc vn =>
                             markupOf escapeHtml INTERPOLATE options_isVoidTag
                                      vc vn child))
                   children).
  { apply Forall_forall. intros child _. apply processChild_adds. }
  pose proof (processChildren_adds escapeHtml INTERPOLATE options_isVoidTag
                children Hall _ _ _ _ H0) as H1.
  cbn [andb] in H1. unfold adds in H1.
  destruct (processChildren _ _ _ _ _) as [ctx2|]; [|now rewrite H1].
  destruct H1 as (-> & Hr2 & _ & Hn2 & Hv2).
  assert (H3 : adds ctx2
                 (Some (if isFragment
                        then pushStringPart (PString "<!---->") ctx2
                        else ctx2))
                 true
                 (fun _ _ => if isFragment then "<!---->" else EmptyString)).
  { destruct isFragment;
      [exact (adds_push _ _ Hr2) | now apply adds_nothing]. }
  destruct H3 as (_ & Hr3 & _ & Hn3 & Hv3).
  exists (body (if isFragment
                then pushStringPart (PString "<!---->") ctx2 else ctx2)),
         (elementsOf (if isFragment
                      then pushStringPart (PString "<!---->") ctx2 else ctx2)).
  split; [reflexivity|]. split.
  { destruct Hr3 as [-> | (elems & ->)]; [now left | now right]. }
  split; [apply Hn3, Hn2; reflexivity|].
  intros vc vn. rewrite Hv3, Hv2. cbn [elementsOf body valueOf append].
  destruct isFragment; [now rewrite !append_assoc | now rewrite append_nil_r].
Qed.

End SsrCodegenFacts.

(** ** Runtime types of props (compileScript.ts) *)

Module RuntimeTypesFacts.
Import Js RuntimeTypes.

Definition isNewArray (x : Item) : bool :=
  match x with IArray _ => true | _ => false end.

Lemma uniqueFrom_new (items : list Item) :
  forallb isNewArray items = true ->
  forall seen, uniqueFrom seen items = items.
Proof.
  induction items as [|x items IH]; intros H seen; [reflexivity|].
  cbn [forallb] in H. apply andb_prop in H. destruct H as [Hx H].
  cbn [uniqueFrom].
  assert (E : existsb (sameValue x) seen = false).
  { destruct x; try discriminate. clear.
    induction seen as [|y seen IH]; [reflexivity|]. cbn. exact IH. }
  rewrite E. f_equal. now apply IH.
Qed.

Lemma existsb_isNullName_new (items : list Item) :
  forallb isNewArray items = true -> existsb isNullName items = false.
Proof.
  induction items as [|x items IH]; [reflexivity|]. cbn [forallb existsb].
  intros H. apply andb_prop in H. destruct H as [Hx H].
  rewrite (IH H). now destruct x.
Qed.

(** X20: In a union of types none of which names a declared type, every
    member has an entry of its own in the inferred types, in order: the
    arrays inferred for the members are not flattened, and none is
    merged or dropped, also when two members infer the same type or a
    member infers [null].  With two members or more, the type that goes
    into the generated code is then the bracketed list of what the
    members inferred, and never [null]. *)
Theorem inferRuntimeType_union_entries
    (declaredTypes : string -> option nat)
    (elementsAt : nat -> option (list Item)) (textAt : nat -> string)
    (types : list TSType) :
  (forall name, In (TSTypeReference (TNIdentifier name)) types ->
                declaredTypes name = None) ->
  inferRuntimeType declaredTypes (TSUnionType types)
  = IArray (map (inferRuntimeType declaredTypes) types)
  /\ ((2 <= List.length types)%nat ->
      runtimeTypeText elementsAt textAt
        (inferRuntimeType declaredTypes (TSUnionType types))
      = Some ("[" ++ join ", "
                       (map (fun t => toString textAt
                                        (inferRuntimeType declaredTypes t))
                            types)
                  ++ "]")).
Proof.
  intros Hplain.
  assert (Hnew : forallb isNewArray (map (inferRuntimeType declaredTypes) types)
                 = true).
  { apply forallb_forall. intros x Hin. apply in_map_iff in Hin.
    destruct Hin as (t & <- & Hin).
    destruct t as [| | | | | | | |lit|[name|]| | |]; try reflexivity.
    - now destruct lit.
    - cbn [inferRuntimeType]. rewrite (Hplain name Hin).
      now destruct (builtinReference name). }
  assert (E : inferRuntimeType declaredTypes (TSUnionType types)
              = IArray (map (inferRuntimeType declaredTypes) types)).
  { cbn [inferRuntimeType]. unfold unique. now rewrite uniqueFrom_new. }
  split; [exact E|]. intros Hlen. rewrite E.
  unfold runtimeTypeText, toRuntimeTypeString.
  rewrite (existsb_isNullName_new _ Hnew), length_map.
  destruct (Z.ltb_spec 1 (Z.of_nat (List.length types))); [|lia].
  cbn [toString]. now rewrite map_map.
Qed.

(** [string | null | 'a' | 'b']. *)
Lemma inferRuntimeType_union_entries_witness :
  runtimeTypeText (fun _ => None) (fun _ => EmptyString)
    (inferRuntimeType (fun _ => None)
       (TSUnionType [TSStringKeyword; TSOtherType;
                     TSLiteralType StringLiteral;
                     TSLiteralType StringLiteral]))
  = Some "[String, null, String, String]".
Proof.
  refine (eq_trans
            (proj2 (inferRuntimeType_union_entries
                      (fun _ => None) (fun _ => None) (fun _ => EmptyString)
                      [TSStringKeyword; TSOtherType;
                       TSLiteralType StringLiteral;
                       TSLiteralType StringLiteral]
                      _) _) _).
  - intros name H. reflexivity.
  - cbn. lia.
  - reflexivity.
Defined.

End RuntimeTypesFacts.

(** ** Bindings of a script block (compileScript.ts) *)

Module BindingFacts.
Import Js CompileScript.

(** No binding of [b'] is a constant unless [b] has it as one, and no
    binding of [b] is missing from [b']. *)
Definition addsNoConst (b b' : BindingMetadata) : Prop :=
  (forall k, get b' k = Some CONST -> get b k = Some CONST)
  /\ (forall k, hasOwn b k = true -> hasOwn b' k = true).

Lemma addsNoConst_refl (b : BindingMetadata) : addsNoConst b b.
Proof. split; auto. Qed.

Lemma addsNoConst_trans (a b c : BindingMetadata) :
  addsNoConst a b -> addsNoConst b c -> addsNoConst a c.
Proof. intros [H1 H2] [H3 H4]. split; auto. Qed.

Lemma addsNoConst_set (b : BindingMetadata) (k : string) (ty : BindingTypes) :
  ty <> CONST -> addsNoConst b (set b k ty).
Proof.
  intros Hty. split; intros k'.
  - destruct (String.eqb k k') eqn:E.
    + apply String.eqb_eq in E. subst. rewrite PropsFacts.get_set_same.
      congruence.
    + apply String.eqb_neq in E. now rewrite PropsFacts.get_set_other.
  - rewrite PropOptionsFacts.hasOwn_set. intros ->. apply orb_true_r.
Qed.

Lemma addsNoConst_setAll (ty : BindingTypes) (names : list string) :
  ty <> CONST -> forall b, addsNoConst b (setAll ty names b).
Proof.
  intros Hty. unfold setAll.
  induction names as [|n names IH]; intros b; [apply addsNoConst_refl|].
  cbn [fold_left]. eapply addsNoConst_trans; [|apply IH].
  unfold assign. destruct (String.eqb n "__proto__");
    [apply addsNoConst_refl | now apply addsNoConst_set].
Qed.

Lemma addsNoConst_fold {A} (f : BindingMetadata -> A -> BindingMetadata)
    (xs : list A) :
  (forall b x, addsNoConst b (f b x)) ->
  forall b, addsNoConst b (fold_left f xs b).
Proof.
  intros Hf. induction xs as [|x xs IH]; intros b; [apply addsNoConst_refl|].
  cbn [fold_left]. eapply addsNoConst_trans; [apply Hf | apply IH].
Qed.

Lemma analyzeProperty_noConst (b : BindingMetadata) (property : ObjectMember) :
  addsNoConst b (analyzeProperty b property).
Proof.
  unfold analyzeProperty.
  destruct property as [computed key value|computed key body|argument];
    try apply addsNoConst_refl.
  - destruct computed; [apply addsNoConst_refl|].
    destruct key; try apply addsNoConst_refl.
    destruct (String.eqb name "props");
      [apply addsNoConst_setAll; discriminate|].
    destruct (String.eqb name "inject");
      [apply addsNoConst_setAll; discriminate|].
    destruct value; try apply addsNoConst_refl.
    destruct (_ || _)%bool;
      [apply addsNoConst_setAll; discriminate | apply addsNoConst_refl].
  - destruct key; try apply addsNoConst_refl.
    destruct (_ || _)%bool; [|apply addsNoConst_refl].
    apply addsNoConst_fold. intros b' item.
    destruct item as [[[]|]|]; try apply addsNoConst_refl.
    apply addsNoConst_setAll. destruct (String.eqb name "setup"); discriminate.
Qed.

Definition isDefaultObject (s : Statement) : bool :=
  match s with
  | ExportDefaultDeclaration (ObjectExpression _) => true
  | _ => false
  end.

(** X21: The bindings read off a plain script block are those of the first
    [export default] of an object literal; no binding among them is a
    constant, and without such an export there is none. *)
Theorem analyzeScriptBindings_no_constant (ast : list Statement) :
  (forall k, get (analyzeScriptBindings ast) k <> Some CONST)
  /\ (existsb isDefaultObject ast = false -> analyzeScriptBindings ast = [])
  /\ (forall before properties rest,
        ast = (before ++ ExportDefaultDeclaration (ObjectExpression properties)
                      :: rest)%list ->
        existsb isDefaultObject before = false ->
        analyzeScriptBindings ast = analyzeBindingsFromOptions properties).
Proof.
  split; [|split].
  - induction ast as [|s ast IH]; intros k; [discriminate|].
    cbn [analyzeScriptBindings].
    destruct s as [d|[]|ty|ty]; try apply IH.
    unfold analyzeBindingsFromOptions.
    destruct (addsNoConst_fold analyzeProperty properties
                analyzeProperty_noConst []) as [H _].
    intros E. apply H in E. discriminate.
  - induction ast as [|s ast IH]; [reflexivity|].
    cbn [existsb analyzeScriptBindings]. intros H.
    apply orb_false_elim in H. destruct H as [Hs H].
    destruct s as [d|[]|ty|ty]; try (now apply IH). discriminate.
  - intros before properties rest -> Hbefore.
    induction before as [|s before IH]; [reflexivity|].
    cbn [existsb] in Hbefore. apply orb_false_elim in Hbefore.
    destruct Hbefore as [Hs Hbefore]. cbn [app analyzeScriptBindings].
    destruct s as [d|[]|ty|ty]; try (now apply IH). discriminate.
Qed.

Lemma analyzeScriptBindings_no_constant_witness :
  analyzeScriptBindings
    [OtherStatement "ImportDeclaration";
     ExportDefaultDeclaration
       (ObjectExpression
          [ObjectProperty false (Identifier "props")
             (ArrayExpression [Some (StringLiteral "msg")])])]
  = [("msg", PROPS)].
Proof.
  refine (eq_trans
            (proj2 (proj2 (analyzeScriptBindings_no_constant _))
               [OtherStatement "ImportDeclaration"]
               [ObjectProperty false (Identifier "props")
                  (ArrayExpression [Some (StringLiteral "msg")])]
               [] eq_refl eq_refl)
            _).
  reflexivity.
Defined.

(** *** Declarations that are not [const] *)

Lemma walkPattern_noConst :
  forall (node : Pattern) (b : BindingMetadata),
    addsNoConst b (walkPattern node b false false).
Proof.
  fix IH 1. intros node b.
  destruct node as [name|properties|elements|argument|lhs rhs|ty];
    cbn [walkPattern].
  - apply addsNoConst_set. discriminate.
  - revert b. induction properties as [|p ps IHp]; intros b;
      [apply addsNoConst_refl|].
    destruct p as [k v sameNode|argument].
    + destruct k; try apply IHp.
      destruct sameNode.
      * eapply addsNoConst_trans; [|apply IHp].
        apply addsNoConst_set. discriminate.
      * eapply addsNoConst_trans; [apply IH | apply IHp].
    + eapply addsNoConst_trans; [|apply IHp].
      apply addsNoConst_set. discriminate.
  - revert b. induction elements as [|e es IHe]; intros b;
      [apply addsNoConst_refl|].
    destruct e as [e|]; [|apply IHe].
    eapply addsNoConst_trans; [apply IH | apply IHe].
  - apply addsNoConst_set. discriminate.
  - pose proof (IH lhs b) as Hl. destruct lhs; exact Hl.
  - apply addsNoConst_refl.
Qed.

Lemma walkObjectPattern_noConst (properties : list PatternProperty) :
  forall b, addsNoConst b (walkObjectPattern properties b false false).
Proof.
  induction properties as [|p ps IH]; intros b; [apply addsNoConst_refl|].
  cbn [walkObjectPattern]. destruct p as [k v sameNode|argument].
  - destruct k; try apply IH. destruct sameNode.
    + eapply addsNoConst_trans; [|apply IH].
      apply addsNoConst_set. discriminate.
    + eapply addsNoConst_trans; [apply walkPattern_noConst | apply IH].
  - eapply addsNoConst_trans; [|apply IH].
    apply addsNoConst_set. discriminate.
Qed.

Lemma walkArrayPattern_noConst (elements : list (option Pattern)) :
  forall b, addsNoConst b (walkArrayPattern elements b false false).
Proof.
  induction elements as [|e es IH]; intros b; [apply addsNoConst_refl|].
  cbn [walkArrayPattern]. destruct e as [e|]; [|apply IH].
  eapply addsNoConst_trans; [apply walkPattern_noConst | apply IH].
Qed.

(** X22: A declaration with [let] or [var] is walked without error,
    whatever it destructures; it records no constant, and keeps every
    binding recorded before (a constant of the same name becomes setup
    state). *)
Theorem walkDeclaration_let_var
    (kind : Kind) (declarations : list VariableDeclarator)
    (bindings : BindingMetadata) :
  kind <> KConst ->
  exists bindings',
    walkDeclaration (VariableDeclaration kind declarations) bindings
    = Some bindings'
    /\ (forall k, get bindings' k = Some CONST -> get bindings k = Some CONST)
    /\ (forall k, hasOwn bindings k = true -> hasOwn bindings' k = true).
Proof.
  intros Hkind. unfold walkDeclaration.
  assert (E : match kind with KConst => true | _ => false end = false)
    by (destruct kind; [reflexivity | reflexivity | contradiction]).
  rewrite E. clear E Hkind. revert bindings.
  induction declarations as [|d ds IH]; intros b.
  - exists b. split; [reflexivity|]. apply addsNoConst_refl.
  - cbn [fold_left].
    assert (H : exists b1, walkDeclarator false (Some b) d = Some b1
                           /\ addsNoConst b b1).
    { unfold walkDeclarator. cbn [andb]. destruct (id d).
      - eexists. split; [reflexivity|]. apply addsNoConst_set. discriminate.
      - eexists. split; [reflexivity|]. apply walkObjectPattern_noConst.
      - eexists. split; [reflexivity|]. apply walkArrayPattern_noConst.
      - eexists. split; [reflexivity|]. apply addsNoConst_refl.
      - eexists. split; [reflexivity|]. apply addsNoConst_refl.
      - eexists. split; [reflexivity|]. apply addsNoConst_refl. }
    destruct H as (b1 & -> & H1). destruct (IH b1) as (b' & -> & H2).
    exists b'. split; [reflexivity|]. exact (addsNoConst_trans _ _ _ H1 H2).
Qed.

(** [let { a, ...others } = props, [x, y] = pair]. *)
Lemma walkDeclaration_let_var_witness :
  exists bindings',
    walkDeclaration
      (VariableDeclaration KLet
         [mkDeclarator
            (ObjectPattern
               [PatternObjectProperty (Identifier "a") (PIdentifier "a") true;
                PatternRest (PIdentifier "others")])
            (Some (Identifier "props"));
          mkDeclarator
            (ArrayPattern [Some (PIdentifier "x"); Some (PIdentifier "y")])
            (Some (Identifier "pair"))])
      [("a", CONST)]
    = Some bindings'
    /\ (forall k, get bindings' k = Some CONST ->
                  get [("a", CONST)] k = Some CONST)
    /\ (forall k, hasOwn [("a", CONST)] k = true -> hasOwn bindings' k = true).
Proof.
  apply (walkDeclaration_let_var KLet
           [mkDeclarator
              (ObjectPattern
                 [PatternObjectProperty (Identifier "a") (PIdentifier "a") true;
                  PatternRest (PIdentifier "others")])
              (Some (Identifier "props"));
            mkDeclarator
              (ArrayPattern [Some (PIdentifier "x"); Some (PIdentifier "y")])
              (Some (Identifier "pair"))]
           [("a", CONST)]).
  discriminate.
Defined.

End BindingFacts.

(** ** Unrolling the output buffer (server-renderer, index.ts) *)

Module UnrollFacts.
Import Js Ssr StringFacts.

Lemma unrollBuffer_app (a b : list ResolvedItem) :
  unrollBuffer (a ++ b) = unrollBuffer a ++ unrollBuffer b.
Proof.
  induction a as [|x a IH]; [reflexivity|].
  change ((x :: a) ++ b)%list with (x :: (a ++ b))%list.
  rewrite !BufferFacts.unrollBuffer_cons, IH. now rewrite append_assoc.
Qed.

(** The strings of a resolved buffer, in order, whatever their depth. *)
Fixpoint strings (x : ResolvedItem) : list string :=
  match x with
  | RString s => [s]
  | RBuffer b =>
      (fix each (l : list ResolvedItem) : list string :=
         match l with
         | [] => []
         | y :: l' => (strings y ++ each l')%list
         end) b
  end.

(** X23: Unrolling does not depend on how the buffer is nested: a nested
    buffer unrolls as its entries in its place, and the text of two
    buffers one after the other is the text of the one followed by the
    text of the other, so that the result is the concatenation of the
    strings in the buffer, in order and at any depth. *)
Theorem unrollBuffer_ignores_nesting :
  (forall a b, unrollBuffer (a ++ b) = unrollBuffer a ++ unrollBuffer b)
  /\ (forall a inner b,
        unrollBuffer (a ++ RBuffer inner :: b)
        = unrollBuffer (a ++ inner ++ b))
  /\ (forall buffer,
        unrollBuffer buffer
        = BufferFacts.concatAll (strings (RBuffer buffer))).
Proof.
  split; [exact unrollBuffer_app|]. split.
  - intros a inner b. rewrite !unrollBuffer_app.
    now rewrite BufferFacts.unrollBuffer_cons.
  - assert (H : forall x, unrollItem x = BufferFacts.concatAll (strings x)).
    { fix IH 1. intros x. destruct x as [s|b].
      - cbn. now rewrite append_nil_r.
      - cbn [unrollItem strings].
        induction b as [|y b IHb]; [reflexivity|].
        rewrite BufferFacts.concatAll_app, (IH y), IHb. reflexivity. }
    intros buffer. apply (H (RBuffer buffer)).
Qed.

End UnrollFacts.

(** ** Refs (ref.ts) *)

Module RefFacts.
Import Js Reactivity.

Lemma nth_error_replaceAt_other {A} (l : list A) (n m : nat) (x : A) :
  n <> m -> nth_error (replaceAt n x l) m = nth_error l m.
Proof.
  revert n m. induction l as [|a l IH]; intros [|n] [|m] H; cbn;
    try reflexivity; try contradiction.
  apply IH. congruence.
Qed.

(** X24: A ref is a cell of its own.  A new ref (made from what is no ref)
    holds the value it was made from, converted, and making it changes
    no other ref and calls neither [track] nor [trigger], but for the
    one [track] of the read of [_isRef] when it is made from a reactive
    wrapper; a ref written to reads as the value written, converted, the
    read being tracked; writing to a ref leaves every other ref as it
    was; and [ref] of a ref is that ref, with no ref made. *)
Theorem ref_is_a_cell
    (DEV : bool) (reactive : Val -> Val) (st : State) :
  (forall raw,
     snd (isRef raw st) = false ->
     let st' := fst (ref reactive raw st) in
     exists r,
       snd (ref reactive raw st) = RefObject r
       /\ nth_error (refs st) r = None
       /\ nth_error (refs st') r = Some (convert reactive raw)
       /\ log st' = (log st ++ match raw with
                               | Wrapper target _ =>
                                   [TrackObject target GET "_isRef"]
                               | _ => []
                               end)%list
       /\ forall r', r' <> r -> nth_error (refs st') r' = nth_error (refs st) r')
  /\ (forall r newVal st',
        setValue DEV reactive r newVal st = Some st' ->
        (exists st'',
           getValue r st' = Some (st'', convert reactive newVal)
           /\ refs st'' = refs st'
           /\ log st'' = (log st' ++ [Track r GET "value"])%list)
        /\ forall r', r' <> r ->
                      nth_error (refs st') r' = nth_error (refs st) r')
  /\ (forall raw,
        snd (isRef raw st) = true ->
        snd (ref reactive raw st) = raw
        /\ refs (fst (ref reactive raw st)) = refs st)
  /\ (forall r, ref reactive (RefObject r) st = (st, RefObject r)).
Proof.
  split; [|split; [|split]].
  - intros raw Hraw st'. subst st'.
    assert (H1 : nth_error (refs st) (List.length (refs st)) = None)
      by (apply nth_error_None; lia).
    assert (H2 : nth_error (refs st ++ [convert reactive raw])
                           (List.length (refs st))
                 = Some (convert reactive raw))
      by (rewrite nth_error_app2 by lia; now rewrite Nat.sub_diag).
    assert (H3 : forall r', r' <> List.length (refs st) ->
                            nth_error (refs st ++ [convert reactive raw]) r'
                            = nth_error (refs st) r').
    { intros r' Hr'. destruct (Nat.lt_ge_cases r' (List.length (refs st))).
      - now rewrite nth_error_app1.
      - assert (Hnone : nth_error (refs st) r' = None)
          by (apply nth_error_None; lia).
        rewrite Hnone. apply nth_error_None. rewrite length_app. cbn. lia. }
    exists (List.length (refs st)).
    destruct raw as [v|r0|target ofRef]; cbn in Hraw; try discriminate.
    + cbn. rewrite app_nil_r. repeat split; auto.
    + subst ofRef. cbn. repeat split; auto.
  - intros r newVal st' H. unfold setValue in H.
    destruct (nth_error (refs st) r) as [old|] eqn:E; [|discriminate].
    injection H as <-. split.
    + unfold getValue. cbn [refs log].
      rewrite (ReactivityFacts.nth_error_replaceAt _ _ _ _ E).
      eexists. repeat split.
    + intros r' Hr'. cbn [refs]. apply nth_error_replaceAt_other. congruence.
  - intros raw Hraw.
    destruct raw as [v|r0|target ofRef]; cbn in Hraw; try discriminate.
    + split; reflexivity.
    + subst ofRef. split; reflexivity.
  - reflexivity.
Qed.

(** A ref written [5] reads as [5]; a ref made from the reactive wrapper
    of the object 3 is a new cell, and making it has read [_isRef]
    through the wrapper. *)
Lemma ref_is_a_cell_witness :
  (exists st'',
     getValue 1%nat
       (mkState [Plain (VNumber 1); Plain (VNumber 5)]
                [Trigger 1%nat SET "value" None])
     = Some (st'', convert (fun v => v) (Plain (VNumber 5)))
     /\ refs st'' = [Plain (VNumber 1); Plain (VNumber 5)]
     /\ log st'' = [Trigger 1%nat SET "value" None; Track 1%nat GET "value"])
  /\ (exists r,
        snd (ref (fun v => v) (Wrapper 3%nat false)
                 (mkState [Plain (VNumber 1)] []))
        = RefObject r
        /\ nth_error (refs (fst (ref (fun v => v) (Wrapper 3%nat false)
                                     (mkState [Plain (VNumber 1)] [])))) r
           = Some (Wrapper 3%nat false)
        /\ log (fst (ref (fun v => v) (Wrapper 3%nat false)
                         (mkState [Plain (VNumber 1)] [])))
           = [TrackObject 3%nat GET "_isRef"]).
Proof.
  split.
  - apply (proj1 (proj2 (ref_is_a_cell false (fun v => v)
                           (mkState [Plain (VNumber 1); Plain (VNumber 2)] [])))
             1%nat (Plain (VNumber 5))
             (mkState [Plain (VNumber 1); Plain (VNumber 5)]
                      [Trigger 1%nat SET "value" None])
             eq_refl).
  - destruct (proj1 (ref_is_a_cell false (fun v => v)
                       (mkState [Plain (VNumber 1)] []))
                (Wrapper 3%nat false) eq_refl)
      as [r [Hr [_ [Hget [Hlog _]]]]].
    exists r. split; [exact Hr|]. split; [exact Hget | exact Hlog].
Defined.

End RefFacts.

(** ** The render proxy (componentProxy.ts) *)

Module ComponentProxyFacts.
Import Js ComponentProxy.

(** The key is an own property of the instance's data or of its render
    context. *)
Definition isState (target : ComponentInstance) (key : string) : bool :=
  (match data target with Some d => hasOwn d key | None => false end
   || hasOwn (renderContext target) key)%bool.

Lemma hasOwn_set_same {V} (o : obj V) (k : string) (v : V) :
  hasOwn (set o k v) k = true.
Proof. unfold hasOwn. now rewrite PropsFacts.get_set_same. Qed.

Lemma read_set_same (o : obj value) (k : string) (v : value) :
  read (set o k v) k = GotValue v.
Proof. unfold read. now rewrite PropsFacts.get_set_same. Qed.

Section Handlers.

Variable FEATURE_OPTIONS : bool.
Variable inTarget : string -> bool.

(** X25: The [set] trap never writes the props.  It refuses a key, leaving
    the instance as it is, exactly when the key is no own property of
    the data or the render context and either is a dollar sign followed
    by the name of a member of the instance, or is found in the props:
    an own prop, or a name that every object inherits. *)
Theorem proxySet_refuses
    (target : ComponentInstance) (key : string) (v : value) :
  props (snd (proxySet inTarget target key v)) = props target
  /\ propsProxy (snd (proxySet inTarget target key v)) = propsProxy target
  /\ (fst (proxySet inTarget target key v) = false ->
      snd (proxySet inTarget target key v) = target)
  /\ (fst (proxySet inTarget target key v) = false
      <-> isState target key = false
          /\ (isPublicName inTarget key = true
              \/ hasOwn (props target) key = true
              \/ isInherited key = true)).
Proof.
  unfold proxySet, isState, inObject.
  destruct (data target) as [d|];
    [destruct (hasOwn d key)|];
    cbn [orb fst snd props propsProxy];
    try (repeat split; try reflexivity; try discriminate;
         intros [H _]; discriminate).
  all: destruct (hasOwn (renderContext target) key);
    cbn [fst snd props propsProxy];
    try (repeat split; try reflexivity; try discriminate;
         intros [H _]; discriminate).
  all: destruct (isPublicName inTarget key);
    cbn [fst snd props propsProxy];
    try (repeat split; auto; fail).
  all: destruct (hasOwn (props target) key); cbn [orb fst snd props propsProxy];
    try (repeat split; auto; fail).
  all: destruct (isInherited key); cbn [fst snd props propsProxy];
    try (repeat split; auto; fail).
  all: repeat split; try reflexivity; try discriminate;
    intros [_ [H | [H | H]]]; discriminate.
Qed.

(** X26: What was written through the proxy is read back through it: when
    the [set] trap accepts a key that is none of the public names
    ([$data], [$props], ..., and the three of the options API when they
    are supported), the [get] trap returns the value written.  Under a
    public name that is no own property of the data or the render
    context the write is not seen: [get] keeps returning the member of
    the instance. *)
Theorem proxySet_then_get
    (target target' : ComponentInstance) (key : string) (v : value) :
  proxySet inTarget target key v = (true, target') ->
  (publicMember key = None ->
   (if FEATURE_OPTIONS then optionsMember key else None) = None ->
   proxyGet FEATURE_OPTIONS target' key = Some (GotValue v))
  /\ (forall m,
        publicMember key = Some m -> isState target key = false ->
        proxyGet FEATURE_OPTIONS target' key = Some (GotMember m)).
Proof.
  unfold proxySet, proxyGet, isState, inObject.
  destruct (data target) as [d|] eqn:D.
  - destruct (hasOwn d key) eqn:Hd.
    + intros H. injection H as <-. cbn [data orb].
      rewrite hasOwn_set_same, read_set_same.
      split; [reflexivity | discriminate].
    + destruct (hasOwn (renderContext target) key) eqn:Hr.
      * intros H. injection H as <-. cbn [data renderContext orb].
        rewrite ?D, Hd, hasOwn_set_same, read_set_same.
        split; [reflexivity | discriminate].
      * destruct (isPublicName inTarget key); [discriminate|].
        destruct (hasOwn (props target) key) eqn:Hp; [discriminate|].
        destruct (isInherited key); [discriminate|].
        intros H. injection H as <-.
        cbn [data renderContext props user orb]. rewrite ?D, Hd, Hr, Hp.
        split.
        -- intros -> ->. now rewrite read_set_same.
        -- intros m -> _. reflexivity.
  - destruct (hasOwn (renderContext target) key) eqn:Hr.
    + intros H. injection H as <-. cbn [data renderContext orb].
      rewrite ?D, hasOwn_set_same, read_set_same.
      split; [reflexivity | discriminate].
    + destruct (isPublicName inTarget key); [discriminate|].
      destruct (hasOwn (props target) key) eqn:Hp; [discriminate|].
      destruct (isInherited key); [discriminate|].
      intros H. injection H as <-.
      cbn [data renderContext props user orb]. rewrite ?D, Hr, Hp.
      split.
      * intros -> ->. now rewrite read_set_same.
      * intros m -> _. reflexivity.
Qed.

End Handlers.

Definition sampleInstance : ComponentInstance :=
  mkInstance [("count", VNumber 0)] None [("msg", VString "hi")]
             (Some (fun _ => VString "hi")) [].

Definition sampleFields (name : string) : bool :=
  existsb (String.eqb name) ["data"; "props"; "attrs"; "slots"; "refs";
                             "parent"; "root"; "emit"; "type"; "vnode"].

Lemma proxySet_refuses_witness :
  fst (proxySet sampleFields sampleInstance "msg" (VString "x")) = false
  /\ fst (proxySet sampleFields sampleInstance "toString" VNull) = false
  /\ fst (proxySet sampleFields sampleInstance "$props" VNull) = false.
Proof.
  split; [|split];
    apply (proj2 (proj2 (proj2 (proxySet_refuses sampleFields
                                  sampleInstance _ _))));
    (split; [reflexivity|]).
  - right. left. reflexivity.
  - right. right. reflexivity.
  - left. reflexivity.
Defined.

Lemma proxySet_then_get_witness :
  proxyGet true
    (mkInstance [("count", VNumber 0)] None [("msg", VString "hi")]
                (Some (fun _ => VString "hi")) [("local", VNumber 1)])
    "local"
  = Some (GotValue (VNumber 1))
  /\ proxyGet true
       (mkInstance [("count", VNumber 0)] None [("msg", VString "hi")]
                   (Some (fun _ => VString "hi")) [("$el", VNumber 1)])
       "$el"
     = Some (GotMember MEl).
Proof.
  split.
  - apply (proj1 (proxySet_then_get true sampleFields sampleInstance _
                    "local" (VNumber 1) eq_refl)); reflexivity.
  - apply (proj2 (proxySet_then_get true sampleFields sampleInstance _
                    "$el" (VNumber 1) eq_refl)); reflexivity.
Defined.

End ComponentProxyFacts.

(** ** The iterator of an alias expression (vFor.ts) *)

Module IteratorFacts.
Import Js VFor StringFacts.

(** No comma, closing brace or closing bracket. *)
Fixpoint isIteratorText (s : string) : bool :=
  match s with
  | EmptyString => true
  | String c s' => (isIteratorChar c && isIteratorText s')%bool
  end.

Lemma spanIterator_text (s : string) :
  isIteratorText (fst (spanIterator s)) = true.
Proof.
  induction s as [|c s IH]; [reflexivity|]. cbn [spanIterator].
  destruct (isIteratorChar c) eqn:E; [|reflexivity].
  destruct (spanIterator s) as [run rest]. cbn in *. now rewrite E.
Qed.

Lemma forIteratorTail_text (s g1 : string) (g2 : option string) :
  forIteratorTail s = Some (g1, g2) ->
  isIteratorText g1 = true
  /\ match g2 with Some g => isIteratorText g = true | None => True end.
Proof.
  unfold forIteratorTail. pose proof (spanIterator_text s) as H1.
  destruct (spanIterator s) as [run rest]. cbn in H1.
  destruct rest as [|c rest'].
  - intros H. injection H as <- <-. now split.
  - destruct (Ascii.eqb c ","); [|discriminate].
    pose proof (spanIterator_text rest') as H2.
    destruct (spanIterator rest') as [run2 rest2]. cbn in H2.
    destruct rest2; [|discriminate].
    intros H. injection H as <- <-. now split.
Qed.

(** X27: a match of the iterator expression at the end of the value
    splits the text into what comes before, a comma and the key, and,
    when there is one, a second comma and the index; neither key nor
    index holds a comma, a closing brace or a closing bracket. *)
Theorem forIteratorRE_decomposition
    (s before g1 : string) (g2 : option string) :
  forIteratorRE s = Some (before, g1, g2) ->
  s = before ++ "," ++ g1
      ++ match g2 with Some g => "," ++ g | None => EmptyString end
  /\ isIteratorText g1 = true
  /\ match g2 with Some g => isIteratorText g = true | None => True end.
Proof.
  intros H. split; [exact (AliasFacts.forIteratorRE_split _ _ _ _ H)|].
  revert before H. induction s as [|c s IH]; intros before H; [discriminate|].
  cbn [forIteratorRE] in H.
  destruct (if Ascii.eqb c "," then forIteratorTail s else None)
    as [[h1 h2]|] eqn:Here.
  - injection H as <- <- <-.
    destruct (Ascii.eqb c ","); [|discriminate].
    now apply forIteratorTail_text in Here.
  - destruct (forIteratorRE s) as [[[b h1] h2]|] eqn:R; [|discriminate].
    injection H as <- <- <-. now apply (IH b).
Qed.

Lemma forIteratorRE_decomposition_witness :
  "{ a, b }, key, i" = "{ a, b }" ++ "," ++ " key" ++ "," ++ " i"
  /\ isIteratorText " key" = true
  /\ isIteratorText " i" = true.
Proof.
  apply (forIteratorRE_decomposition "{ a, b }, key, i" "{ a, b }" " key"
           (Some " i")).
  vm_compute. reflexivity.
Defined.

End IteratorFacts.

(** ** Children that are not descriptors (vnode.ts) *)

Module NormalizeFacts.
Import Js VNode.

Section Flags.

Variables ELEMENT FUNCTIONAL_COMPONENT STATEFUL_COMPONENT : Z.
Variables TEXT_CHILDREN ARRAY_CHILDREN SLOTS_CHILDREN : Z.

(** The descriptor [normalizeVNode] makes for a child that is none. *)
Definition wraps (child : VNodeChild) (v : VNode) : Prop :=
  match child with
  | ChildNull => type v = Comment /\ children v = NoChildren
  | ChildArray items => type v = Fragment /\ children v = ArrayChildren items
  | ChildPrimitive text => type v = Text /\ children v = TextChildren text
  | ChildVNode _ => False
  end.

(** X28: a child that is no descriptor object is wrapped in a new
    descriptor: a comment for [null] or [undefined], a fragment with
    the items as children for an array, a text with the string form as
    children for a primitive; the descriptor has no patch flag, no key
    and no element.  Whatever the child, [normalizeVNode] leaves the
    open blocks and the tracking flag as they are (the new descriptor
    is tracked by no block), and adds at most one object to the store,
    changing none. *)
Theorem normalizeVNode_wraps
    (child : VNodeChild) (st st' : State) (r : vref) :
  normalizeVNode ELEMENT FUNCTIONAL_COMPONENT STATEFUL_COMPONENT
                 TEXT_CHILDREN ARRAY_CHILDREN SLOTS_CHILDREN child st
  = Some (st', r) ->
  blockStack st' = blockStack st
  /\ shouldTrack st' = shouldTrack st
  /\ (exists added, heap st' = (heap st ++ added)%list
                    /\ (List.length added <= 1)%nat)
  /\ ((forall r0, child <> ChildVNode r0) ->
      deref st r = None
      /\ exists v,
           deref st' r = Some v /\ wraps child v
           /\ patchFlag v = 0 /\ key v = VNull /\ el v = None
           /\ dynamicChildren v = None).
Proof.
  assert (Hnew : forall ty ch,
             (ty = Comment \/ ty = Fragment \/ ty = Text) ->
             createVNode ELEMENT FUNCTIONAL_COMPONENT STATEFUL_COMPONENT
                         TEXT_CHILDREN ARRAY_CHILDREN SLOTS_CHILDREN
                         ty ch 0 None st
             = (mkState
                  (heap st
                   ++ [mkVNode ty None VNull VNull
                         (fst (normalizeChildren TEXT_CHILDREN ARRAY_CHILDREN
                                                 SLOTS_CHILDREN ch))
                         None None None None None
                         (Z.lor 0 (snd (normalizeChildren TEXT_CHILDREN
                                          ARRAY_CHILDREN SLOTS_CHILDREN ch)))
                         0 None None None])
                  (blockStack st) (shouldTrack st),
                List.length (heap st))).
  { intros ty ch Hty. unfold createVNode.
    destruct (normalizeChildren _ _ _ ch) as [c bits]. cbn [fst snd].
    destruct Hty as [-> | [-> | ->]]; unfold alloc; cbn [shouldTrack];
      cbn [Z.eqb Z.land negb orb]; rewrite andb_false_r; reflexivity. }
  assert (Hfresh : forall v,
             deref (mkState (heap st ++ [v]) (blockStack st) (shouldTrack st))
                   (List.length (heap st)) = Some v).
  { intros v. unfold deref. cbn [heap].
    rewrite nth_error_app2 by lia. now rewrite Nat.sub_diag. }
  unfold normalizeVNode.
  destruct child as [|items|r0|text].
  - rewrite Hnew by auto. intros H. injection H as <- <-.
    cbn [blockStack shouldTrack heap].
    split; [reflexivity|]. split; [reflexivity|].
    split; [eexists; split; [reflexivity | cbn; lia]|].
    intros _. split; [apply VNodeFacts.deref_fresh|].
    eexists. split; [apply Hfresh|]. cbn. repeat split.
  - rewrite Hnew by auto. intros H. injection H as <- <-.
    cbn [blockStack shouldTrack heap].
    split; [reflexivity|]. split; [reflexivity|].
    split; [eexists; split; [reflexivity | cbn; lia]|].
    intros _. split; [apply VNodeFacts.deref_fresh|].
    eexists. split; [apply Hfresh|]. cbn. repeat split.
  - destruct (deref st r0) as [v|]; [|discriminate].
    destruct (el v).
    + intros H. injection H as <- <-. cbn [alloc blockStack shouldTrack heap].
      split; [reflexivity|]. split; [reflexivity|].
      split; [eexists; split; [reflexivity | cbn; lia]|].
      intros Hno. exfalso. now apply (Hno r0).
    + intros H. injection H as <- <-.
      split; [reflexivity|]. split; [reflexivity|].
      split; [exists []; split; [now rewrite app_nil_r | cbn; lia]|].
      intros Hno. exfalso. now apply (Hno r0).
  - rewrite Hnew by auto. intros H. injection H as <- <-.
    cbn [blockStack shouldTrack heap].
    split; [reflexivity|]. split; [reflexivity|].
    split; [eexists; split; [reflexivity | cbn; lia]|].
    intros _. split; [apply VNodeFacts.deref_fresh|].
    eexists. split; [apply Hfresh|]. cbn. repeat split.
Qed.

End Flags.

Lemma normalizeVNode_wraps_witness :
  exists v,
    deref (mkState
             [mkVNode Text None VNull VNull (TextChildren "7")
                      None None None None None 8 0 None None None]
             [Some []] true) 0%nat
    = Some v
    /\ type v = Text /\ children v = TextChildren "7".
Proof.
  destruct (normalizeVNode_wraps 1 2 4 8 16 32 (ChildPrimitive "7")
              (mkState [] [Some []] true)
              (mkState
                 [mkVNode Text None VNull VNull (TextChildren "7")
                          None None None None None 8 0 None None None]
                 [Some []] true)
              0%nat eq_refl) as (_ & _ & _ & H4).
  destruct H4 as (_ & v & Hv & Hw & _); [discriminate|].
  exists v. split; [exact Hv | exact Hw].
Defined.

End NormalizeFacts.
